(** * Conan's command-line dispatch layer, embedded in Rocq

    A shallow embedding of [conans/client/command.py]: the two argparse
    actions ([Extender], [OnceArgument]), the command registry
    ([Command._commands]), the fuzzy suggestion ([Command._print_similar]), the
    dispatcher ([Command.run]) and the JSON step of [Command.inspect].

    Python values are a small inductive universe, exceptions are values of an
    error type, and every method that touches the console, the logger or the
    file system passes a [world] explicitly.  The parts of Python's standard
    library the code calls (argparse's action loop, [difflib], [json],
    [posixpath], [sorted]) are modelled next to the code that uses them. *)

From Stdlib Require Import ZArith String Ascii List QArith Lia DecimalString.
From Stdlib Require Import Permutation Sorted.
From stdpp Require Import base gmap gmultiset strings list sorting.

Open Scope string_scope.
Open Scope Z_scope.
Open Scope list_scope.

Set Warnings "-register-all".
Scheme All for list.
Scheme All for prod.

(** ** Python values *)

(** The values the dispatch layer handles: what argparse stores in a
    namespace, what [SystemExit] carries, and what a recipe's attributes hold
    when [inspect] serialises them.  A set keeps its elements in iteration
    order; a dictionary is keyed by strings and keeps insertion order.
    Floating-point numbers are outside the universe. *)
Inductive pyval : Type :=
| PNone
| PBool (b : bool)
| PInt (z : Z)
| PStr (s : string)
| PList (l : list pyval)
| PTuple (l : list pyval)
| PSet (l : list pyval)
| PDict (kvs : list (string * pyval)).

(** [bool(v)]. *)
Definition py_bool (v : pyval) : bool :=
  match v with
  | PNone => false
  | PBool b => b
  | PInt z => negb (z =? 0)
  | PStr s => negb (String.eqb s "")
  | PList l | PTuple l | PSet l => match l with [] => false | _ => true end
  | PDict kvs => match kvs with [] => false | _ => true end
  end.

(** [type(v).__name__]. *)
Definition type_name (v : pyval) : string :=
  match v with
  | PNone => "NoneType"
  | PBool _ => "bool"
  | PInt _ => "int"
  | PStr _ => "str"
  | PList _ => "list"
  | PTuple _ => "tuple"
  | PSet _ => "set"
  | PDict _ => "dict"
  end.

(** [v is None]. *)
Definition is_None (v : pyval) : bool :=
  match v with PNone => true | _ => false end.

(** [isinstance(v, str)]. *)
Definition isinstance_str (v : pyval) : bool :=
  match v with PStr _ => true | _ => false end.

(** [hasattr(v, 'extend')]: among the values of the universe only a list has
    the method. *)
Definition hasattr_extend (v : pyval) : bool :=
  match v with PList _ => true | _ => false end.

(** A [bool] is an [int] in Python: [True == 1]. *)
Definition as_int (v : pyval) : option Z :=
  match v with
  | PBool b => Some (if b then 1 else 0)
  | PInt z => Some z
  | _ => None
  end.

(** [a == b].  Numbers compare by value, sequences element by element, sets
    and dictionaries regardless of order. *)
Fixpoint py_eq (a b : pyval) {struct a} : bool :=
  let fix eq_list (l1 l2 : list pyval) {struct l1} : bool :=
    match l1, l2 with
    | [], [] => true
    | x :: l1', y :: l2' => py_eq x y && eq_list l1' l2'
    | _, _ => false
    end in
  match a, b with
  | PNone, PNone => true
  | PBool x, (PBool _ | PInt _) => bool_decide (Some (if x then 1 else 0) = as_int b)
  | PInt x, (PBool _ | PInt _) => bool_decide (Some x = as_int b)
  | PStr s, PStr t => String.eqb s t
  | PList l1, PList l2 => eq_list l1 l2
  | PTuple l1, PTuple l2 => eq_list l1 l2
  | PSet l1, PSet l2 =>
      forallb (fun x => existsb (fun y => py_eq x y) l2) l1
      && (length l1 =? length l2)%nat
  | PDict d1, PDict d2 =>
      forallb (fun kv => match list_find (fun kv2 => String.eqb kv.1 kv2.1) d2 with
                         | Some (_, kv2) => py_eq kv.2 kv2.2
                         | None => false
                         end) d1
      && (length d1 =? length d2)%nat
  | _, _ => false
  end.

(** ** Exceptions *)

(** The exception classes that reach the dispatcher.  [ConanException] and its
    two subclasses come from [conans.errors]; [ArgumentError] is argparse's. *)
Inductive exc_class : Type :=
| BaseException
| KeyboardInterrupt
| SystemExit
| Exception
| ConanException
| ConanInvalidConfiguration
| ConanInvalidSystemRequirements
| ArgumentError
| AttributeError
| IndexError
| KeyError
| RecursionError
| TypeError
| ValueError.

#[global] Instance exc_class_eq_dec : EqDecision exc_class.
Proof. solve_decision. Defined.

(** The classes an exception class derives from, itself first (its method
    resolution order, [object] left out).

    Modelled from the spec: [conans/errors.py] is not among the sources.  The
    spec's error taxonomy makes invalid configuration and invalid system
    requirements special kinds of the domain error, and [run] tests for them
    before [ConanException]. *)
Definition mro (c : exc_class) : list exc_class :=
  match c with
  | BaseException => [BaseException]
  | KeyboardInterrupt => [KeyboardInterrupt; BaseException]
  | SystemExit => [SystemExit; BaseException]
  | Exception => [Exception; BaseException]
  | ConanException => [ConanException; Exception; BaseException]
  | ConanInvalidConfiguration =>
      [ConanInvalidConfiguration; ConanException; Exception; BaseException]
  | ConanInvalidSystemRequirements =>
      [ConanInvalidSystemRequirements; ConanException; Exception; BaseException]
  | ArgumentError => [ArgumentError; Exception; BaseException]
  | AttributeError => [AttributeError; Exception; BaseException]
  | IndexError => [IndexError; Exception; BaseException]
  | KeyError => [KeyError; Exception; BaseException]
  | RecursionError => [RecursionError; Exception; BaseException]
  | TypeError => [TypeError; Exception; BaseException]
  | ValueError => [ValueError; Exception; BaseException]
  end.

(** A raised exception: its class and the argument it was built with (the
    exit code of a [SystemExit], the key of a [KeyError], the message of the
    others). *)
Record exn : Type := mk_exn { exn_class : exc_class; exn_arg : pyval }.

(** [isinstance(exc, cls)], which is what an [except cls] clause tests. *)
Definition isinstance (exc : exn) (cls : exc_class) : bool :=
  bool_decide (cls ∈ mro (exn_class exc)).

(** [exc.code] of a [SystemExit]. *)
Definition code (exc : exn) : pyval := exn_arg exc.

(** ** Computations that may raise *)

Inductive outcome (A : Type) : Type :=
| Ok (a : A)
| Raise (exc : exn).
Arguments Ok {A} a.
Arguments Raise {A} exc.

#[global] Instance outcome_ret : MRet outcome := fun A a => Ok a.
#[global] Instance outcome_bind : MBind outcome := fun A B f m =>
  match m with
  | Ok a => f a
  | Raise exc => Raise exc
  end.

Definition raise {A : Type} (cls : exc_class) (msg : string) : outcome A :=
  Raise (mk_exn cls (PStr msg)).

(** ** Ordering and [sorted] *)

(** [a < b].  Numbers and strings are ordered among themselves, lists and
    tuples lexicographically (the first pair of unequal elements decides), a
    set is below its proper supersets; every other pairing is a [TypeError]. *)
Fixpoint py_lt (a b : pyval) {struct a} : outcome bool :=
  let fix lt_list (l1 l2 : list pyval) {struct l1} : outcome bool :=
    match l1, l2 with
    | [], [] => Ok false
    | [], _ :: _ => Ok true
    | _ :: _, [] => Ok false
    | x :: l1', y :: l2' => if py_eq x y then lt_list l1' l2' else py_lt x y
    end in
  match a, b with
  | PBool x, (PBool _ | PInt _) =>
      Ok (from_option (Z.ltb (if x then 1 else 0)) false (as_int b))
  | PInt x, (PBool _ | PInt _) => Ok (from_option (Z.ltb x) false (as_int b))
  | PStr s, PStr t => Ok (String.ltb s t)
  | PList l1, PList l2 => lt_list l1 l2
  | PTuple l1, PTuple l2 => lt_list l1 l2
  | PSet l1, PSet l2 =>
      Ok (forallb (fun x => existsb (fun y => py_eq x y) l2) l1
          && (length l1 <? length l2)%nat)
  | _, _ => raise TypeError "'<' not supported between instances"
  end.

Section sorting.
Context {A : Type}.

(** Insertion of [x] into a sorted list, behind the elements that are
    smaller and in front of the first one that is not: equal elements keep
    their order, as in Python's stable sort. *)
Fixpoint insert_sorted (lt : A → A → bool) (x : A) (l : list A) : list A :=
  match l with
  | [] => [x]
  | y :: l' => if lt y x then y :: insert_sorted lt x l' else x :: l
  end.

(** A stable sort that, like Python's, only asks whether one element is
    smaller than another. *)
Fixpoint isort (lt : A → A → bool) (l : list A) : list A :=
  match l with
  | [] => []
  | x :: l' => insert_sorted lt x (isort lt l')
  end.

(** The same sort for a comparison that may raise; the first failing
    comparison ends the sort. *)
Fixpoint insert_sorted_raising (lt : A → A → outcome bool) (x : A) (l : list A)
  : outcome (list A) :=
  match l with
  | [] => Ok [x]
  | y :: l' =>
      match lt y x with
      | Ok true =>
          match insert_sorted_raising lt x l' with
          | Ok r => Ok (y :: r)
          | Raise exc => Raise exc
          end
      | Ok false => Ok (x :: l)
      | Raise exc => Raise exc
      end
  end.

Fixpoint isort_raising (lt : A → A → outcome bool) (l : list A) : outcome (list A) :=
  match l with
  | [] => Ok []
  | x :: l' =>
      match isort_raising lt l' with
      | Ok s => insert_sorted_raising lt x s
      | Raise exc => Raise exc
      end
  end.

(** In a sorted list no element is smaller than the one before it:
    [not_after lt x y] says that [y] may follow [x]. *)
Definition not_after (lt : A → A → bool) (x y : A) : Prop := lt y x = false.
End sorting.

(** [sorted(l)] on Python values.  Python's sort makes other comparisons than
    an insertion sort does, but on elements that are totally ordered by [<]
    every stable sort returns the same list. *)
Definition sorted (l : list pyval) : outcome (list pyval) := isort_raising py_lt l.

(** [sorted(l, reverse=True)] for a comparison that cannot fail: descending,
    equal elements in their original order. *)
Definition sorted_reverse {A : Type} (lt : A → A → bool) (l : list A) : list A :=
  isort (fun x y => lt y x) l.

(** ** argparse: actions, parser and namespace *)

(** The attributes of an [argparse.Action] that the two action classes read:
    which class it is, its option strings, its destination and its default
    (which [set_defaults] overwrites). *)
Inductive action_class : Type := ExtenderAction | OnceArgumentAction.

Record Action : Type := mk_Action {
  action : action_class;
  option_strings : list string;
  dest : string;
  default : pyval
}.

(** An [argparse.ArgumentParser]: the parser-level defaults and the actions
    registered with [add_argument], in registration order. *)
Record ArgumentParser : Type := mk_ArgumentParser {
  _defaults : gmap string pyval;
  _actions : list Action
}.

(** An [argparse.Namespace]: attribute name to value. *)
Abbreviation Namespace := (gmap string pyval).

(** [argparse.SUPPRESS]. *)
Definition SUPPRESS : pyval := PStr "==SUPPRESS==".

(** [getattr(namespace, name, fallback)]. *)
Definition getattr (namespace : Namespace) (name : string) (fallback : pyval) : pyval :=
  match namespace !! name with
  | Some v => v
  | None => fallback
  end.

(** [setattr(namespace, name, value)]. *)
Definition setattr (namespace : Namespace) (name : string) (value : pyval) : Namespace :=
  <[name := value]> namespace.

(** [parser.set_defaults] called with the one keyword [name=value]: the
    parser-level default is recorded and every registered action with that
    destination gets the new default. *)
Definition set_defaults (parser : ArgumentParser) (name : string) (value : pyval)
  : ArgumentParser :=
  {| _defaults := <[name := value]> (_defaults parser);
     _actions := (fun a => if String.eqb (dest a) name
                           then mk_Action (action a) (option_strings a) (dest a) value
                           else a) <$> _actions parser |}.

(** Iterating a value, as [list.extend] does with its argument.  The
    containers of the universe yield their elements and never fail; the
    other values are not iterable. *)
Definition py_iter (v : pyval) : outcome (list pyval) :=
  match v with
  | PList l | PTuple l | PSet l => Ok l
  | PDict kvs => Ok (map (fun kv => PStr kv.1) kvs)
  | PStr s => Ok (map (fun c => PStr (String c "")) (list_ascii_of_string s))
  | PNone | PBool _ | PInt _ =>
      raise TypeError ("'" +:+ type_name v +:+ "' object is not iterable")
  end.

(** [dest.extend(values)]. *)
Definition list_extend (l : list pyval) (values : pyval) : outcome (list pyval) :=
  items ← py_iter values; Ok (l ++ items).

(** ** [class Extender(argparse.Action)] *)

Module Extender.

(** [Extender.__call__(self, parser, namespace, values)].  [dest_list] is the
    list object the local [dest] refers to; it is also the object stored in
    the namespace, so each mutation of it is written back there.  Actions
    hold their defaults by value: a list object that is at once in the
    namespace and the default of some action is followed up to the point
    where it would be extended in place, which no flag of the source
    reaches, all of them being declared without a list default. *)
Definition __call__ (self : Action) (parser : ArgumentParser) (namespace : Namespace)
    (values : pyval) : outcome (ArgumentParser * Namespace) :=
  let dest0 := getattr namespace (dest self) PNone in
  let '(dest_list, namespace, parser) :=
    if negb (hasattr_extend dest0) || py_eq dest0 (default self)
    then ([], setattr namespace (dest self) (PList []),
          set_defaults parser (dest self) PNone)
    else (match dest0 with PList l => l | _ => [] end, namespace, parser) in
  if isinstance_str values then
    Ok (parser, setattr namespace (dest self) (PList (dest_list ++ [values])))
  else if py_bool values then
    match list_extend dest_list values with
    | Ok l => Ok (parser, setattr namespace (dest self) (PList l))
    | Raise exc =>
        if isinstance exc ValueError
        then Ok (parser, setattr namespace (dest self) (PList (dest_list ++ [values])))
        else Raise exc
    end
  else Ok (parser, namespace).

End Extender.

(** ** [class OnceArgument(argparse.Action)] *)

Module OnceArgument.

(** [OnceArgument.__call__(self, parser, namespace, values, option_string)]. *)
Definition __call__ (self : Action) (parser : ArgumentParser) (namespace : Namespace)
    (values : pyval) (option_string : string) : outcome (ArgumentParser * Namespace) :=
  match namespace !! dest self with
  | None => raise AttributeError (dest self)
  | Some current =>
      if negb (is_None current) && is_None (default self) then
        let msg := option_string +:+ " can only be specified once" in
        raise ArgumentError msg
      else Ok (parser, setattr namespace (dest self) values)
  end.

End OnceArgument.

(** ** argparse's action loop *)

(** One occurrence of a flag on the command line, as argparse hands it to the
    action: which registered action (its position in [_actions]), the option
    string that was typed, and the values collected for it according to the
    action's [nargs]. *)
Record occurrence : Type := mk_occurrence {
  occ_action : nat;
  occ_option_string : string;
  occ_values : pyval
}.

(** [take_action]: call the action object on the current namespace. *)
Definition take_action (parser : ArgumentParser) (namespace : Namespace) (o : occurrence)
  : outcome (ArgumentParser * Namespace) :=
  match _actions parser !! occ_action o with
  | None => raise IndexError "list index out of range"
  | Some self =>
      match action self with
      | ExtenderAction => Extender.__call__ self parser namespace (occ_values o)
      | OnceArgumentAction =>
          OnceArgument.__call__ self parser namespace (occ_values o) (occ_option_string o)
      end
  end.

(** The occurrences are consumed left to right; the first exception ends the
    parse. *)
Fixpoint take_actions (parser : ArgumentParser) (namespace : Namespace)
    (occurrences : list occurrence) : outcome (ArgumentParser * Namespace) :=
  match occurrences with
  | [] => Ok (parser, namespace)
  | o :: rest =>
      match take_action parser namespace o with
      | Ok (parser', namespace') => take_actions parser' namespace' rest
      | Raise exc => Raise exc
      end
  end.

(** The namespace [parse_known_args] starts from: every action's default
    under its destination (the first action of a destination wins), then the
    parser-level defaults for the attributes still missing. *)
Definition initial_namespace (parser : ArgumentParser) : Namespace :=
  let from_actions :=
    fold_left (fun ns a =>
                 match ns !! dest a with
                 | Some _ => ns
                 | None => if py_eq (default a) SUPPRESS then ns
                           else setattr ns (dest a) (default a)
                 end)
              (_actions parser) (∅ : Namespace) in
  map_fold (fun name value ns =>
              match ns !! name with
              | Some _ => ns
              | None => setattr ns name value
              end)
           from_actions (_defaults parser).

(** [parser.parse_args] reduced to its action loop: the namespace after the
    last occurrence, or the exception an action raised (which argparse goes
    on to report through [parser.error]). *)
Definition parse_args (parser : ArgumentParser) (occurrences : list occurrence)
  : outcome Namespace :=
  match take_actions parser (initial_namespace parser) occurrences with
  | Ok (_, namespace) => Ok namespace
  | Raise exc => Raise exc
  end.

(** What argparse collects for an option declared without [type=]: a string
    ([nargs] absent, or ['?'] with an argument), [None] (['?'] without an
    argument), or a list of strings ([nargs] a number, ['*'] or ['+']). *)
Definition argparse_values (values : pyval) : bool :=
  match values with
  | PStr _ | PNone | PList _ => true
  | _ => false
  end.

(** The elements one occurrence adds to an accumulating destination: the
    string itself, the elements of a list, nothing for [None]. *)
Definition contribution (values : pyval) : list pyval :=
  match values with
  | PStr _ => [values]
  | PList l => l
  | _ => []
  end.

(** An occurrence that carries exactly one value: a string, or a list of one
    element (what [nargs=1] collects). *)
Definition single_value (values : pyval) : bool :=
  match values with
  | PStr _ | PList [_] => true
  | _ => false
  end.

(** The occurrence names a registered [Extender] action whose destination is
    [d]. *)
Definition extender_occurrence (parser : ArgumentParser) (d : string) (o : occurrence)
  : bool :=
  match _actions parser !! occ_action o with
  | Some a => match action a with
              | ExtenderAction => String.eqb (dest a) d
              | OnceArgumentAction => false
              end
  | None => false
  end.
(** ** difflib *)

Module difflib.

(** [_calculate_ratio(matches, length)]: [2.0 * matches / length], and [1.0]
    for two empty sequences.  The quotient is kept as a rational number;
    Python rounds it to a double, which leaves every comparison made below
    unchanged for strings shorter than 2^26 characters, since two distinct
    quotients with denominators below 2^27 are more than one rounding step
    apart and the cutoff 3/4 is a double. *)
Definition _calculate_ratio (matches length : nat) : Q :=
  if (length =? 0)%nat then 1%Q
  else (2 * Z.of_nat matches # Pos.of_nat length)%Q.

(** [b2j.get(elt, [])] after [__chain_b]: the positions of [elt] in [b], in
    increasing order; no element is junk ([isjunk] is [None]), and in a [b]
    of 200 characters or more an element that occurs more than
    [len(b) // 100 + 1] times is popular and has no entry. *)
Definition b2j_get (b : list ascii) (elt : ascii) : list nat :=
  let idxs := (fun p => p.1) <$> filter (fun p => p.2 = elt) (imap pair b) in
  let n := length b in
  if (200 <=? n)%nat && (n / 100 + 1 <? length idxs)%nat then [] else idxs.

(** A [Match(a, b, size)] triple. *)
Definition Match : Type := nat * nat * nat.

(** The inner [for j in b2j.get(a[i], nothing)] of [find_longest_match]. *)
Fixpoint longest_match_row (js : list nat) (i blo bhi : nat) (j2len newj2len : gmap nat nat)
    (best : Match) : gmap nat nat * Match :=
  match js with
  | [] => (newj2len, best)
  | j :: js' =>
      if (j <? blo)%nat then longest_match_row js' i blo bhi j2len newj2len best
      else if (bhi <=? j)%nat then (newj2len, best)
      else
        let k := (match j with
                  | O => 0
                  | S j' => from_option id 0 (j2len !! j')
                  end + 1)%nat in
        let newj2len := <[j := k]> newj2len in
        let best := if (best.2 <? k)%nat then (i + 1 - k, j + 1 - k, k)%nat else best in
        longest_match_row js' i blo bhi j2len newj2len best
  end.

(** The outer [for i in range(alo, ahi)]. *)
Fixpoint longest_match_rows (a b : list ascii) (is_ : list nat) (blo bhi : nat)
    (j2len : gmap nat nat) (best : Match) : Match :=
  match is_ with
  | [] => best
  | i :: is' =>
      let js := match a !! i with Some elt => b2j_get b elt | None => [] end in
      let '(newj2len, best) := longest_match_row js i blo bhi j2len ∅ best in
      longest_match_rows a b is' blo bhi newj2len best
  end.

(** [while besti > alo and bestj > blo and a[besti-1] == b[bestj-1]]: at most
    [n] rounds, and the loop is entered with [n = besti]. *)
Fixpoint extend_backwards (n : nat) (a b : list ascii) (alo blo : nat) (best : Match)
  : Match :=
  match n with
  | O => best
  | S n' =>
      let '(besti, bestj, bestsize) := best in
      if (alo <? besti)%nat && (blo <? bestj)%nat
         && bool_decide (is_Some (a !! (besti - 1)%nat)
                         ∧ a !! (besti - 1)%nat = b !! (bestj - 1)%nat)
      then extend_backwards n' a b alo blo (besti - 1, bestj - 1, bestsize + 1)%nat
      else best
  end.

(** [while besti+bestsize < ahi and bestj+bestsize < bhi and
    a[besti+bestsize] == b[bestj+bestsize]]: at most [n] rounds, and the loop
    is entered with [n = ahi]. *)
Fixpoint extend_forwards (n : nat) (a b : list ascii) (ahi bhi : nat) (best : Match)
  : Match :=
  match n with
  | O => best
  | S n' =>
      let '(besti, bestj, bestsize) := best in
      if (besti + bestsize <? ahi)%nat && (bestj + bestsize <? bhi)%nat
         && bool_decide (is_Some (a !! (besti + bestsize)%nat)
                         ∧ a !! (besti + bestsize)%nat = b !! (bestj + bestsize)%nat)
      then extend_forwards n' a b ahi bhi (besti, bestj, bestsize + 1)%nat
      else best
  end.

(** [SequenceMatcher.find_longest_match(alo, ahi, blo, bhi)] for the matcher
    [get_close_matches] builds ([isjunk=None], [autojunk=True]).  The two
    loops that extend a match over junk never run, since nothing is junk. *)
Definition find_longest_match (a b : list ascii) (alo ahi blo bhi : nat) : Match :=
  let best := longest_match_rows a b (seq alo (ahi - alo)) blo bhi ∅ (alo, blo, 0%nat) in
  let best := extend_backwards best.1.1 a b alo blo best in
  extend_forwards ahi a b ahi bhi best.

(** The [while queue] loop of [get_matching_blocks]; [queue.pop()] takes the
    entry pushed last.  [None] when [fuel] rounds were not enough. *)
Fixpoint matching_blocks_loop (fuel : nat) (a b : list ascii)
    (queue : list (nat * nat * nat * nat)) (matching_blocks : list Match)
  : option (list Match) :=
  match queue with
  | [] => Some matching_blocks
  | (alo, ahi, blo, bhi) :: queue =>
      match fuel with
      | O => None
      | S fuel' =>
          let x := find_longest_match a b alo ahi blo bhi in
          let '(i, j, k) := x in
          if (k =? 0)%nat then matching_blocks_loop fuel' a b queue matching_blocks
          else
            let queue := if (alo <? i)%nat && (blo <? j)%nat
                         then (alo, i, blo, j) :: queue else queue in
            let queue := if (i + k <? ahi)%nat && (j + k <? bhi)%nat
                         then ((i + k)%nat, ahi, (j + k)%nat, bhi) :: queue else queue in
            matching_blocks_loop fuel' a b queue (matching_blocks ++ [x])
      end
  end.

(** The blocks [get_matching_blocks] finds, before it sorts them and merges
    adjacent ones (neither changes the sum of their sizes).  Every round of
    the loop either drops a queue entry or replaces it by entries that cover
    fewer characters of [a], so [2 * len(a) + 1] rounds are enough. *)
Definition get_matching_blocks (a b : list ascii) : option (list Match) :=
  matching_blocks_loop (2 * length a + 1) a b [(0, length a, 0, length b)%nat] [].

(** [SequenceMatcher(None, a, b).ratio()]. *)
Definition ratio (a b : string) : Q :=
  let a := list_ascii_of_string a in
  let b := list_ascii_of_string b in
  let matches := match get_matching_blocks a b with
                 | Some blocks => sum_list_with (fun x : Match => x.2) blocks
                 | None => 0%nat
                 end in
  _calculate_ratio matches (length a + length b).

(** The [for elt in self.a] loop of [quick_ratio]: [avail] starts from the
    number of times each element occurs in [b]. *)
Fixpoint quick_ratio_loop (a : list ascii) (fullbcount : gmap ascii Z)
    (avail : gmap ascii Z) (matches : nat) : nat :=
  match a with
  | [] => matches
  | elt :: a' =>
      let numb := match avail !! elt with
                  | Some numb => numb
                  | None => from_option id 0 (fullbcount !! elt)
                  end in
      let avail := <[elt := numb - 1]> avail in
      quick_ratio_loop a' fullbcount avail (if 0 <? numb then (matches + 1)%nat else matches)
  end.

(** [SequenceMatcher(None, a, b).quick_ratio()]. *)
Definition quick_ratio (a b : string) : Q :=
  let a := list_ascii_of_string a in
  let b := list_ascii_of_string b in
  let fullbcount :=
    fold_left (fun (m : gmap ascii Z) elt => <[elt := from_option id 0 (m !! elt) + 1]> m)
              b ∅ in
  _calculate_ratio (quick_ratio_loop a fullbcount ∅ 0) (length a + length b).

(** [SequenceMatcher(None, a, b).real_quick_ratio()]. *)
Definition real_quick_ratio (a b : string) : Q :=
  let la := String.length a in
  let lb := String.length b in
  _calculate_ratio (la `min` lb) (la + lb).

(** The order of the [(score, x)] pairs [heapq.nlargest] ranks: by score,
    then by name. *)
Definition score_lt (p q : Q * string) : bool :=
  if Qeq_bool p.1 q.1 then String.ltb p.2 q.2
  else negb (Qle_bool q.1 p.1).

(** [heapq.nlargest(n, result)], which is documented to return
    [sorted(result, reverse=True)[:n]]. *)
Definition _nlargest (n : nat) (result : list (Q * string)) : list (Q * string) :=
  take n (sorted_reverse score_lt result).

(** [get_close_matches(word, possibilities, n, cutoff)]. *)
Definition get_close_matches (word : string) (possibilities : list string)
    (n : Z) (cutoff : Q) : outcome (list string) :=
  if negb (0 <? n) then raise ValueError "n must be > 0"
  else if negb (Qle_bool 0 cutoff && Qle_bool cutoff 1) then
    raise ValueError "cutoff must be in [0.0, 1.0]"
  else
    let result :=
      fold_left (fun result x =>
                   if Qle_bool cutoff (real_quick_ratio x word)
                      && Qle_bool cutoff (quick_ratio x word)
                      && Qle_bool cutoff (ratio x word)
                   then result ++ [(ratio x word, x)]
                   else result)
                possibilities [] in
    let result := _nlargest (Z.to_nat n) result in
    Ok ((fun p => p.2) <$> result).

End difflib.

(** The candidates [get_close_matches] collects: possibilities, paired with
    their ratio, all at or above the cutoff. *)
Definition close_candidate (word : string) (possibilities : list string) (cutoff : Q)
    (p : Q * string) : Prop :=
  p.2 ∈ possibilities ∧ p.1 = difflib.ratio p.2 word
  ∧ (cutoff <= difflib.ratio p.2 word)%Q.

(** A match lies inside the window of [a] it was looked for in. *)
Definition in_window (alo ahi : nat) (x : difflib.Match) : Prop :=
  (alo ≤ x.1.1 ∧ x.1.1 + x.2 ≤ ahi)%nat.

(** No run recorded in [j2len] is longer than [n]. *)
Definition runs_at_most (n : nat) (j2len : gmap nat nat) : Prop :=
  ∀ j k, j2len !! j = Some k → (k ≤ n)%nat.

(** The rounds the queue of [get_matching_blocks] can still cause: a window
    of [n] characters of [a] accounts for at most [2 * n + 1] of them. *)
Definition rounds (queue : list (nat * nat * nat * nat)) : nat :=
  sum_list_with (fun w : nat * nat * nat * nat => 2 * (w.1.1.2 - w.1.1.1) + 1)%nat queue.


(** The characters of a sequence, with their multiplicities. *)
Definition characters (l : list ascii) : gmultiset ascii := list_to_set_disj l.

(** The number of characters two sequences have in common, counted with
    multiplicity: what [quick_ratio] counts. *)
Definition common (xs ys : list ascii) : nat := size (characters xs ∩ characters ys).

(** [l[lo:hi]]. *)
Definition slice {A : Type} (lo hi : nat) (l : list A) : list A :=
  take (hi - lo) (drop lo l).

(** A match lies inside its window of [a] and of [b], and its characters in
    [a] are its characters in [b]. *)
Definition block_ok (a b : list ascii) (alo ahi blo bhi : nat) (x : difflib.Match)
  : Prop :=
  (alo ≤ x.1.1 ∧ x.1.1 + x.2 ≤ ahi ∧ blo ≤ x.1.2 ∧ x.1.2 + x.2 ≤ bhi)%nat
  ∧ ∀ t, (t < x.2)%nat →
         is_Some (a !! (x.1.1 + t)%nat) ∧ a !! (x.1.1 + t)%nat = b !! (x.1.2 + t)%nat.

(** The runs recorded in [j2len] when row [i] is about to be processed: a
    run of [k] characters that ends in row [i - 1] and column [j]. *)
Definition runs_ok (a b : list ascii) (alo blo : nat) (i : nat) (j2len : gmap nat nat)
  : Prop :=
  ∀ j k, j2len !! j = Some k →
         (k + alo ≤ i ∧ k + blo ≤ j + 1)%nat
         ∧ ∀ t, (t < k)%nat →
                is_Some (a !! (i - k + t)%nat)
                ∧ a !! (i - k + t)%nat = b !! (j + 1 - k + t)%nat.

(** What a window of the queue can still contribute. *)
Definition window_common (a b : list ascii) (w : nat * nat * nat * nat) : nat :=
  common (slice w.1.1.1 w.1.1.2 a) (slice w.1.2 w.2 b).
(** ** The world a command runs in *)

(** The text of a message, kept symbolic where Python renders an exception:
    [str(exc)], [exception_message_safe(exc)] and [traceback.format_exc()]. *)
Inductive message : Type :=
| Text (s : string)
| StrOf (exc : exn)
| SafeMessageOf (exc : exn)
| TracebackOf (exc : exn).

(** The levels of the output sink. *)
Inductive level : Type := LevelInfo | LevelWarning | LevelError | LevelSuccess.

(** Everything a command reads or changes outside its arguments: the lines
    sent to the output sink [self._out], the records passed to [logger], the
    lines printed to standard output, the files written, the current
    directory, the interpreter's recursion limit, and the number of objects
    created so far (the identity of the next one). *)
Record world : Type := mk_world {
  console : list (level * message);
  logged : list exn;
  printed : list message;
  files : gmap string string;
  cwd : string;
  recursion_limit : nat;
  allocated : nat
}.

Definition set_console (f : list (level * message) → list (level * message)) (w : world)
  : world :=
  mk_world (f (console w)) (logged w) (printed w) (files w) (cwd w) (recursion_limit w)
           (allocated w).

Definition set_logged (f : list exn → list exn) (w : world) : world :=
  mk_world (console w) (f (logged w)) (printed w) (files w) (cwd w) (recursion_limit w)
           (allocated w).

Definition set_printed (f : list message → list message) (w : world) : world :=
  mk_world (console w) (logged w) (f (printed w)) (files w) (cwd w) (recursion_limit w)
           (allocated w).

Definition set_files (f : gmap string string → gmap string string) (w : world) : world :=
  mk_world (console w) (logged w) (printed w) (f (files w)) (cwd w) (recursion_limit w)
           (allocated w).

Definition set_allocated (f : nat → nat) (w : world) : world :=
  mk_world (console w) (logged w) (printed w) (files w) (cwd w) (recursion_limit w)
           (f (allocated w)).

(** Modelled from the spec: [conans/cli/output.py] is not among the sources.
    The spec describes a single output sink with leveled messages (info,
    warning, error, success); a call appends one message at its level. *)
Module ConanOutput.

Definition write (l : level) (msg : message) (w : world) : world :=
  set_console (fun lines => lines ++ [(l, msg)]) w.

Definition info : message → world → world := write LevelInfo.
Definition error : message → world → world := write LevelError.

End ConanOutput.

(** [logger.error(exc)]: the record goes to the diagnostic log. *)
Definition logger_error (exc : exn) (w : world) : world :=
  set_logged (fun records => records ++ [exc]) w.

(** [print(text)]. *)
Definition print (text : message) (w : world) : world :=
  set_printed (fun lines => lines ++ [text]) w.

(** Modelled from the spec: [conans/util/files.py] is not among the sources.
    [save(path, content)] stores the serialised result under the path. *)
Definition save (path content : string) (w : world) : world :=
  set_files (fun fs => <[path := content]> fs) w.

(** Modelled from the spec: [conans/cli/exit_codes.py] is not among the
    sources.  The spec binds Success to 0 and GeneralError,
    InvalidConfiguration and InvalidSystemRequirements to distinct integers
    other than 0, whose values it leaves to the implementation. *)
Definition SUCCESS : Z := 0.

(** The three failure codes, a parameter of the dispatcher. *)
Class exit_codes : Type := {
  ERROR_GENERAL : Z;
  ERROR_INVALID_CONFIGURATION : Z;
  ERROR_INVALID_SYSTEM_REQUIREMENTS : Z;
  exit_codes_distinct :
    NoDup [SUCCESS; ERROR_GENERAL; ERROR_INVALID_CONFIGURATION;
           ERROR_INVALID_SYSTEM_REQUIREMENTS]
}.

(** ** Functions, bound methods and the [Command] object *)

(** A function of the class body: its docstring ([None] when it has none) and
    what calling it with [self] and the argument list does. *)
Record function : Type := mk_function {
  __doc__ : option string;
  __code__ : list string → world → outcome pyval * world
}.

(** A bound method, the object [getattr(self, name)] creates each time it is
    evaluated: the instance, the function, and the identity of the method
    object itself.  Python's [==] on bound methods compares [__self__] and
    [__func__] only. *)
Record method : Type := mk_method {
  __self__ : nat;
  __func__ : function;
  method_id : nat
}.

(** A [Command] instance: its identity and the functions its class defines,
    by attribute name. *)
Record Command : Type := mk_Command {
  command_id : nat;
  methods : list (string * function)
}.

(** [method(args)]. *)
Definition call (m : method) (args : list string) (w : world) : outcome pyval * world :=
  __code__ (__func__ m) args w.

(** [inspect.getmembers(self, predicate=inspect.ismethod)]: the pairs of
    attribute name and bound method, sorted by name; every bound method is a
    new object. *)
Definition getmembers (self : Command) (w : world) : list (string * method) * world :=
  let members := isort (fun p q : string * function => String.ltb p.1 q.1) (methods self) in
  (imap (fun i p => (p.1, mk_method (command_id self) p.2 (allocated w + i)%nat)) members,
   set_allocated (fun n => n + length members)%nat w).

(** [str.startswith]. *)
Definition startswith (s prefix : string) : bool := String.prefix prefix s.

(** ** [Command._commands] *)

(** The body of the [for m in inspect.getmembers(...)] loop. *)
Definition _commands_step (result : gmap string method) (m : string * method)
  : gmap string method :=
  let method_name := m.1 in
  if negb (startswith method_name "_") then
    let method_name :=
      if String.eqb "export_pkg" method_name then "export-pkg" else method_name in
    let method := m.2 in
    match __doc__ (__func__ method) with
    | Some doc =>
        if negb (String.eqb doc "") && negb (startswith doc "HIDDEN")
        then <[method_name := method]> result
        else result
    | None => result
    end
  else result.

Definition _commands (self : Command) (w : world) : gmap string method * world :=
  let '(members, w) := getmembers self w in
  (fold_left _commands_step members ∅, w).

(** The name under which [_commands] files an attribute. *)
Definition public_name (name : string) : string :=
  if String.eqb "export_pkg" name then "export-pkg" else name.

(** The registry's inclusion rule in the spec's words: the name does not
    begin with the internal marker ['_'], and the description is present,
    not empty and does not begin with the marker [HIDDEN]. *)
Definition eligible (name : string) (f : function) : bool :=
  negb (startswith name "_")
  && match __doc__ f with
     | Some doc => negb (String.eqb doc "") && negb (startswith doc "HIDDEN")
     | None => false
     end.

(** Python's [==] on two bound methods. *)
Definition method_eq (m1 m2 : method) : Prop :=
  __self__ m1 = __self__ m2 ∧ __func__ m1 = __func__ m2.

(** ** [Command._print_similar] *)

(** [commands.keys()], in the order of the finite map (Python lists the keys
    in insertion order; [get_close_matches] answers the same for both). *)
Definition keys {V : Type} (d : gmap string V) : list string := (map_to_list d).*1.

Definition _print_similar (self : Command) (command : string) (w : world)
  : outcome pyval * world :=
  let '(commands, w) := _commands self w in
  match difflib.get_close_matches command (keys commands) 5 (3 # 4) with
  | Raise exc => (Raise exc, w)
  | Ok matches =>
      if (length matches =? 0)%nat then (Ok PNone, w)
      else
        let w := if (1 <? length matches)%nat
                 then ConanOutput.info (Text "The most similar commands are") w
                 else ConanOutput.info (Text "The most similar command is") w in
        let w := fold_left (fun w match_ => ConanOutput.info (Text ("    " +:+ match_)) w)
                           matches w in
        let w := ConanOutput.info (Text "") w in
        (Ok PNone, w)
  end.

(** The lines [_print_similar] writes for a list of matches. *)
Definition similar_lines (matches : list string) : list (level * message) :=
  match matches with
  | [] => []
  | [_] => [(LevelInfo, Text "The most similar command is")]
  | _ => [(LevelInfo, Text "The most similar commands are")]
  end
  ++ ((fun match_ => (LevelInfo, Text ("    " +:+ match_))) <$> matches)
  ++ match matches with
     | [] => []
     | _ => [(LevelInfo, Text "")]
     end.

(** ** [Command.run] *)

(** ["%d" % v].  A tuple on the right of [%] is the list of arguments, so a
    tuple of one number is formatted as that number; any other value is the
    one argument.  Integers and booleans are formatted in decimal, anything
    else is a [TypeError]. *)
Definition percent_d (v : pyval) : outcome string :=
  let number (x : pyval) (rest : list pyval) : outcome string :=
    match as_int x with
    | Some z =>
        match rest with
        | [] => Ok (NilZero.string_of_int (Z.to_int z))
        | _ => raise TypeError "not all arguments converted during string formatting"
        end
    | None =>
        raise TypeError ("%d format: a real number is required, not " +:+ type_name x)
    end in
  match v with
  | PTuple [] => raise TypeError "not enough arguments for format string"
  | PTuple (x :: rest) => number x rest
  | _ => number v []
  end.

(** The number ["%d" % v] formats, if there is one. *)
Definition percent_d_number (v : pyval) : option Z :=
  match v with
  | PTuple [x] => as_int x
  | PTuple _ => None
  | _ => as_int v
  end.

Section dispatcher.
Context `{codes : exit_codes}.

(** The body of the [try] block. *)
Definition run_try (self : Command) (args : list (list string)) (w : world)
  : outcome pyval * world :=
  match args !! 0%nat with
  | None => (raise IndexError "tuple index out of range", w)
  | Some argv =>
      match argv !! 0%nat with
      | None => (raise IndexError "list index out of range", w)
      | Some command =>
          let '(commands, w) := _commands self w in
          match commands !! command with
          | None => (Raise (mk_exn KeyError (PStr command)), w)
          | Some method => call method (drop 1 argv) w
          end
      end
  end.

(** [Command.run(self, *args)]: the [try] block, then the first [except]
    clause whose class the exception is an instance of. *)
Definition run (self : Command) (args : list (list string)) (w : world)
  : outcome pyval * world :=
  let ret_code := PInt SUCCESS in
  let '(tried, w) := run_try self args w in
  match tried with
  | Ok _ => (Ok ret_code, w)
  | Raise exc =>
      if isinstance exc KeyboardInterrupt then
        let w := logger_error exc w in
        (Ok (PInt SUCCESS), w)
      else if isinstance exc SystemExit then
        if negb (py_eq (code exc) (PInt 0)) then
          let w := logger_error exc w in
          match percent_d (code exc) with
          | Ok digits =>
              let w := ConanOutput.error (Text ("Exiting with code: " +:+ digits)) w in
              (Ok (code exc), w)
          | Raise exc' => (Raise exc', w)
          end
        else (Ok (code exc), w)
      else if isinstance exc ConanInvalidConfiguration then
        (Ok (PInt ERROR_INVALID_CONFIGURATION), ConanOutput.error (StrOf exc) w)
      else if isinstance exc ConanInvalidSystemRequirements then
        (Ok (PInt ERROR_INVALID_SYSTEM_REQUIREMENTS), ConanOutput.error (StrOf exc) w)
      else if isinstance exc ConanException then
        (Ok (PInt ERROR_GENERAL), ConanOutput.error (StrOf exc) w)
      else if isinstance exc Exception then
        let w := print (TracebackOf exc) w in
        let msg := SafeMessageOf exc in
        (Ok (PInt ERROR_GENERAL), ConanOutput.error msg w)
      else (Raise exc, w)
  end.
End dispatcher.

(** The handler registered for the command token of [args] is called and
    raises [exc], leaving the world [w']. *)
Definition resolved_handler_raises (self : Command) (args : list (list string))
    (w : world) (exc : exn) (w' : world) : Prop :=
  ∃ argv command m,
    args !! 0%nat = Some argv
    ∧ argv !! 0%nat = Some command
    ∧ (_commands self w).1 !! command = Some m
    ∧ call m (drop 1 argv) (_commands self w).2 = (Raise exc, w').
(** ** json *)

Module json.

(** One character of [py_encode_basestring_ascii]: the quote, the backslash
    and the usual control characters have short escapes, the other
    characters outside the range from space to tilde are written as
    [\u00XX]. *)
Definition hex_digit (n : nat) : ascii :=
  nth n (list_ascii_of_string "0123456789abcdef") "0"%char.

Definition escape (c : ascii) : string :=
  let n := nat_of_ascii c in
  if (n =? 34)%nat then String "\"%char (String c "")
  else if (n =? 92)%nat then "\\"
  else if (n =? 10)%nat then "\n"
  else if (n =? 13)%nat then "\r"
  else if (n =? 9)%nat then "\t"
  else if (n =? 8)%nat then "\b"
  else if (n =? 12)%nat then "\f"
  else if (32 <=? n)%nat && (n <=? 126)%nat then String c ""
  else "\u00" +:+ String (hex_digit (n / 16)) (String (hex_digit (n mod 16)) "").

Definition quote : string := String "034"%char "".

(** [encode_basestring_ascii(s)]. *)
Definition encode_basestring_ascii (s : string) : string :=
  quote +:+ String.concat "" (escape <$> list_ascii_of_string s) +:+ quote.

(** The hook [json] falls back on when no [default=] is given. *)
Definition no_default (o : pyval) : outcome pyval :=
  raise TypeError "Object is not JSON serializable".

(** The encoder's recursion over the value.  A list or tuple becomes an
    array, a dictionary an object, and a value of any other container type
    is handed to [default], whose answer is encoded in its place.  [depth]
    is the recursion depth the interpreter still allows. *)
Fixpoint iterencode (depth : nat) (default : pyval → outcome pyval) (o : pyval)
  : outcome string :=
  match depth with
  | O => raise RecursionError "maximum recursion depth exceeded"
  | S depth' =>
      match o with
      | PStr s => Ok (encode_basestring_ascii s)
      | PNone => Ok "null"
      | PBool true => Ok "true"
      | PBool false => Ok "false"
      | PInt z => Ok (NilZero.string_of_int (Z.to_int z))
      | PList l | PTuple l =>
          items ← mapM (iterencode depth' default) l;
          Ok ("[" +:+ String.concat ", " items +:+ "]")
      | PDict kvs =>
          items ← mapM (fun kv : string * pyval =>
                          v ← iterencode depth' default kv.2;
                          Ok (encode_basestring_ascii kv.1 +:+ ": " +:+ v)) kvs;
          Ok ("{" +:+ String.concat ", " items +:+ "}")
      | PSet _ =>
          o' ← default o;
          iterencode depth' default o'
      end
  end.

(** [json.dumps(obj, default=default)]. *)
Definition dumps (depth : nat) (obj : pyval) (default : pyval → outcome pyval)
  : outcome string :=
  iterencode depth default obj.

End json.

(** ** posixpath *)

Module posixpath.

(** [os.path.isabs(s)]. *)
Definition isabs (s : string) : bool := startswith s "/".

(** [s.endswith(suffix)]. *)
Definition endswith (s suffix : string) : bool :=
  String.prefix (String.rev suffix) (String.rev s).

(** [os.path.join(a, b)]. *)
Definition join (a b : string) : string :=
  if startswith b "/" then b
  else if String.eqb a "" || endswith a "/" then a +:+ b
  else a +:+ "/" +:+ b.

End posixpath.

(** ** The JSON step of [Command.inspect] *)

(** The nested function [dump_custom_types(obj)]. *)
Definition dump_custom_types (obj : pyval) : outcome pyval :=
  match obj with
  | PSet elements => items ← sorted elements; Ok (PList items)
  | _ => raise TypeError ""
  end.

(** The [if args.json:] block that ends [Command.inspect]: [args_json] is
    the parsed [--json] option and [result] what the API's [inspect]
    returned.  [os.getcwd()] is the world's current directory. *)
Definition inspect_json (args_json result : pyval) (w : world) : outcome pyval * world :=
  if py_bool args_json then
    match json.dumps (recursion_limit w) result dump_custom_types with
    | Raise exc => (Raise exc, w)
    | Ok json_output =>
        match args_json with
        | PStr path =>
            let json_output_file :=
              if negb (posixpath.isabs path) then posixpath.join (cwd w) path
              else path in
            (Ok PNone, save json_output_file json_output w)
        | _ => (raise TypeError "expected str, bytes or os.PathLike object", w)
        end
    end
  else (Ok PNone, w).


(** The spec's reading of the custom rule: the value in which every set is
    replaced by the sorted list of its elements.  The elements of a set are
    hashable and hold no further set, so they stay as they are. *)
Fixpoint sets_as_sorted_lists (o : pyval) : outcome pyval :=
  match o with
  | PSet elements => items ← sorted elements; Ok (PList items)
  | PList l => l' ← mapM sets_as_sorted_lists l; Ok (PList l')
  | PTuple l => l' ← mapM sets_as_sorted_lists l; Ok (PTuple l')
  | PDict kvs =>
      kvs' ← mapM (fun kv : string * pyval =>
                     v ← sets_as_sorted_lists kv.2; Ok (kv.1, v)) kvs;
      Ok (PDict kvs')
  | _ => Ok o
  end.

(** Hashable values: the scalars, and tuples of hashable values. *)
Fixpoint hashable (o : pyval) : bool :=
  match o with
  | PNone | PBool _ | PInt _ | PStr _ => true
  | PTuple l => forallb hashable l
  | PList _ | PSet _ | PDict _ => false
  end.

(** Values Python can build: the elements of every set are hashable. *)
Fixpoint well_formed (o : pyval) : bool :=
  match o with
  | PSet l => forallb hashable l
  | PList l | PTuple l => forallb well_formed l
  | PDict kvs => forallb (fun kv : string * pyval => well_formed kv.2) kvs
  | _ => true
  end.

(** The recursion depth the encoder needs for a value: one level per
    container, and one more for a set, which is encoded through the hook. *)
Fixpoint nesting (o : pyval) : nat :=
  match o with
  | PList l | PTuple l => S (foldr (fun x n => nesting x `max` n) 0 l)%nat
  | PSet l => S (S (foldr (fun x n => nesting x `max` n) 0 l))%nat
  | PDict kvs => S (foldr (fun (kv : string * pyval) n => nesting kv.2 `max` n) 0 kvs)%nat
  | _ => 1%nat
  end.
(** ** The [Command] class of the source *)

Definition newline : string := String "010"%char "".

(** The functions the class body defines, in source order, each docstring cut
    after its first line.  What the public commands do depends on the API
    object they delegate to, so their behaviour is the parameter [body]. *)
Definition Command_functions
    (body : string → list string → world → outcome pyval * world)
  : list (string * function) :=
  let documented name doc := (name, mk_function (Some doc) (body name)) in
  let undocumented name := (name, mk_function None (body name)) in
  [ undocumented "__init__";
    documented "inspect"
      (newline +:+ "        Displays conanfile attributes, like name, version, and options.");
    documented "test"
      (newline +:+ "        Tests a package consuming it from a conanfile.py with a test() method.");
    documented "create"
      (newline +:+ "        Builds a binary package for a recipe (conanfile.py).");
    documented "download"
      (newline +:+ "        Downloads recipe and binaries to the local cache, without using settings.");
    documented "source"
      (newline +:+ "        Calls your local conanfile.py 'source()' method.");
    documented "build"
      (newline +:+ "        Calls your local conanfile.py 'build()' method.");
    documented "imports"
      (newline +:+ "        Calls your local conanfile.py or conanfile.txt 'imports' method.");
    documented "remove"
      (newline +:+ "        Removes packages or binaries matching pattern from local cache or remote.");
    documented "upload"
      (newline +:+ "        Uploads a recipe and binary packages to a remote.");
    documented "get"
      (newline +:+ "        Gets a file or list a directory of a given reference or package.");
    documented "editable"
      (newline +:+ "        Manages editable packages (packages that reside in the user workspace, but");
    documented "_commands" " Returns a list of available commands.";
    documented "_print_similar" " Looks for similar commands and prints them if found.";
    undocumented "_warn_python_version";
    documented "run" "HIDDEN: entry point for executing commands, dispatcher to class" ].

Definition conan_command
    (body : string → list string → world → outcome pyval * world) : Command :=
  mk_Command 0 (Command_functions body).

(** A world in which nothing has happened yet. *)
Definition empty_world : world := mk_world [] [] [] ∅ "/home/user" 1000 1.


(** One admissible assignment of the failure codes, for evaluating the
    dispatcher on examples. *)
Definition example_exit_codes : exit_codes.
Proof.
  refine (Build_exit_codes 1 6 7 _).
  repeat (constructor; [rewrite ?elem_of_cons, elem_of_nil; unfold SUCCESS; lia|]).
  constructor.
Defined.

(** A [Command] whose every handler raises [exc] as soon as it is called. *)
Definition raising_command (exc : exn) : Command :=
  conan_command (fun _ _ w => (Raise exc, w)).

(** A [Command] whose handlers return without doing anything. *)
Definition idle_command : Command :=
  conan_command (fun _ _ w => (Ok PNone, w)).

(** ** Parsers of the source, reduced to the options used in the examples *)

(** Four of the options [_add_common_install_arguments] declares:
    [-b/--build] ([Extender], [nargs='?']), [-r/--remote] ([OnceArgument]),
    and [-o/--options] with its [:h] variant ([Extender], [nargs=1], one
    destination for both). *)
Definition install_parser : ArgumentParser :=
  mk_ArgumentParser ∅
    [ mk_Action ExtenderAction ["-b"; "--build"] "build" PNone;
      mk_Action OnceArgumentAction ["-r"; "--remote"] "remote" PNone;
      mk_Action ExtenderAction ["-o"; "--options"] "options_host" PNone;
      mk_Action ExtenderAction ["-o:h"; "--options:host"] "options_host" PNone ].

(** The [-p/--packages] option of [conan remove] ([Extender], [nargs='*']). *)
Definition remove_parser : ArgumentParser :=
  mk_ArgumentParser ∅ [ mk_Action ExtenderAction ["-p"; "--packages"] "packages" PNone ].

(** A once-policy option declared with a default other than [None]; the
    source declares none, the class allows it. *)
Definition mode_action : Action :=
  mk_Action OnceArgumentAction ["--mode"] "mode" (PStr "auto").

Definition mode_parser : ArgumentParser := mk_ArgumentParser ∅ [mode_action].

(** The candidates of the spec's registry example: [a] and [c] documented,
    [b] marked hidden. *)
Definition abc_command : Command :=
  mk_Command 0
    [ ("a", mk_function (Some "docs") (fun _ w => (Ok PNone, w)));
      ("b", mk_function (Some "HIDDEN: docs") (fun _ w => (Ok PNone, w)));
      ("c", mk_function (Some "more docs") (fun _ w => (Ok PNone, w))) ].

(** What the API's [inspect] may return for a recipe: a name and a set of
    settings. *)
Definition zlib_attributes : pyval :=
  PDict [ ("name", PStr "zlib");
          ("settings", PSet [PStr "os"; PStr "arch"; PStr "compiler"]) ].

(** ** Further notions for the dispatcher *)

(** The handler registered for the command token of [args] is called and
    returns [v], leaving the world [w']. *)
Definition resolved_handler_returns (self : Command) (args : list (list string))
    (w : world) (v : pyval) (w' : world) : Prop :=
  ∃ argv command m,
    args !! 0%nat = Some argv
    ∧ argv !! 0%nat = Some command
    ∧ (_commands self w).1 !! command = Some m
    ∧ call m (drop 1 argv) (_commands self w).2 = (Ok v, w').

(** ** Further notions for the argparse actions *)

(** The list an accumulating destination holds; anything that is no list is
    replaced by a new list at the first occurrence. *)
Definition held (namespace : Namespace) (d : string) : list pyval :=
  match namespace !! d with
  | Some (PList l) => l
  | _ => []
  end.

(** The occurrence names a registered [Extender] action. *)
Definition extender_of (parser : ArgumentParser) (o : occurrence) : bool :=
  match _actions parser !! occ_action o with
  | Some a => match action a with
              | ExtenderAction => true
              | OnceArgumentAction => false
              end
  | None => false
  end.

(** The [Extender] actions of the parser are declared with the default
    [None], as all of the source's are. *)
Definition extenders_default_None (parser : ArgumentParser) : Prop :=
  ∀ a, a ∈ _actions parser → action a = ExtenderAction → default a = PNone.

(** ** [parser.add_argument] and [_add_profile_arguments] *)

(** The keys of [parser._option_string_actions]: the option strings of the
    registered actions. *)
Definition _option_string_actions (parser : ArgumentParser) : list string :=
  flat_map option_strings (_actions parser).

(** [parser.add_argument] called with the flags as positional arguments and
    the keywords [action=cls] and [dest=d], and with [default=v] when
    [default_kw] is [Some v], on a parser with the default conflict handler,
    for flags that begin with ['-'] (every call below builds them so).  An
    omitted default is taken from the parser-level defaults.  A flag already
    registered is a conflict, reported as [ArgumentError]; otherwise the
    action is appended.  The parser object is mutated in place, so its state
    is returned also when the call raises. *)
Definition add_argument (flags : list string) (cls : action_class) (d : string)
    (default_kw : option pyval) (parser : ArgumentParser)
  : outcome unit * ArgumentParser :=
  let value :=
    match default_kw with
    | Some v => v
    | None => match _defaults parser !! d with
              | Some v => v
              | None => PNone
              end
    end in
  let conflicting := filter (fun s => s ∈ _option_string_actions parser) flags in
  match conflicting with
  | [] =>
      (Ok (), mk_ArgumentParser (_defaults parser)
                (_actions parser ++ [mk_Action cls flags d value]))
  | [_] =>
      (raise ArgumentError
         ("conflicting option string: " +:+ String.concat ", " conflicting), parser)
  | _ =>
      (raise ArgumentError
         ("conflicting option strings: " +:+ String.concat ", " conflicting), parser)
  end.

(** Two statements in sequence: the second runs if the first returns. *)
Definition and_then (first second : ArgumentParser → outcome unit * ArgumentParser)
  : ArgumentParser → outcome unit * ArgumentParser :=
  fun parser =>
    match first parser with
    | (Ok _, parser') => second parser'
    | (Raise exc, parser') => (Raise exc, parser')
    end.

(** The five nested functions of [_add_profile_arguments]. *)
Definition environment_args (machine short_suffix long_suffix : string)
  : ArgumentParser → outcome unit * ArgumentParser :=
  add_argument ["-e" +:+ short_suffix; "--env" +:+ long_suffix] ExtenderAction
    ("env_" +:+ machine) None.

Definition options_args (machine short_suffix long_suffix : string)
  : ArgumentParser → outcome unit * ArgumentParser :=
  add_argument ["-o" +:+ short_suffix; "--options" +:+ long_suffix] ExtenderAction
    ("options_" +:+ machine) None.

Definition profile_args (machine short_suffix long_suffix : string)
  : ArgumentParser → outcome unit * ArgumentParser :=
  add_argument ["-pr" +:+ short_suffix; "--profile" +:+ long_suffix] ExtenderAction
    ("profile_" +:+ machine) (Some PNone).

Definition settings_args (machine short_suffix long_suffix : string)
  : ArgumentParser → outcome unit * ArgumentParser :=
  add_argument ["-s" +:+ short_suffix; "--settings" +:+ long_suffix] ExtenderAction
    ("settings_" +:+ machine) None.

Definition conf_args (machine short_suffix long_suffix : string)
  : ArgumentParser → outcome unit * ArgumentParser :=
  add_argument ["-c" +:+ short_suffix; "--conf" +:+ long_suffix] ExtenderAction
    ("conf_" +:+ machine) None.

(** [_add_profile_arguments(parser)]: each family is declared for the host
    machine without suffix, for the build machine, and for the host machine
    with its own suffix. *)
Definition _add_profile_arguments : ArgumentParser → outcome unit * ArgumentParser :=
  fold_right
    (fun item_fn rest =>
       and_then (item_fn "host" "" "")
         (and_then (item_fn "build" ":b" ":build")
            (and_then (item_fn "host" ":h" ":host") rest)))
    (fun parser => (Ok (), parser))
    [environment_args; options_args; profile_args; settings_args; conf_args].

(** One [add_argument] call of the function: flags, destination, and the
    [default=] keyword if given. *)
Record declaration : Type := mk_declaration {
  decl_flags : list string;
  decl_dest : string;
  decl_default : option pyval
}.

(** The five families of [_add_profile_arguments]: short flag, long flag,
    prefix of the destination, and the [default=] keyword if given. *)
Definition profile_families : list (string * string * string * option pyval) :=
  [ ("-e", "--env", "env_", None);
    ("-o", "--options", "options_", None);
    ("-pr", "--profile", "profile_", Some PNone);
    ("-s", "--settings", "settings_", None);
    ("-c", "--conf", "conf_", None) ].

(** The fifteen declarations of [_add_profile_arguments], in call order. *)
Definition profile_declarations : list declaration :=
  flat_map
    (fun family : string * string * string * option pyval =>
       let '(short, long, prefix, default_kw) := family in
       map (fun m : string * string * string =>
              let '(machine, short_suffix, long_suffix) := m in
              mk_declaration [short +:+ short_suffix; long +:+ long_suffix]
                (prefix +:+ machine) default_kw)
           [("host", "", ""); ("build", ":b", ":build"); ("host", ":h", ":host")])
    profile_families.

(** A list of declarations made one after the other. *)
Definition add_arguments (declarations : list declaration)
  : ArgumentParser → outcome unit * ArgumentParser :=
  fold_right
    (fun decl rest =>
       and_then (add_argument (decl_flags decl) ExtenderAction (decl_dest decl)
                   (decl_default decl)) rest)
    (fun parser => (Ok (), parser))
    declarations.

(** The action a declaration registers on a parser with the given
    parser-level defaults. *)
Definition declared (defaults : gmap string pyval) (decl : declaration) : Action :=
  mk_Action ExtenderAction (decl_flags decl) (decl_dest decl)
    match decl_default decl with
    | Some v => v
    | None => match defaults !! decl_dest decl with
              | Some v => v
              | None => PNone
              end
    end.

(** The first declaration one of whose flags is among [strings]. *)
Fixpoint first_conflict (strings : list string) (declarations : list declaration)
  : option nat :=
  match declarations with
  | [] => None
  | decl :: rest =>
      if existsb (fun s => bool_decide (s ∈ strings)) (decl_flags decl) then Some 0%nat
      else S <$> first_conflict strings rest
  end.

(** The parser the function builds from an empty one. *)
Definition profile_parser : ArgumentParser :=
  (_add_profile_arguments (mk_ArgumentParser ∅ [])).2.

(** What an accumulating destination of [profile_parser] holds after the
    parse, given the occurrences that name it. *)
Definition collected (mine : list occurrence) : option pyval :=
  match mine with
  | [] => Some PNone
  | _ => Some (PList (concat (map (fun o => contribution (occ_values o)) mine)))
  end.

(** * conan/tools/meson/meson.py *)

Module Meson.

(** The values the helper formats into a command line: [None], booleans,
    integers and strings. *)
Inductive scalar : Type :=
| SNone
| SBool (b : bool)
| SInt (z : Z)
| SStr (s : string).

(** ["{}".format(v)]. *)
Definition str_format (v : scalar) : string :=
  match v with
  | SNone => "None"
  | SBool true => "True"
  | SBool false => "False"
  | SInt z => NilZero.string_of_int (Z.to_int z)
  | SStr s => s
  end.

(** The truth value of [v]. *)
Definition truthy (v : scalar) : bool :=
  match v with
  | SNone => false
  | SBool b => b
  | SInt z => negb (z =? 0)
  | SStr s => negb (String.eqb s "")
  end.

(** ['"{}"'.format(s)]. *)
Definition quoted (s : string) : string := json.quote +:+ s +:+ json.quote.

(** The recipe object the helper wraps: its folders, and its [run] method,
    which executes a command, may change which paths exist, and returns or
    raises. *)
Record ConanFile : Type := mk_ConanFile {
  build_folder : string;
  source_folder : string;
  generators_folder : string;
  package_folder : scalar;
  conanfile_run : string → (string → bool) → outcome scalar * (string → bool)
}.

(** What the helper acts on: the lines written with
    [conanfile.output.info], the commands passed to [conanfile.run], the
    paths that exist, and the list objects that hold options, by
    identity. *)
Record state : Type := mk_state {
  info : list string;
  executed : list string;
  path_exists : string → bool;
  lists : gmap nat (list (string * scalar));
  next_id : nat
}.

(** [conanfile.output.info(line)]. *)
Definition output_info (line : string) (st : state) : state :=
  mk_state (info st ++ [line]) (executed st) (path_exists st) (lists st) (next_id st).

(** [conanfile.run(cmd)]. *)
Definition ConanFile_run (conanfile : ConanFile) (cmd : string) (st : state)
  : outcome scalar * state :=
  let '(r, exists') := conanfile_run conanfile cmd (path_exists st) in
  (r, mk_state (info st) (executed st ++ [cmd]) exists' (lists st) (next_id st)).

(** The content of a list object. *)
Definition get_list (ref : nat) (st : state) : list (string * scalar) :=
  match lists st !! ref with
  | Some l => l
  | None => []
  end.

Definition set_list (ref : nat) (l : list (string * scalar)) (st : state) : state :=
  mk_state (info st) (executed st) (path_exists st) (<[ref := l]> (lists st)) (next_id st).

(** [options = []]: a new list object. *)
Definition new_list (st : state) : nat * state :=
  (next_id st,
   mk_state (info st) (executed st) (path_exists st) (<[next_id st := []]> (lists st))
     (S (next_id st))).

(** [Meson.run] with the command [cmd], the further positional arguments
    [args] and the keywords [options] and [cmd_info_name]; [options] is
    [None] or a reference to the caller's list. *)
Definition run (conanfile : ConanFile) (cmd : scalar) (args : list scalar)
    (options : option nat) (cmd_info_name : scalar) (st : state)
  : outcome scalar * state :=
  let options :=
    match options with
    | None => []
    | Some ref => get_list ref st
    end in
  let cmd :=
    "meson" +:+ match cmd with
                | SNone => ""
                | _ => " " +:+ str_format cmd
                end in
  let cmd :=
    fold_left (fun cmd (kv : string * scalar) =>
                 let '(k, v) := kv in
                 match v with
                 | SBool true => cmd +:+ " " +:+ k
                 | SBool false => cmd
                 | _ => cmd +:+ " " +:+ k +:+ " " +:+ str_format v
                 end)
              options cmd in
  let cmd := fold_left (fun cmd arg => cmd +:+ " " +:+ str_format arg) args cmd in
  let st :=
    match cmd_info_name with
    | SBool false => st
    | _ =>
        let cmd_info_name :=
          match cmd_info_name with
          | SNone => ""
          | _ => " " +:+ str_format cmd_info_name
          end in
        output_info ("Meson" +:+ cmd_info_name +:+ " cmd: " +:+ cmd) st
    end in
  ConanFile_run conanfile cmd st.

(** [Meson.run_setup] with its positional arguments [args] and the
    keywords [options], [cmd_info_name] and [reconfigure]. *)
Definition run_setup (conanfile : ConanFile) (args : list scalar) (options : option nat)
    (cmd_info_name reconfigure : scalar) (st : state) : outcome scalar * state :=
  let '(options, st) :=
    match options with
    | None => new_list st
    | Some ref => (ref, st)
    end in
  let cmd_info_name :=
    match cmd_info_name with
    | SNone => SStr "setup"
    | _ => cmd_info_name
    end in
  let reconfigure :=
    match reconfigure with
    | SNone => SBool true
    | _ => reconfigure
    end in
  let st :=
    if truthy reconfigure
       && path_exists st (posixpath.join (build_folder conanfile) "meson-private")
    then set_list options (("--reconfigure", SBool true) :: get_list options st) st
    else st in
  run conanfile (SStr "setup")
    (SStr (quoted (build_folder conanfile)) :: SStr (quoted (source_folder conanfile))
     :: args)
    (Some options) cmd_info_name st.

Section toolchain.

(** [MesonToolchain.cross_filename] and [MesonToolchain.native_filename],
    constants of a class that is not among the sources. *)
Variables cross_filename native_filename : string.

(** [Meson.configure(options=options, cmd_info_name=cmd_info_name)], with
    the keyword [reconfigure] that the call hands on to [run_setup]. *)
Definition configure (conanfile : ConanFile) (options : option nat)
    (cmd_info_name reconfigure : scalar) (st : state) : outcome scalar * state :=
  let '(options, st) :=
    match options with
    | None => new_list st
    | Some ref => (ref, st)
    end in
  let cmd_info_name :=
    match cmd_info_name with
    | SNone => SStr "configure"
    | _ => cmd_info_name
    end in
  let cross := posixpath.join (generators_folder conanfile) cross_filename in
  let native := posixpath.join (generators_folder conanfile) native_filename in
  let st :=
    if path_exists st cross
    then set_list options (get_list options st ++ [("--cross-file", SStr (quoted cross))]) st
    else set_list options (get_list options st ++ [("--native-file", SStr (quoted native))])
           st in
  let st :=
    if truthy (package_folder conanfile)
    then set_list options
           (get_list options st
            ++ [("-D", SStr ("prefix=" +:+ quoted (str_format (package_folder conanfile))))])
           st
    else st in
  match run_setup conanfile [] (Some options) cmd_info_name reconfigure st with
  | (Ok _, st) => (Ok SNone, st)
  | (Raise exc, st) => (Raise exc, st)
  end.

(** [Meson.install()]. *)
Definition install (conanfile : ConanFile) (st : state) : outcome scalar * state :=
  match configure conanfile None SNone SNone st with
  | (Raise exc, st) => (Raise exc, st)
  | (Ok _, st) =>
      let cmd := "meson install -C " +:+ quoted (build_folder conanfile) in
      match ConanFile_run conanfile cmd st with
      | (Ok _, st) => (Ok SNone, st)
      | (Raise exc, st) => (Raise exc, st)
      end
  end.

End toolchain.

(** The words an option contributes to the command line. *)
Definition option_words (kv : string * scalar) : list string :=
  match kv.2 with
  | SBool true => [kv.1]
  | SBool false => []
  | v => [kv.1; str_format v]
  end.

(** The option that names the toolchain file. *)
Definition toolchain_option (kv : string * scalar) : bool :=
  String.eqb kv.1 "--cross-file" || String.eqb kv.1 "--native-file".

(** [reconfigure and os.path.exists(os.path.join(build_folder,
    "meson-private"))] in [run_setup]. *)
Definition reconfigures (conanfile : ConanFile) (reconfigure : scalar) (st : state) : bool :=
  truthy match reconfigure with
         | SNone => SBool true
         | _ => reconfigure
         end
  && path_exists st (posixpath.join (build_folder conanfile) "meson-private").

End Meson.

(** ** The sort *)

Section sorting_facts.
Context {A : Type} (lt : A → A → bool).

Lemma insert_sorted_Permutation (x : A) (l : list A) :
  insert_sorted lt x l ≡ₚ x :: l.
Proof.
  induction l as [|y l IH]; simpl; [done|].
  destruct (lt y x); [|done].
  rewrite IH. apply perm_swap.
Qed.

Lemma isort_Permutation (l : list A) : isort lt l ≡ₚ l.
Proof.
  induction l as [|x l IH]; simpl; [done|].
  by rewrite insert_sorted_Permutation, IH.
Qed.

Lemma isort_length (l : list A) : length (isort lt l) = length l.
Proof. apply Permutation_length, isort_Permutation. Qed.

Hypothesis lt_asym : ∀ x y, lt x y = true → lt y x = false.

Lemma insert_sorted_Sorted (x : A) (l : list A) :
  Sorted (not_after lt) l → Sorted (not_after lt) (insert_sorted lt x l).
Proof.
  induction l as [|y l IH]; simpl; intros Hs.
  - repeat constructor.
  - destruct (lt y x) eqn:Hyx.
    + apply Sorted_inv in Hs as [Hs Hhd]. constructor; [by apply IH|].
      destruct l as [|z l]; simpl.
      * constructor. by apply lt_asym.
      * destruct (lt z x); constructor.
        -- by inversion Hhd.
        -- by apply lt_asym.
    + constructor; [done|]. by constructor.
Qed.

Lemma isort_Sorted (l : list A) : Sorted (not_after lt) (isort lt l).
Proof.
  induction l as [|x l IH]; simpl; [constructor|].
  by apply insert_sorted_Sorted.
Qed.
End sorting_facts.

Lemma Sorted_take {A : Type} (R : A → A → Prop) (n : nat) (l : list A) :
  Sorted R l → Sorted R (take n l).
Proof.
  revert n. induction l as [|x l IH]; intros [|n] Hs; simpl; try constructor.
  - apply IH. by apply Sorted_inv in Hs as [? _].
  - apply Sorted_inv in Hs as [_ Hhd].
    destruct l as [|y l], n as [|n]; simpl; constructor. by inversion Hhd.
Qed.

(** A comparison that never raises makes the raising sort the plain one. *)
Lemma isort_raising_pure {A : Type} (lt : A → A → outcome bool) (ltb : A → A → bool)
    (l : list A) :
  (∀ x y, x ∈ l → y ∈ l → lt x y = Ok (ltb x y)) →
  isort_raising lt l = Ok (isort ltb l).
Proof.
  assert (Hins : ∀ x s, (∀ y, y ∈ s → lt y x = Ok (ltb y x)) →
            insert_sorted_raising lt x s = Ok (insert_sorted ltb x s)).
  { intros x s. induction s as [|y s IHs]; simpl; intros Hs; [done|].
    rewrite Hs by apply list_elem_of_here.
    destruct (ltb y x); [|done].
    rewrite IHs; [done|]. intros z Hz. apply Hs. by apply list_elem_of_further. }
  induction l as [|x l IH]; simpl; intros Hl; [done|].
  rewrite IH by (intros y z Hy Hz; apply Hl; by apply list_elem_of_further).
  apply Hins. intros y Hy. apply Hl; [|apply list_elem_of_here].
  apply list_elem_of_further. by rewrite <- (isort_Permutation ltb l).
Qed.

(** * Properties *)

(** ** Helper facts about the value universe *)

Lemma is_None_true (v : pyval) : is_None v = true ↔ v = PNone.
Proof. destruct v; simpl; split; intros H; try discriminate; reflexivity. Qed.

Lemma is_None_false (v : pyval) : is_None v = false ↔ v ≠ PNone.
Proof.
  destruct v; simpl; split; intros H; try discriminate; try reflexivity.
  contradiction.
Qed.

Lemma getattr_setattr (namespace : Namespace) (name : string) (value fallback : pyval) :
  getattr (setattr namespace name value) name fallback = value.
Proof. unfold getattr, setattr. by rewrite lookup_insert_eq. Qed.

(** ** The once policy *)

(** [OnceArgument.__call__] has exactly two outcomes: the duplicate error, when
    the destination is not [None] and the default is, and the assignment. *)
Lemma OnceArgument_call_cases (self : Action) (parser : ArgumentParser)
    (namespace : Namespace) (current values : pyval) (o : string) :
  namespace !! dest self = Some current →
  OnceArgument.__call__ self parser namespace values o =
    if negb (is_None current) && is_None (default self)
    then raise ArgumentError (o +:+ " can only be specified once")
    else Ok (parser, setattr namespace (dest self) values).
Proof. intros Hcur. unfold OnceArgument.__call__. by rewrite Hcur. Qed.

(** C5, as the code has it: when the flag's declared default is [None], an
    occurrence that finds a value other than [None] in the destination fails
    with [argparse.ArgumentError]; and an occurrence that finds the
    destination still holding the declared default (a single occurrence)
    succeeds and leaves exactly the supplied value there. *)
Theorem OnceArgument_second_occurrence_fails
    (self : Action) (parser : ArgumentParser) (namespace : Namespace)
    (current values : pyval) (o : string) :
  namespace !! dest self = Some current →
  (default self = PNone → current ≠ PNone →
     OnceArgument.__call__ self parser namespace values o
       = raise ArgumentError (o +:+ " can only be specified once"))
  ∧ (current = default self →
     ∃ namespace',
       OnceArgument.__call__ self parser namespace values o = Ok (parser, namespace')
       ∧ namespace' !! dest self = Some values
       ∧ ∀ name, name ≠ dest self → namespace' !! name = namespace !! name).
Proof.
  intros Hcur. rewrite (OnceArgument_call_cases _ _ _ current) by done. split.
  - intros Hdef Hne. apply is_None_false in Hne. apply is_None_true in Hdef.
    by rewrite Hne, Hdef.
  - intros ->. exists (setattr namespace (dest self) values).
    split; [| split].
    + destruct (is_None (default self)); reflexivity.
    + apply lookup_insert_eq.
    + intros name Hname. unfold setattr. by rewrite lookup_insert_ne.
Qed.

(** C10: a once-policy flag whose declared default is not [None] never raises
    on a repeated occurrence, and the later value replaces the earlier one;
    the duplicate check fires exactly when the default is [None] and the
    destination is not. *)
Theorem OnceArgument_default_not_None_overwrites
    (self : Action) (parser : ArgumentParser) (namespace : Namespace)
    (current earlier later : pyval) (o : string) :
  namespace !! dest self = Some current →
  (default self ≠ PNone →
     ∃ namespace1 namespace2,
       OnceArgument.__call__ self parser namespace earlier o = Ok (parser, namespace1)
       ∧ OnceArgument.__call__ self parser namespace1 later o = Ok (parser, namespace2)
       ∧ namespace2 !! dest self = Some later)
  ∧ ((∃ exc, OnceArgument.__call__ self parser namespace later o = Raise exc)
     ↔ current ≠ PNone ∧ default self = PNone).
Proof.
  intros Hcur. split.
  - intros Hdef. apply is_None_false in Hdef.
    exists (setattr namespace (dest self) earlier),
           (setattr (setattr namespace (dest self) earlier) (dest self) later).
    rewrite (OnceArgument_call_cases _ _ _ current) by done.
    rewrite (OnceArgument_call_cases _ _ _ earlier) by apply lookup_insert_eq.
    rewrite Hdef, !andb_false_r. split; [done | split; [done |]].
    apply lookup_insert_eq.
  - rewrite (OnceArgument_call_cases _ _ _ current) by done.
    rewrite <- is_None_false, <- is_None_true.
    destruct (is_None current), (is_None (default self)); simpl; split;
      try (intros [exc Hexc]; discriminate); try (intros [? ?]; discriminate).
    + intros _. done.
    + intros _. eexists. reflexivity.
Qed.

(** ** The accumulate policy *)

(** After [set_defaults parser d v] every action has kept its class and its
    destination, and the actions of destination [d] have default [v]. *)
Lemma set_defaults_lookup (parser : ArgumentParser) (d : string) (v : pyval) (i : nat) :
  _actions (set_defaults parser d v) !! i =
    (fun a => if String.eqb (dest a) d
              then mk_Action (action a) (option_strings a) (dest a) v
              else a) <$> (_actions parser !! i).
Proof. unfold set_defaults; simpl. apply list_lookup_fmap. Qed.

Lemma extender_occurrence_inv (parser : ArgumentParser) (d : string) (o : occurrence) :
  extender_occurrence parser d o = true →
  ∃ a, _actions parser !! occ_action o = Some a
       ∧ action a = ExtenderAction ∧ dest a = d.
Proof.
  unfold extender_occurrence. destruct (_actions parser !! occ_action o) as [a|]; [|done].
  destruct (action a) eqn:Hact; [|done].
  intros Heq%String.eqb_eq. eauto.
Qed.

Lemma extender_occurrence_set_defaults (parser : ArgumentParser) (d : string) (o : occurrence) :
  extender_occurrence parser d o = true →
  ∃ a, _actions (set_defaults parser d PNone) !! occ_action o = Some a
       ∧ action a = ExtenderAction ∧ dest a = d ∧ default a = PNone.
Proof.
  intros (a & Ha & Hact & Hd)%extender_occurrence_inv.
  rewrite set_defaults_lookup, Ha; simpl.
  rewrite Hd, String.eqb_refl. eexists; split; [reflexivity|]. by simpl.
Qed.

Lemma set_defaults_idemp (parser : ArgumentParser) (d : string) (v : pyval) :
  set_defaults (set_defaults parser d v) d v = set_defaults parser d v.
Proof.
  unfold set_defaults; simpl. f_equal.
  - apply insert_insert_eq.
  - rewrite <- list_fmap_compose. apply list_fmap_ext.
    intros i a _; simpl. destruct (String.eqb (dest a) d) eqn:E; simpl; by rewrite E.
Qed.

(** An occurrence that finds something other than a list in the destination
    starts a new list, holding what the occurrence contributes, and resets the
    defaults of the destination to [None]. *)
Lemma Extender_call_first (self : Action) (parser : ArgumentParser)
    (namespace : Namespace) (values : pyval) :
  hasattr_extend (getattr namespace (dest self) PNone) = false →
  argparse_values values = true →
  ∃ namespace',
    Extender.__call__ self parser namespace values
      = Ok (set_defaults parser (dest self) PNone, namespace')
    ∧ namespace' !! dest self = Some (PList (contribution values)).
Proof.
  intros Hext Hshape. unfold Extender.__call__. rewrite Hext; simpl.
  destruct values as [| | |s|l| | |]; try discriminate; simpl.
  - eexists; split; [reflexivity|]. apply lookup_insert_eq.
  - eexists; split; [reflexivity|]. apply lookup_insert_eq.
  - destruct l as [|x l]; simpl.
    + eexists; split; [reflexivity|]. apply lookup_insert_eq.
    + eexists; split; [reflexivity|]. unfold setattr.
      by rewrite lookup_insert_eq.
Qed.

(** A later occurrence extends the list already in the destination. *)
Lemma Extender_call_next (self : Action) (parser : ArgumentParser)
    (namespace : Namespace) (acc : list pyval) (values : pyval) :
  namespace !! dest self = Some (PList acc) →
  default self = PNone →
  argparse_values values = true →
  ∃ namespace',
    Extender.__call__ self parser namespace values = Ok (parser, namespace')
    ∧ namespace' !! dest self = Some (PList (acc ++ contribution values)).
Proof.
  intros Hcur Hdef Hshape. unfold Extender.__call__, getattr.
  rewrite Hcur, Hdef; simpl.
  destruct values as [| | |s|l| | |]; try discriminate; simpl.
  - eexists; split; [reflexivity|]. by rewrite app_nil_r.
  - eexists; split; [reflexivity|]. apply lookup_insert_eq.
  - destruct l as [|x l]; simpl.
    + eexists; split; [reflexivity|]. by rewrite app_nil_r.
    + eexists; split; [reflexivity|]. apply lookup_insert_eq.
Qed.

(** Once the destination holds a list and its defaults are [None], every
    further run of occurrences appends its contributions in order. *)
Lemma Extender_take_actions_next (parser : ArgumentParser) (d : string)
    (occurrences : list occurrence) :
  forallb (extender_occurrence parser d) occurrences = true →
  forallb (fun o => argparse_values (occ_values o)) occurrences = true →
  ∀ (namespace : Namespace) (acc : list pyval),
    namespace !! d = Some (PList acc) →
    ∃ namespace',
      take_actions (set_defaults parser d PNone) namespace occurrences
        = Ok (set_defaults parser d PNone, namespace')
      ∧ namespace' !! d
        = Some (PList (acc ++ concat (map (fun o => contribution (occ_values o)) occurrences))).
Proof.
  induction occurrences as [|o rest IH]; intros Hocc Hshape namespace acc Hcur; simpl.
  - exists namespace. by rewrite app_nil_r.
  - simpl in Hocc, Hshape.
    apply andb_prop in Hocc as [Ho Hrest]. apply andb_prop in Hshape as [Hv Hvs].
    destruct (extender_occurrence_set_defaults _ _ _ Ho) as (a & Ha & Hact & Hd & Hdef).
    unfold take_action. rewrite Ha, Hact.
    destruct (Extender_call_next a (set_defaults parser d PNone) namespace acc (occ_values o))
      as (ns1 & Hcall & Hns1); [by rewrite Hd | done | done |].
    rewrite Hcall. rewrite Hd in Hns1.
    destruct (IH Hrest Hvs ns1 _ Hns1) as (ns2 & Hrun & Hns2).
    exists ns2. split; [done|]. by rewrite Hns2, <- app_assoc.
Qed.

Lemma single_value_contribution (occurrences : list occurrence) :
  forallb (fun o => single_value (occ_values o)) occurrences = true →
  length (concat (map (fun o => contribution (occ_values o)) occurrences))
    = length occurrences.
Proof.
  induction occurrences as [|o rest IH]; simpl; [done|].
  intros [Ho Hrest]%andb_prop. rewrite length_app, IH by done.
  destruct (occ_values o) as [| | |s|l| | |]; try discriminate; [done|].
  destruct l as [|x [|y l]]; try discriminate. done.
Qed.

(** C4, as the code has it: for every non-empty run of occurrences of
    [Extender] flags that share a destination (which holds no list before the
    first of them, and whose values are what argparse collects: a string,
    [None] or a list), parsing succeeds and the destination ends up holding
    the list of the supplied values in command-line order: a string adds
    itself, a list adds its elements, an occurrence without a value adds
    nothing.  When every occurrence carries exactly one value the length of
    that list is the number of occurrences. *)
Theorem Extender_collects_in_order (parser : ArgumentParser) (namespace : Namespace)
    (d : string) (occurrences : list occurrence) :
  occurrences ≠ [] →
  hasattr_extend (getattr namespace d PNone) = false →
  forallb (extender_occurrence parser d) occurrences = true →
  forallb (fun o => argparse_values (occ_values o)) occurrences = true →
  ∃ parser' namespace' collected,
    take_actions parser namespace occurrences = Ok (parser', namespace')
    ∧ namespace' !! d = Some (PList collected)
    ∧ collected = concat (map (fun o => contribution (occ_values o)) occurrences)
    ∧ (forallb (fun o => single_value (occ_values o)) occurrences = true →
       length collected = length occurrences).
Proof.
  destruct occurrences as [|o rest]; [done|]. intros _ Hext Hocc Hshape.
  simpl in Hocc, Hshape.
  apply andb_prop in Hocc as [Ho Hrest]. apply andb_prop in Hshape as [Hv Hvs].
  destruct (extender_occurrence_inv _ _ _ Ho) as (a & Ha & Hact & Hd).
  destruct (Extender_call_first a parser namespace (occ_values o))
    as (ns1 & Hcall & Hns1); [by rewrite Hd | done |].
  rewrite Hd in Hcall, Hns1.
  destruct (Extender_take_actions_next parser d rest Hrest Hvs ns1 _ Hns1)
    as (ns2 & Hrun & Hns2).
  exists (set_defaults parser d PNone), ns2,
    (concat (map (fun o => contribution (occ_values o)) (o :: rest))).
  split; [|split; [|split]].
  - simpl. unfold take_action. by rewrite Ha, Hact, Hcall.
  - done.
  - done.
  - apply single_value_contribution.
Qed.


(** ** The registry *)

Lemma _commands_step_eligible (result : gmap string method) (m : string * method) :
  _commands_step result m =
    if eligible m.1 (__func__ m.2) then <[public_name m.1 := m.2]> result else result.
Proof.
  unfold _commands_step, eligible, public_name.
  destruct (startswith m.1 "_"); simpl; [done|].
  destruct (__doc__ (__func__ m.2)) as [doc|]; [|done].
  by destruct (negb (String.eqb doc "") && negb (startswith doc "HIDDEN")).
Qed.

(** What the loop of [_commands] leaves under each key, when no two members
    share a public name. *)
Lemma fold_commands_lookup (members : list (string * method)) (k : string) (m : method) :
  NoDup (public_name <$> members.*1) →
  fold_left _commands_step members ∅ !! k = Some m
  ↔ ∃ name, (name, m) ∈ members ∧ eligible name (__func__ m) = true ∧ public_name name = k.
Proof.
  induction members as [|[name' m'] members IH] using rev_ind; intros Hnd.
  - simpl. rewrite lookup_empty. split; [done|]. intros (name & Hin & _). by inversion Hin.
  - rewrite !fmap_app in Hnd. apply NoDup_app in Hnd as (Hnd & Hfresh & _).
    rewrite fold_left_app; simpl. rewrite _commands_step_eligible; simpl.
    specialize (IH Hnd).
    assert (Hother : ∀ name, (name, m) ∈ members → public_name name ≠ public_name name').
    { intros name Hin Heq. apply (Hfresh (public_name name)).
      - apply list_elem_of_fmap. exists name. split; [done|].
        apply list_elem_of_fmap. by exists (name, m).
      - simpl. rewrite Heq. apply list_elem_of_here. }
    destruct (eligible name' (__func__ m')) eqn:Hel.
    + destruct (decide (public_name name' = k)) as [<-|Hk].
      * rewrite lookup_insert_eq. split.
        -- intros [= <-]. exists name'. split; [|done]. apply elem_of_app. right.
           apply list_elem_of_here.
        -- intros (name & Hin & _ & Hpn). apply elem_of_app in Hin as [Hin|Hin].
           ++ by apply Hother in Hin.
           ++ apply list_elem_of_singleton in Hin. by inversion Hin.
      * rewrite lookup_insert_ne by done. rewrite IH. split.
        -- intros (name & Hin & ?). exists name. split; [|done].
           apply elem_of_app. by left.
        -- intros (name & Hin & Hpn). apply elem_of_app in Hin as [Hin|Hin].
           ++ by exists name.
           ++ apply list_elem_of_singleton in Hin. inversion Hin; subst. by destruct Hpn.
    + rewrite IH. split.
      * intros (name & Hin & ?). exists name. split; [|done].
        apply elem_of_app. by left.
      * intros (name & Hin & Hpn). apply elem_of_app in Hin as [Hin|Hin].
        -- by exists name.
        -- apply list_elem_of_singleton in Hin. inversion Hin; subst.
           destruct Hpn as [Hpn _]. congruence.
Qed.

(** [getmembers] lists every function of the class once, bound to [self]. *)
Lemma getmembers_names (self : Command) (w : world) :
  (getmembers self w).1.*1 ≡ₚ (methods self).*1.
Proof.
  unfold getmembers; simpl. rewrite fmap_imap.
  rewrite (imap_ext _ (const fst)) by done.
  rewrite imap_const. apply fmap_Permutation, isort_Permutation.
Qed.

Lemma getmembers_elem (self : Command) (w : world) (name : string) (m : method) :
  (name, m) ∈ (getmembers self w).1 →
  (name, __func__ m) ∈ methods self ∧ __self__ m = command_id self.
Proof.
  unfold getmembers; simpl. intros (i & [name' f] & Heq & Hlook)%elem_of_lookup_imap.
  simpl in Heq. inversion Heq; subst; simpl. split; [|done].
  rewrite <- (isort_Permutation (fun p q : string * function => String.ltb p.1 q.1)).
  by eapply list_elem_of_lookup_2.
Qed.

Lemma getmembers_elem_of (self : Command) (w : world) (name : string) (f : function) :
  (name, f) ∈ methods self →
  ∃ m, (name, m) ∈ (getmembers self w).1 ∧ __func__ m = f.
Proof.
  intros Hin.
  rewrite <- (isort_Permutation (fun p q : string * function => String.ltb p.1 q.1)) in Hin.
  apply list_elem_of_lookup_1 in Hin as [i Hi].
  exists (mk_method (command_id self) f (allocated w + i)). split; [|done].
  unfold getmembers; simpl. apply elem_of_lookup_imap. by exists i, (name, f).
Qed.

Lemma public_name_inj (names : list string) (x y : string) :
  "export-pkg" ∉ names → x ∈ names → y ∈ names →
  public_name x = public_name y → x = y.
Proof.
  unfold public_name. intros Hno Hx Hy.
  destruct (String.eqb_spec "export_pkg" x), (String.eqb_spec "export_pkg" y);
    intros Heq; subst; try done.
Qed.

Lemma NoDup_fst_functional {A B : Type} (l : list (A * B)) (x : A) (y1 y2 : B) :
  NoDup l.*1 → (x, y1) ∈ l → (x, y2) ∈ l → y1 = y2.
Proof.
  induction l as [|[a b] l IH]; simpl; intros Hnd H1 H2; [by inversion H1|].
  apply NoDup_cons in Hnd as [Hnotin Hnd].
  apply elem_of_cons in H1 as [H1|H1]; apply elem_of_cons in H2 as [H2|H2];
    simplify_eq; auto.
  - destruct Hnotin. apply list_elem_of_fmap. by exists (a, y2).
  - destruct Hnotin. apply list_elem_of_fmap. by exists (a, y1).
Qed.

Lemma getmembers_public_NoDup (self : Command) (w : world) :
  NoDup (methods self).*1 →
  "export-pkg" ∉ (methods self).*1 →
  NoDup (public_name <$> (getmembers self w).1.*1).
Proof.
  intros Hnd Hno. rewrite getmembers_names.
  apply NoDup_fmap_2_strong; [|done].
  intros x y Hx Hy. by apply (public_name_inj (methods self).*1).
Qed.

(** C6: over a class whose attribute names are distinct and are identifiers
    (none is literally [export-pkg]), the registry holds a candidate, under
    its public name and bound to [self], if and only if the candidate's name
    does not begin with ['_'] and its docstring is present, not empty and
    does not begin with [HIDDEN]; every entry of the registry is such a
    candidate; and [export_pkg] is filed under [export-pkg] only. *)
Theorem _commands_registers_documented_public (self : Command) (w : world) :
  NoDup (methods self).*1 →
  "export-pkg" ∉ (methods self).*1 →
  (∀ name f, (name, f) ∈ methods self →
     (∃ m, (_commands self w).1 !! public_name name = Some m
           ∧ __func__ m = f ∧ __self__ m = command_id self)
     ↔ eligible name f = true)
  ∧ (∀ k m, (_commands self w).1 !! k = Some m →
       ∃ name, (name, __func__ m) ∈ methods self
               ∧ k = public_name name ∧ eligible name (__func__ m) = true)
  ∧ (∀ f, ("export_pkg", f) ∈ methods self → eligible "export_pkg" f = true →
       (_commands self w).1 !! "export_pkg" = None
       ∧ ∃ m, (_commands self w).1 !! "export-pkg" = Some m ∧ __func__ m = f).
Proof.
  intros Hnd Hno.
  pose proof (getmembers_public_NoDup self w Hnd Hno) as Hpub.
  assert (Hreg : (_commands self w).1 = fold_left _commands_step (getmembers self w).1 ∅).
  { unfold _commands. by destruct (getmembers self w). }
  rewrite Hreg.
  assert (Hfun : ∀ name f g, (name, f) ∈ methods self → (name, g) ∈ methods self → f = g).
  { intros name f g Hf Hg. by eapply NoDup_fst_functional. }
  assert (Hfwd : ∀ name f, (name, f) ∈ methods self → eligible name f = true →
            ∃ m, fold_left _commands_step (getmembers self w).1 ∅ !! public_name name = Some m
                 ∧ __func__ m = f ∧ __self__ m = command_id self).
  { intros name f Hin Hel.
    destruct (getmembers_elem_of self w name f Hin) as (m & Hm & Hf).
    exists m. split; [|split; [done|]].
    - apply fold_commands_lookup; [done|]. exists name. by rewrite Hf.
    - by apply getmembers_elem in Hm as [_ ?]. }
  split; [|split].
  - intros name f Hin. split; [|by apply Hfwd].
    intros (m & Hlook & Hf & _).
    apply fold_commands_lookup in Hlook as (name' & Hin' & Hel & Hpn); [|done].
    apply getmembers_elem in Hin' as [Hin' _].
    assert (name' = name) as ->.
    { apply (public_name_inj (methods self).*1); [done| | |done].
      - apply list_elem_of_fmap. by exists (name', __func__ m).
      - apply list_elem_of_fmap. by exists (name, f). }
    by rewrite <- Hf.
  - intros k m Hlook.
    apply fold_commands_lookup in Hlook as (name & Hin & Hel & Hpn); [|done].
    apply getmembers_elem in Hin as [Hin _]. by exists name.
  - intros f Hin Hel. split.
    + destruct (fold_left _commands_step (getmembers self w).1 ∅ !! "export_pkg")
        as [m|] eqn:Hlook; [|done].
      apply fold_commands_lookup in Hlook as (name & Hin' & _ & Hpn); [|done].
      apply getmembers_elem in Hin' as [Hin' _].
      unfold public_name in Hpn.
      destruct (String.eqb_spec "export_pkg" name); [done|]. by subst.
    + destruct (Hfwd _ _ Hin Hel) as (m & Hm & Hf & _). by exists m.
Qed.

(** Two runs of the loop over members that agree on names, instances and
    functions leave registries with the same keys and equal bindings. *)
Lemma fold_commands_method_eq (members1 members2 : list (string * method)) :
  Forall2 (fun a b => a.1 = b.1 ∧ method_eq a.2 b.2) members1 members2 →
  ∀ r1 r2 : gmap string method,
    (∀ k, option_Forall2 method_eq (r1 !! k) (r2 !! k)) →
    ∀ k, option_Forall2 method_eq
           (fold_left _commands_step members1 r1 !! k)
           (fold_left _commands_step members2 r2 !! k).
Proof.
  induction 1 as [|[n1 m1] [n2 m2] l1 l2 [Hn [Hs Hf]] _ IH]; intros r1 r2 Hr; simpl; [done|].
  simpl in Hn, Hs, Hf. subst n2.
  apply IH. intros k. rewrite !_commands_step_eligible; simpl. rewrite <- Hf.
  destruct (eligible n1 (__func__ m1)); [|done].
  destruct (decide (public_name n1 = k)) as [<-|Hk].
  - rewrite !lookup_insert_eq. by constructor.
  - by rewrite !lookup_insert_ne.
Qed.

Lemma getmembers_method_eq (self : Command) (w w' : world) :
  Forall2 (fun a b => a.1 = b.1 ∧ method_eq a.2 b.2)
    (getmembers self w).1 (getmembers self w').1.
Proof.
  unfold getmembers; simpl.
  generalize (isort (fun p q : string * function => String.ltb p.1 q.1) (methods self)).
  intros l. apply Forall2_same_length_lookup. split.
  - by rewrite !length_imap.
  - intros i a b Ha Hb. rewrite list_lookup_imap in Ha, Hb.
    destruct (l !! i) as [p|]; simpl in *; [|done].
    inversion Ha; inversion Hb; subst; simpl. done.
Qed.

(** C9: two calls of [_commands] on the same [Command] object, the second in
    the world the first one leaves, return registries with the same names,
    and under every name bound methods that are equal in Python's sense: the
    same instance and the same function (they are distinct method objects).
    The same holds for calls made in any two worlds. *)
Theorem _commands_twice_same_registry (self : Command) (w w' : world) :
  (dom (_commands self w).1 = dom (_commands self (_commands self w).2).1
   ∧ ∀ k, option_Forall2 method_eq
            ((_commands self w).1 !! k)
            ((_commands self (_commands self w).2).1 !! k))
  ∧ (dom (_commands self w).1 = dom (_commands self w').1
     ∧ ∀ k, option_Forall2 method_eq
              ((_commands self w).1 !! k) ((_commands self w').1 !! k)).
Proof.
  assert (Hany : ∀ w1 w2 k, option_Forall2 method_eq
                   ((_commands self w1).1 !! k) ((_commands self w2).1 !! k)).
  { intros w1 w2 k. unfold _commands.
    pose proof (getmembers_method_eq self w1 w2) as Hm.
    destruct (getmembers self w1) as [l1 ?], (getmembers self w2) as [l2 ?]; simpl in *.
    apply fold_commands_method_eq; [done|]. intros k'. rewrite !lookup_empty. constructor. }
  assert (Hdom : ∀ w1 w2, dom (_commands self w1).1 = dom (_commands self w2).1).
  { intros w1 w2. apply set_eq. intros k. rewrite !elem_of_dom.
    specialize (Hany w1 w2 k).
    destruct ((_commands self w1).1 !! k), ((_commands self w2).1 !! k);
      inversion Hany; split; intros [? ?]; simplify_eq; eauto. }
  split; split; auto.
Qed.

(** ** The fuzzy suggestion *)

Lemma string_ltb_asym (s t : string) : String.ltb s t = true → String.ltb t s = false.
Proof.
  unfold String.ltb. rewrite (String.compare_antisym s t).
  by destruct (String.compare t s).
Qed.

Lemma score_lt_asym (p q : Q * string) :
  difflib.score_lt p q = true → difflib.score_lt q p = false.
Proof.
  unfold difflib.score_lt.
  destruct (Qeq_bool p.1 q.1) eqn:Hpq.
  - apply Qeq_bool_iff in Hpq. symmetry in Hpq. apply Qeq_bool_iff in Hpq.
    rewrite Hpq. apply string_ltb_asym.
  - assert (Qeq_bool q.1 p.1 = false) as ->.
    { destruct (Qeq_bool q.1 p.1) eqn:Hqp; [|done].
      apply Qeq_bool_iff in Hqp. symmetry in Hqp. apply Qeq_bool_iff in Hqp. congruence. }
    intros Hlt%negb_true_iff. apply negb_false_iff, Qle_bool_iff.
    destruct (Qlt_le_dec q.1 p.1) as [Hlt'|Hle]; [|done].
    apply Qlt_le_weak, Qle_bool_iff in Hlt'. congruence.
Qed.

(** An element that is not ranked below its successor scores at least as
    much. *)
Lemma score_lt_false_le (p q : Q * string) :
  difflib.score_lt p q = false → (q.1 <= p.1)%Q.
Proof.
  unfold difflib.score_lt. destruct (Qeq_bool p.1 q.1) eqn:Hpq.
  - intros _. apply Qeq_bool_iff in Hpq. rewrite Hpq. apply Qle_refl.
  - intros Hle%negb_false_iff. by apply Qle_bool_iff.
Qed.

Lemma Sorted_fmap_Forall {A B : Type} (R : A → A → Prop) (R' : B → B → Prop)
    (P : A → Prop) (f : A → B) (l : list A) :
  (∀ a b, P a → P b → R a b → R' (f a) (f b)) →
  Forall P l → Sorted R l → Sorted R' (f <$> l).
Proof.
  intros HR. induction l as [|a l IH]; simpl; intros HP Hs; [constructor|].
  apply Forall_cons in HP as [Ha HP]. apply Sorted_inv in Hs as [Hs Hhd].
  constructor; [by apply IH|].
  destruct l as [|b l]; simpl; constructor.
  apply Forall_cons in HP as [Hb _]. apply HR; [done..|]. by inversion Hhd.
Qed.

Lemma get_close_matches_candidates (word : string) (cutoff : Q)
    (possibilities all : list string) (acc : list (Q * string)) :
  (∀ x, x ∈ possibilities → x ∈ all) →
  Forall (close_candidate word all cutoff) acc →
  Forall (close_candidate word all cutoff)
    (fold_left (fun result x =>
                  if Qle_bool cutoff (difflib.real_quick_ratio x word)
                     && Qle_bool cutoff (difflib.quick_ratio x word)
                     && Qle_bool cutoff (difflib.ratio x word)
                  then result ++ [(difflib.ratio x word, x)]
                  else result)
               possibilities acc).
Proof.
  revert acc. induction possibilities as [|x l IH]; intros acc Hsub Hacc; simpl; [done|].
  apply IH; [intros y Hy; apply Hsub; by apply list_elem_of_further|].
  destruct (Qle_bool cutoff (difflib.real_quick_ratio x word)
            && Qle_bool cutoff (difflib.quick_ratio x word)
            && Qle_bool cutoff (difflib.ratio x word)) eqn:Hc; [|done].
  apply Forall_app. split; [done|]. constructor; [|constructor].
  apply andb_prop in Hc as [_ Hc]. apply Qle_bool_iff in Hc.
  split; [|done]. simpl. apply Hsub, list_elem_of_here.
Qed.

(** [get_close_matches] with a positive [n] and a cutoff between 0 and 1
    returns at most [n] possibilities, each with a ratio at or above the
    cutoff, the better ones first. *)
Lemma get_close_matches_sound (word : string) (possibilities : list string)
    (n : Z) (cutoff : Q) :
  0 < n → (0 <= cutoff)%Q → (cutoff <= 1)%Q →
  ∃ matches,
    difflib.get_close_matches word possibilities n cutoff = Ok matches
    ∧ (length matches ≤ Z.to_nat n)%nat
    ∧ (∀ x, x ∈ matches → x ∈ possibilities ∧ (cutoff <= difflib.ratio x word)%Q)
    ∧ StronglySorted (fun x y => (difflib.ratio y word <= difflib.ratio x word)%Q) matches.
Proof.
  intros Hn H0 H1. unfold difflib.get_close_matches.
  apply Z.ltb_lt in Hn. rewrite Hn; simpl.
  apply Qle_bool_iff in H0, H1. rewrite H0, H1; simpl.
  eexists; split; [reflexivity|].
  set (collected := fold_left _ possibilities []).
  assert (Hcand : Forall (close_candidate word possibilities cutoff) collected).
  { apply get_close_matches_candidates; [done|constructor]. }
  unfold difflib._nlargest, sorted_reverse.
  set (lt' := fun x y : Q * string => difflib.score_lt y x).
  assert (Hsorted : Forall (close_candidate word possibilities cutoff) (isort lt' collected)).
  { by rewrite isort_Permutation. }
  assert (Htake : Forall (close_candidate word possibilities cutoff)
                    (take (Z.to_nat n) (isort lt' collected))).
  { by apply Forall_take. }
  split; [|split].
  - rewrite length_fmap, length_take. lia.
  - intros x (p & -> & Hp)%list_elem_of_fmap.
    rewrite Forall_forall in Htake. destruct (Htake p Hp) as (? & _ & ?). done.
  - apply Sorted_StronglySorted.
    { intros x y z Hxy Hyz. by eapply Qle_trans. }
    apply (Sorted_fmap_Forall (not_after lt') _ (close_candidate word possibilities cutoff));
      [|done|].
    + intros a b (_ & Ha & _) (_ & Hb & _) Hab. simpl. rewrite <- Ha, <- Hb.
      by apply score_lt_false_le.
    + apply Sorted_take, isort_Sorted. intros x y. apply score_lt_asym.
Qed.

Lemma _commands_world (self : Command) (w : world) :
  (_commands self w).2 = set_allocated (fun n => n + length (methods self))%nat w.
Proof.
  unfold _commands, getmembers; simpl. by rewrite isort_length.
Qed.

Lemma console_info_lines (matches : list string) (w : world) :
  console (fold_left (fun w match_ => ConanOutput.info (Text ("    " +:+ match_)) w)
                     matches w)
  = console w ++ ((fun match_ => (LevelInfo, Text ("    " +:+ match_))) <$> matches).
Proof.
  revert w. induction matches as [|x l IH]; intros w; simpl; [by rewrite app_nil_r|].
  rewrite IH; simpl. by rewrite <- app_assoc.
Qed.


(** ** The answer of [get_close_matches] does not depend on the order of the
       possibilities *)

Lemma ascii_compare_Lt_trans (a b c : ascii) :
  Ascii.compare a b = Lt → Ascii.compare b c = Lt → Ascii.compare a c = Lt.
Proof.
  unfold Ascii.compare. rewrite !N.compare_lt_iff. apply N.lt_trans.
Qed.

Lemma string_compare_Lt_trans (s t u : string) :
  String.compare s t = Lt → String.compare t u = Lt → String.compare s u = Lt.
Proof.
  revert t u. induction s as [|a s IH]; intros [|b t] [|c u]; simpl; try done.
  destruct (Ascii.compare a b) eqn:Hab; try done.
  - apply Ascii.compare_eq_iff in Hab as ->.
    destruct (Ascii.compare b c); try done. apply IH.
  - destruct (Ascii.compare b c) eqn:Hbc; try done.
    + apply Ascii.compare_eq_iff in Hbc as <-. by rewrite Hab.
    + by rewrite (ascii_compare_Lt_trans a b c).
Qed.

Lemma string_compare_refl (s : string) : String.compare s s = Eq.
Proof.
  pose proof (String.compare_antisym s s) as H. by destruct (String.compare s s).
Qed.

(** [s] is not below [t], and [t] not below [u]: [s] is not below [u]. *)
Lemma string_not_ltb_trans (s t u : string) :
  String.ltb s t = false → String.ltb t u = false → String.ltb s u = false.
Proof.
  unfold String.ltb. intros Hst Htu.
  destruct (String.compare s u) eqn:Hsu; try done.
  destruct (String.compare s t) eqn:Hst'; try done.
  - apply String.compare_eq_iff in Hst' as ->. by rewrite Hsu in Htu.
  - destruct (String.compare t u) eqn:Htu'; try done.
    + apply String.compare_eq_iff in Htu' as ->. by rewrite Hsu in Hst'.
    + (* t < s < u and u < t *)
      rewrite String.compare_antisym in Hst'. rewrite String.compare_antisym in Htu'.
      destruct (String.compare t s) eqn:Hts; try done.
      destruct (String.compare u t) eqn:Hut; try done.
      pose proof (string_compare_Lt_trans _ _ _ Hut Hts) as Hus.
      pose proof (string_compare_Lt_trans _ _ _ Hus Hsu) as Huu.
      by rewrite string_compare_refl in Huu.
Qed.

Lemma score_lt_false_iff (p q : Q * string) :
  difflib.score_lt p q = false
  ↔ (q.1 < p.1)%Q ∨ ((q.1 == p.1)%Q ∧ String.ltb p.2 q.2 = false).
Proof.
  unfold difflib.score_lt. destruct (Qeq_bool p.1 q.1) eqn:Hpq.
  - apply Qeq_bool_iff in Hpq. split.
    + intros Hlt. right. split; [by symmetry|done].
    + intros [Hlt|[_ Hlt]]; [|done]. rewrite Hpq in Hlt. by apply Qlt_irrefl in Hlt.
  - assert (Hne : ¬ (p.1 == q.1)%Q).
    { intros Heq%Qeq_bool_iff. congruence. }
    rewrite negb_false_iff, Qle_bool_iff. split.
    + intros Hle. left. apply Qle_lteq in Hle as [Hlt|Heq]; [done|].
      destruct Hne. by symmetry.
    + intros [Hlt|[Heq _]]; [by apply Qlt_le_weak|]. destruct Hne. by symmetry.
Qed.

Lemma score_not_lt_trans (p q r : Q * string) :
  difflib.score_lt p q = false → difflib.score_lt q r = false →
  difflib.score_lt p r = false.
Proof.
  rewrite !score_lt_false_iff. intros [Hqp|[Hqp Hs1]] [Hrq|[Hrq Hs2]].
  - left. by eapply Qlt_trans.
  - left. by rewrite Hrq.
  - left. by rewrite <- Hqp.
  - right. split; [by rewrite Hrq|]. by eapply string_not_ltb_trans.
Qed.

Lemma get_close_matches_collected (word : string) (cutoff : Q)
    (possibilities : list string) (acc : list (Q * string)) :
  fold_left (fun result x =>
               if Qle_bool cutoff (difflib.real_quick_ratio x word)
                  && Qle_bool cutoff (difflib.quick_ratio x word)
                  && Qle_bool cutoff (difflib.ratio x word)
               then result ++ [(difflib.ratio x word, x)]
               else result)
            possibilities acc
  = acc ++ ((fun x => (difflib.ratio x word, x)) <$>
            filter (fun x => Qle_bool cutoff (difflib.real_quick_ratio x word)
                             && Qle_bool cutoff (difflib.quick_ratio x word)
                             && Qle_bool cutoff (difflib.ratio x word) = true)
                   possibilities).
Proof.
  revert acc. induction possibilities as [|x l IH]; intros acc; simpl.
  - by rewrite app_nil_r.
  - rewrite IH, filter_cons.
    destruct (Qle_bool cutoff (difflib.real_quick_ratio x word)
              && Qle_bool cutoff (difflib.quick_ratio x word)
              && Qle_bool cutoff (difflib.ratio x word)) eqn:Hc.
    + rewrite decide_True by done. csimpl. by rewrite <- app_assoc.
    + rewrite decide_False by done. done.
Qed.

(** Python's dictionary lists its keys in insertion order and the registry
    of the model in the order of its finite map; for distinct names the two
    orders give the same suggestions. *)
Lemma get_close_matches_Permutation (word : string) (possibilities possibilities' : list string)
    (n : Z) (cutoff : Q) :
  possibilities ≡ₚ possibilities' →
  difflib.get_close_matches word possibilities n cutoff
  = difflib.get_close_matches word possibilities' n cutoff.
Proof.
  intros Hperm. unfold difflib.get_close_matches.
  destruct (negb (0 <? n)); [done|].
  destruct (negb (Qle_bool 0 cutoff && Qle_bool cutoff 1)); [done|].
  rewrite !get_close_matches_collected; simpl.
  do 2 f_equal. unfold difflib._nlargest, sorted_reverse. f_equal.
  set (lt' := fun x y : Q * string => difflib.score_lt y x).
  assert (Htrans : Transitive (not_after lt')).
  { intros x y z. unfold not_after, lt'. apply score_not_lt_trans. }
  apply (Sorted_unique_strong (not_after lt')).
  - intros p q Hp Hq Hpq Hqp.
    rewrite isort_Permutation in Hp, Hq.
    apply list_elem_of_fmap in Hp as (x & -> & _).
    apply list_elem_of_fmap in Hq as (y & -> & _).
    unfold not_after, lt' in Hpq, Hqp. simpl in *.
    apply score_lt_false_iff in Hpq as [Hlt|[Heq Hxy]]; simpl in *.
    + apply score_lt_false_iff in Hqp as [Hlt'|[Heq' _]]; simpl in *.
      * destruct (Qlt_irrefl (difflib.ratio x word)). by eapply Qlt_trans.
      * rewrite Heq' in Hlt. by apply Qlt_irrefl in Hlt.
    + apply score_lt_false_iff in Hqp as [Hlt'|[_ Hyx]]; simpl in *.
      * rewrite Heq in Hlt'. by apply Qlt_irrefl in Hlt'.
      * assert (x = y) as ->; [|done].
        unfold String.ltb in Hxy, Hyx. rewrite String.compare_antisym in Hyx.
        destruct (String.compare x y) eqn:Hc; try done.
        by apply String.compare_eq_iff.
  - apply isort_Sorted. intros x y. apply score_lt_asym.
  - apply isort_Sorted. intros x y. apply score_lt_asym.
  - rewrite !isort_Permutation. by rewrite Hperm.
Qed.

(** ** The matching blocks are common characters *)

Lemma characters_size (l : list ascii) : size (characters l) = length l.
Proof.
  unfold characters. induction l as [|x l IH].
  - by rewrite list_to_set_disj_nil, gmultiset_size_empty.
  - rewrite list_to_set_disj_cons, gmultiset_size_disj_union,
      gmultiset_size_singleton, IH. done.
Qed.

Lemma common_le_length (xs ys : list ascii) :
  (common xs ys ≤ length xs `min` length ys)%nat.
Proof.
  unfold common. rewrite <- !characters_size.
  apply Nat.min_glb; apply gmultiset_subseteq_size; multiset_solver.
Qed.

Lemma slice_split {A : Type} (lo mid hi : nat) (l : list A) :
  (lo ≤ mid ≤ hi)%nat → slice lo hi l = slice lo mid l ++ slice mid hi l.
Proof.
  intros Hle. unfold slice.
  replace (hi - lo)%nat with ((mid - lo) + (hi - mid))%nat by lia.
  rewrite <- take_take_drop, drop_drop.
  by replace (lo + (mid - lo))%nat with mid by lia.
Qed.

(** The characters of a block are the same in [a] and in [b]. *)
Lemma block_slices (a b : list ascii) (i j k : nat) :
  (∀ t, (t < k)%nat → is_Some (a !! (i + t)%nat) ∧ a !! (i + t)%nat = b !! (j + t)%nat) →
  slice i (i + k) a = slice j (j + k) b ∧ length (slice i (i + k) a) = k.
Proof.
  intros Hblock. unfold slice.
  replace (i + k - i)%nat with k by lia. replace (j + k - j)%nat with k by lia.
  assert (Hlen : ∀ (l : list ascii) n,
            (∀ t, (t < k)%nat → is_Some (l !! (n + t)%nat)) →
            length (take k (drop n l)) = k).
  { intros l n Hl. rewrite length_take, length_drop.
    destruct k as [|k']; [lia|].
    destruct (Hl k' ltac:(lia)) as [x Hx]. apply lookup_lt_Some in Hx. lia. }
  split.
  - apply list_eq. intros t. destruct (decide (t < k)%nat) as [Ht|Ht].
    + rewrite !lookup_take_lt, !lookup_drop by done. by apply Hblock.
    + rewrite !lookup_take_ge by lia. done.
  - apply Hlen. intros t Ht. by apply Hblock.
Qed.

(** A block and the two windows beside it contribute no more than the
    window they were cut from. *)
Lemma window_common_split (a b : list ascii) (alo ahi blo bhi : nat) (x : difflib.Match) :
  block_ok a b alo ahi blo bhi x →
  (window_common a b (alo, x.1.1, blo, x.1.2) + x.2
   + window_common a b ((x.1.1 + x.2)%nat, ahi, (x.1.2 + x.2)%nat, bhi)
   ≤ window_common a b (alo, ahi, blo, bhi))%nat.
Proof.
  destruct x as [[i j] k]. intros [(Hi & Hik & Hj & Hjk) Hblock]; cbn [fst snd] in *.
  unfold window_common, common; cbn [fst snd].
  rewrite (slice_split alo i ahi a), (slice_split i (i + k) ahi a) by lia.
  rewrite (slice_split blo j bhi b), (slice_split j (j + k) bhi b) by lia.
  destruct (block_slices a b i j k Hblock) as [Heq Hlen]. rewrite <- Heq.
  clear Hblock Heq.
  unfold characters. rewrite !list_to_set_disj_app.
  fold (characters (slice alo i a)) (characters (slice i (i + k) a))
       (characters (slice (i + k) ahi a)) (characters (slice blo j b))
       (characters (slice (j + k) bhi b)).
  rewrite <- Hlen at 1. rewrite <- characters_size.
  rewrite <- !gmultiset_size_disj_union.
  apply gmultiset_subseteq_size. multiset_solver.
Qed.

(** Rewrites the two positions of a goal on equal characters. *)
Ltac reindex x y :=
  match goal with
  | |- is_Some (?a !! ?X) ∧ ?a !! ?X = ?b !! ?Y =>
      replace X with x by lia; replace Y with y by lia
  end.

Lemma b2j_get_lookup (b : list ascii) (elt : ascii) (j : nat) :
  j ∈ difflib.b2j_get b elt → b !! j = Some elt.
Proof.
  unfold difflib.b2j_get. destruct (_ && _); [by intros ?%elem_of_nil|].
  intros ([j' c] & -> & [Hc Hin]%list_elem_of_filter)%list_elem_of_fmap.
  simpl in *. subst c. apply elem_of_lookup_imap in Hin as (j'' & c & [= <- <-] & Hlook).
  done.
Qed.

Lemma longest_match_row_ok (a b : list ascii) (alo ahi blo bhi : nat) (elt : ascii)
    (js : list nat) (i : nat) :
  (alo ≤ i < ahi)%nat →
  a !! i = Some elt →
  (∀ j, j ∈ js → b !! j = Some elt) →
  ∀ (j2len newj2len : gmap nat nat) (best : difflib.Match),
    runs_ok a b alo blo i j2len →
    runs_ok a b alo blo (S i) newj2len →
    block_ok a b alo ahi blo bhi best →
    runs_ok a b alo blo (S i)
      (difflib.longest_match_row js i blo bhi j2len newj2len best).1
    ∧ block_ok a b alo ahi blo bhi
        (difflib.longest_match_row js i blo bhi j2len newj2len best).2.
Proof.
  intros Hi Helt. induction js as [|j js IH]; intros Hjs j2len newj2len best Hold Hnew Hbest;
    simpl; [done|].
  assert (Hjs' : ∀ j', j' ∈ js → b !! j' = Some elt).
  { intros j' Hj'. apply Hjs. by apply list_elem_of_further. }
  destruct (j <? blo)%nat eqn:Hlo; [by apply IH|].
  destruct (bhi <=? j)%nat eqn:Hhi; [done|].
  apply Nat.ltb_ge in Hlo. apply Nat.leb_gt in Hhi.
  set (k := (match j with
             | O => 0
             | S j' => from_option id 0 (j2len !! j')
             end + 1)%nat).
  assert (Hrun : (k + alo ≤ S i ∧ k + blo ≤ j + 1)%nat
                 ∧ ∀ t, (t < k)%nat →
                        is_Some (a !! (S i - k + t)%nat)
                        ∧ a !! (S i - k + t)%nat = b !! (j + 1 - k + t)%nat).
  { assert (Hlast : is_Some (a !! i) ∧ a !! i = b !! j).
    { rewrite Helt, (Hjs j) by apply list_elem_of_here. split; [by eexists|done]. }
    subst k. destruct j as [|j'].
    - split; [lia|]. intros t Ht. reindex i 0%nat. done.
    - destruct (j2len !! j') as [k'|] eqn:Hk'; cbn [from_option id].
      + destruct (Hold j' k' Hk') as [[Hka Hkb] Hmatch]. split; [lia|].
        intros t Ht. destruct (decide (t < k')%nat) as [Hlt|Hge].
        * reindex (i - k' + t)%nat (j' + 1 - k' + t)%nat. by apply Hmatch.
        * reindex i (S j'). done.
      + split; [lia|]. intros t Ht. reindex i (S j'). done. }
  destruct Hrun as [[Hka Hkb] Hmatch].
  assert (Hk1 : (1 ≤ k)%nat) by (subst k; lia).
  apply IH; [done|done| |].
  - intros j0 k0. destruct (decide (j = j0)) as [->|Hne].
    + rewrite lookup_insert_eq. intros [= <-]. done.
    + rewrite lookup_insert_ne by done. apply Hnew.
  - destruct (best.2 <? k)%nat; [|done].
    split; cbn [fst snd]; [lia|]. intros t Ht.
    reindex (S i - k + t)%nat (j + 1 - k + t)%nat. by apply Hmatch.
Qed.

Lemma longest_match_rows_ok (a b : list ascii) (alo ahi blo bhi : nat) (n : nat) :
  ∀ (i : nat) (j2len : gmap nat nat) (best : difflib.Match),
    (alo ≤ i)%nat → (i + n ≤ ahi)%nat →
    runs_ok a b alo blo i j2len →
    block_ok a b alo ahi blo bhi best →
    block_ok a b alo ahi blo bhi
      (difflib.longest_match_rows a b (seq i n) blo bhi j2len best).
Proof.
  induction n as [|n IH]; intros i j2len best Hlo Hhi Hruns Hbest; simpl; [done|].
  assert (Hempty : runs_ok a b alo blo (S i) ∅).
  { intros j k. by rewrite lookup_empty. }
  destruct (a !! i) as [elt|] eqn:Helt.
  - pose proof (longest_match_row_ok a b alo ahi blo bhi elt (difflib.b2j_get b elt) i
                  ltac:(lia) Helt (b2j_get_lookup b elt) j2len ∅ best Hruns Hempty Hbest)
      as Hrow.
    destruct (difflib.longest_match_row _ i blo bhi j2len ∅ best) as [newj2len best'].
    destruct Hrow as [Hnew Hbest']. apply IH; [lia..|done|done].
  - simpl. apply IH; [lia..|done|done].
Qed.

Lemma extend_backwards_ok (a b : list ascii) (alo ahi blo bhi : nat) (n : nat) :
  ∀ best, block_ok a b alo ahi blo bhi best →
          block_ok a b alo ahi blo bhi (difflib.extend_backwards n a b alo blo best).
Proof.
  induction n as [|n IH]; intros [[besti bestj] bestsize] Hbest; simpl; [done|].
  destruct (_ && _ && _) eqn:Hcond; [|done].
  apply IH.
  apply andb_prop in Hcond as [[Hi%Nat.ltb_lt Hj%Nat.ltb_lt]%andb_prop Hc].
  apply bool_decide_eq_true in Hc as [Hsome Heq].
  destruct Hbest as [Hwin Hmatch]; cbn [fst snd] in *.
  split; cbn [fst snd]; [lia|]. intros t Ht.
  destruct t as [|t].
  - reindex (besti - 1)%nat (bestj - 1)%nat. done.
  - reindex (besti + t)%nat (bestj + t)%nat. apply Hmatch. lia.
Qed.

Lemma extend_forwards_ok (a b : list ascii) (alo ahi blo bhi : nat) (n : nat) :
  ∀ best, block_ok a b alo ahi blo bhi best →
          block_ok a b alo ahi blo bhi (difflib.extend_forwards n a b ahi bhi best).
Proof.
  induction n as [|n IH]; intros [[besti bestj] bestsize] Hbest; simpl; [done|].
  destruct (_ && _ && _) eqn:Hcond; [|done].
  apply IH.
  apply andb_prop in Hcond as [[Hi%Nat.ltb_lt Hj%Nat.ltb_lt]%andb_prop Hc].
  apply bool_decide_eq_true in Hc as [Hsome Heq].
  destruct Hbest as [Hwin Hmatch]; cbn [fst snd] in *.
  split; cbn [fst snd]; [lia|]. intros t Ht.
  destruct (decide (t < bestsize)%nat) as [Hlt|Hge]; [by apply Hmatch|].
  reindex (besti + bestsize)%nat (bestj + bestsize)%nat. done.
Qed.

Lemma find_longest_match_ok (a b : list ascii) (alo ahi blo bhi : nat) :
  (alo ≤ ahi)%nat → (blo ≤ bhi)%nat →
  block_ok a b alo ahi blo bhi (difflib.find_longest_match a b alo ahi blo bhi).
Proof.
  intros Ha Hb. unfold difflib.find_longest_match.
  apply extend_forwards_ok, extend_backwards_ok.
  apply longest_match_rows_ok; [lia..| |].
  - intros j k. by rewrite lookup_empty.
  - split; cbn [fst snd]; [lia|]. intros t Ht. lia.
Qed.

(** The blocks the loop ends with are no more than the blocks it has plus
    what the windows in its queue have in common. *)
Lemma matching_blocks_loop_common (a b : list ascii) (fuel : nat) :
  ∀ (queue : list (nat * nat * nat * nat)) (blocks result : list difflib.Match),
    Forall (fun w : nat * nat * nat * nat => w.1.1.1 ≤ w.1.1.2 ∧ w.1.2 ≤ w.2)%nat queue →
    difflib.matching_blocks_loop fuel a b queue blocks = Some result →
    (sum_list_with (fun x : difflib.Match => x.2) result
     ≤ sum_list_with (fun x : difflib.Match => x.2) blocks
       + sum_list_with (window_common a b) queue)%nat.
Proof.
  induction fuel as [|fuel IH]; intros queue blocks result Hvalid Hloop.
  - destruct queue as [|[[[alo ahi] blo] bhi] queue]; simpl in Hloop; [|done].
    injection Hloop as <-. simpl. lia.
  - destruct queue as [|[[[alo ahi] blo] bhi] queue].
    { injection Hloop as <-. simpl. lia. }
    apply Forall_cons in Hvalid as [[Hwa Hwb] Hvalid]. cbn [fst snd] in Hwa, Hwb.
    cbn [difflib.matching_blocks_loop] in Hloop.
    pose proof (find_longest_match_ok a b alo ahi blo bhi Hwa Hwb) as Hok.
    pose proof (window_common_split a b alo ahi blo bhi _ Hok) as Hsplit.
    destruct Hok as [Hwin _].
    destruct (difflib.find_longest_match a b alo ahi blo bhi) as [[i j] k].
    cbn [fst snd] in Hwin, Hsplit. cbn [sum_list_with].
    destruct (k =? 0)%nat eqn:Hk.
    + apply IH in Hloop; [lia|done].
    + apply Nat.eqb_neq in Hk.
      destruct ((alo <? i)%nat && (blo <? j)%nat) eqn:Hleft;
        destruct ((i + k <? ahi)%nat && (j + k <? bhi)%nat) eqn:Hright;
        (apply IH in Hloop;
         [rewrite sum_list_with_app in Hloop; cbn [sum_list_with fst snd] in Hloop; lia
         |repeat (apply Forall_cons; split;
                  [cbn [fst snd];
                   repeat match goal with
                          | H : _ && _ = true |- _ =>
                              apply andb_prop in H as [?%Nat.ltb_lt ?%Nat.ltb_lt]
                          end; lia|]); done]).
Qed.

(** The sizes of the matching blocks add up to at most the number of common
    characters. *)
Lemma get_matching_blocks_common (a b : list ascii) (blocks : list difflib.Match) :
  difflib.get_matching_blocks a b = Some blocks →
  (sum_list_with (fun x : difflib.Match => x.2) blocks ≤ common a b)%nat.
Proof.
  intros Hblocks. unfold difflib.get_matching_blocks in Hblocks.
  apply matching_blocks_loop_common in Hblocks.
  - unfold window_common, slice in Hblocks; simpl in Hblocks.
    rewrite !Nat.sub_0_r, !firstn_all in Hblocks. simpl in Hblocks.
    rewrite !drop_0 in Hblocks. lia.
  - repeat constructor; simpl; lia.
Qed.

(** ** [quick_ratio] and [real_quick_ratio] are upper bounds of [ratio] *)

(** [fullbcount] holds the number of times each character occurs in [b]. *)
Lemma fullbcount_spec (b : list ascii) (c : ascii) :
  ∀ m : gmap ascii Z,
    from_option id 0
      (fold_left (fun (m : gmap ascii Z) elt =>
                    <[elt := from_option id 0 (m !! elt) + 1]> m) b m !! c)
    = from_option id 0 (m !! c) + Z.of_nat (multiplicity c (characters b)).
Proof.
  unfold characters. induction b as [|elt b IH]; intros m.
  - rewrite list_to_set_disj_nil, multiplicity_empty. cbn [fold_left].
    generalize (from_option id 0 (m !! c)). intros z. lia.
  - cbn [fold_left]. rewrite IH, list_to_set_disj_cons, multiplicity_disj_union.
    destruct (decide (elt = c)) as [->|Hne].
    + rewrite lookup_insert_eq, multiplicity_singleton. cbn [from_option id].
      rewrite decide_True by done.
      generalize (from_option id 0 (m !! c)). intros z. lia.
    + rewrite lookup_insert_ne, multiplicity_singleton_ne by done.
      generalize (from_option id 0 (m !! c)). intros z. lia.
Qed.

(** The loop of [quick_ratio] counts the characters [a] and [b] have in
    common. *)
Lemma quick_ratio_loop_spec (b : list ascii) (fullbcount : gmap ascii Z) (a : list ascii) :
  (∀ c, from_option id 0 (fullbcount !! c) = Z.of_nat (multiplicity c (characters b))) →
  ∀ (seen : gmultiset ascii) (avail : gmap ascii Z) (matches : nat),
    (∀ c, match avail !! c with
          | Some numb =>
              numb = Z.of_nat (multiplicity c (characters b))
                     - Z.of_nat (multiplicity c seen)
          | None => multiplicity c seen = 0%nat
          end) →
    matches = size (seen ∩ characters b) →
    difflib.quick_ratio_loop a fullbcount avail matches
    = size ((seen ⊎ characters a) ∩ characters b).
Proof.
  intros Hfull. induction a as [|elt a IH]; intros seen avail matches Havail Hmatches.
  - simpl. rewrite Hmatches. f_equal.
    assert (characters [] = ∅) as -> by apply list_to_set_disj_nil.
    clear. multiset_solver.
  - cbn [difflib.quick_ratio_loop].
    set (numb := match avail !! elt with
                 | Some numb => numb
                 | None => from_option id 0 (fullbcount !! elt)
                 end).
    assert (Hnumb : numb = Z.of_nat (multiplicity elt (characters b))
                           - Z.of_nat (multiplicity elt seen)).
    { subst numb. specialize (Havail elt). destruct (avail !! elt) as [v|]; [done|].
      rewrite Hfull, Havail. lia. }
    rewrite (IH (seen ⊎ {[+ elt +]})).
    + f_equal.
      assert (characters (elt :: a) = {[+ elt +]} ⊎ characters a) as ->
        by apply list_to_set_disj_cons.
      clear. multiset_solver.
    + intros c. destruct (decide (elt = c)) as [<-|Hne].
      * rewrite lookup_insert_eq, multiplicity_disj_union, multiplicity_singleton.
        rewrite decide_True by done. lia.
      * rewrite lookup_insert_ne by done. specialize (Havail c).
        rewrite multiplicity_disj_union, multiplicity_singleton_ne by done.
        destruct (avail !! c); lia.
    + destruct (0 <? numb) eqn:Hpos.
      * apply Z.ltb_lt in Hpos.
        assert ((seen ⊎ {[+ elt +]}) ∩ characters b
                = (seen ∩ characters b) ⊎ {[+ elt +]}) as ->.
        { assert (multiplicity elt seen < multiplicity elt (characters b))%nat by lia.
          clear -H. multiset_solver. }
        rewrite gmultiset_size_disj_union, gmultiset_size_singleton. lia.
      * apply Z.ltb_ge in Hpos.
        assert ((seen ⊎ {[+ elt +]}) ∩ characters b = seen ∩ characters b) as ->.
        { assert (multiplicity elt (characters b) ≤ multiplicity elt seen)%nat by lia.
          clear -H. multiset_solver. }
        done.
Qed.

Lemma quick_ratio_common (a b : string) :
  difflib.quick_ratio a b
  = difflib._calculate_ratio (common (list_ascii_of_string a) (list_ascii_of_string b))
      (length (list_ascii_of_string a) + length (list_ascii_of_string b)).
Proof.
  unfold difflib.quick_ratio. f_equal.
  set (lb := list_ascii_of_string b).
  assert (Hfull : ∀ c, from_option id 0
                         (fold_left (fun (m : gmap ascii Z) elt =>
                                       <[elt := from_option id 0 (m !! elt) + 1]> m)
                                    lb ∅ !! c)
                       = Z.of_nat (multiplicity c (characters lb))).
  { intros c. by rewrite fullbcount_spec, lookup_empty. }
  rewrite (quick_ratio_loop_spec lb _ (list_ascii_of_string a) Hfull ∅ ∅ 0%nat).
  - unfold common. f_equal. clear. multiset_solver.
  - intros c. rewrite lookup_empty. apply multiplicity_empty.
  - assert ((∅ : gmultiset ascii) ∩ characters lb = ∅) as -> by (clear; multiset_solver).
    symmetry. apply gmultiset_size_empty.
Qed.

Lemma _calculate_ratio_mono (m m' length : nat) :
  (m ≤ m')%nat →
  (difflib._calculate_ratio m length <= difflib._calculate_ratio m' length)%Q.
Proof.
  intros Hle. unfold difflib._calculate_ratio.
  destruct (length =? 0)%nat; [apply Qle_refl|].
  unfold Qle; simpl. nia.
Qed.

Lemma string_length_list (s : string) : String.length s = length (list_ascii_of_string s).
Proof. induction s as [|c s IH]; simpl; [done|]. by rewrite IH. Qed.

(** The two cheap tests of [get_close_matches] never reject a candidate the
    third would accept. *)
Lemma ratio_upper_bounds (a b : string) :
  (difflib.ratio a b <= difflib.quick_ratio a b)%Q
  ∧ (difflib.ratio a b <= difflib.real_quick_ratio a b)%Q.
Proof.
  rewrite quick_ratio_common. unfold difflib.ratio, difflib.real_quick_ratio.
  rewrite !string_length_list.
  set (la := list_ascii_of_string a). set (lb := list_ascii_of_string b).
  assert (Hblocks : (match difflib.get_matching_blocks la lb with
                     | Some blocks => sum_list_with (fun x : difflib.Match => x.2) blocks
                     | None => 0
                     end ≤ common la lb)%nat).
  { destruct (difflib.get_matching_blocks la lb) as [blocks|] eqn:Hb; [|lia].
    by apply get_matching_blocks_common. }
  pose proof (common_le_length la lb) as Hmin.
  split; apply _calculate_ratio_mono; lia.
Qed.

(** ** [get_close_matches] misses no candidate *)

Lemma StronglySorted_lookup {A : Type} (R : A → A → Prop) (l : list A) (i j : nat)
    (x y : A) :
  StronglySorted R l → (i < j)%nat → l !! i = Some x → l !! j = Some y → R x y.
Proof.
  intros Hs. revert i j. induction Hs as [|z l Hs IH Hall]; intros i j Hij Hi Hj; [done|].
  destruct j as [|j]; [lia|]. destruct i as [|i]; simpl in *.
  - injection Hi as ->. rewrite Forall_forall in Hall. apply Hall.
    by eapply list_elem_of_lookup_2.
  - eapply IH; [|done..]. lia.
Qed.

(** A possibility at or above the cutoff is returned, unless [n]
    possibilities that are at least as close are. *)
Lemma get_close_matches_complete (word : string) (possibilities : list string)
    (n : Z) (cutoff : Q) (matches : list string) (x : string) :
  difflib.get_close_matches word possibilities n cutoff = Ok matches →
  x ∈ possibilities →
  (cutoff <= difflib.ratio x word)%Q →
  x ∈ matches
  ∨ (length matches = Z.to_nat n
     ∧ ∀ y, y ∈ matches → (difflib.ratio x word <= difflib.ratio y word)%Q).
Proof.
  unfold difflib.get_close_matches.
  destruct (negb (0 <? n)); [done|].
  destruct (negb (Qle_bool 0 cutoff && Qle_bool cutoff 1)); [done|].
  rewrite get_close_matches_collected. cbn [app].
  intros [= <-] Hx Hratio.
  set (passes := fun x => Qle_bool cutoff (difflib.real_quick_ratio x word)
                          && Qle_bool cutoff (difflib.quick_ratio x word)
                          && Qle_bool cutoff (difflib.ratio x word) = true).
  set (collected := (fun x => (difflib.ratio x word, x)) <$> filter passes possibilities).
  unfold difflib._nlargest, sorted_reverse.
  set (lt' := fun x y : Q * string => difflib.score_lt y x).
  set (ranked := isort lt' collected).
  assert (Hpass : passes x).
  { unfold passes. destruct (ratio_upper_bounds x word) as [Hq Hrq].
    rewrite !andb_true_iff, !Qle_bool_iff.
    split; [split|]; [by eapply Qle_trans..|done]. }
  assert (Hin : (difflib.ratio x word, x) ∈ ranked).
  { unfold ranked. rewrite isort_Permutation. unfold collected.
    apply list_elem_of_fmap. exists x. split; [done|]. by apply list_elem_of_filter. }
  apply list_elem_of_lookup_1 in Hin as [k Hk].
  destruct (decide (k < Z.to_nat n)%nat) as [Hlt|Hge].
  - left. apply list_elem_of_fmap. exists (difflib.ratio x word, x). split; [done|].
    apply (list_elem_of_lookup_2 _ k). by rewrite lookup_take_lt.
  - right. split.
    + rewrite length_fmap, length_take. apply lookup_lt_Some in Hk. lia.
    + intros y (p & -> & Hp)%list_elem_of_fmap.
      apply list_elem_of_lookup_1 in Hp as [i Hi].
      assert (Hilt : (i < Z.to_nat n)%nat).
      { apply lookup_lt_Some in Hi. rewrite length_take in Hi. lia. }
      rewrite lookup_take_lt in Hi by done.
      assert (Hsorted : StronglySorted (not_after lt') ranked).
      { apply Sorted_StronglySorted.
        - intros p1 p2 p3. unfold not_after, lt'. apply score_not_lt_trans.
        - apply isort_Sorted. intros p1 p2. apply score_lt_asym. }
      pose proof (StronglySorted_lookup _ _ i k _ _ Hsorted ltac:(lia) Hi Hk) as Hrank.
      unfold not_after, lt' in Hrank. apply score_lt_false_le in Hrank. simpl in Hrank.
      assert (Hp : p ∈ collected).
      { rewrite <- (isort_Permutation lt' collected). by eapply list_elem_of_lookup_2. }
      unfold collected in Hp. apply list_elem_of_fmap in Hp as (y & -> & _). done.
Qed.
(** C7: for every token, [_print_similar] selects from the registered public
    names at most 5 names whose similarity ratio to the token is at least
    3/4, ordered by descending ratio, whatever the order in which the
    registry lists its names.  No close name is missed: a registered name
    whose ratio is at least 3/4 is selected, unless five names that are at
    least as similar are.  The call raises nothing and writes a heading, the
    names and an empty line, and when nothing is selected it writes nothing
    at all. *)
Theorem _print_similar_selects_close_matches (self : Command) (command : string)
    (w : world) :
  ∃ matches,
    difflib.get_close_matches command (keys (_commands self w).1) 5 (3 # 4) = Ok matches
    ∧ (∀ order, order ≡ₚ keys (_commands self w).1 →
         difflib.get_close_matches command order 5 (3 # 4) = Ok matches)
    ∧ (length matches ≤ 5)%nat
    ∧ (∀ x, x ∈ matches →
         x ∈ dom (_commands self w).1 ∧ (3 # 4 <= difflib.ratio x command)%Q)
    ∧ (∀ x, x ∈ dom (_commands self w).1 → (3 # 4 <= difflib.ratio x command)%Q →
         x ∈ matches
         ∨ (length matches = 5%nat
            ∧ ∀ y, y ∈ matches → (difflib.ratio x command <= difflib.ratio y command)%Q))
    ∧ StronglySorted
        (fun x y => (difflib.ratio y command <= difflib.ratio x command)%Q) matches
    ∧ (_print_similar self command w).1 = Ok PNone
    ∧ console (_print_similar self command w).2 = console w ++ similar_lines matches
    ∧ (matches = [] → console (_print_similar self command w).2 = console w).
Proof.
  destruct (get_close_matches_sound command (keys (_commands self w).1) 5 (3 # 4))
    as (matches & Hget & Hlen & Hin & Hsorted); [done..|].
  exists matches.
  assert (Hprint : (_print_similar self command w).1 = Ok PNone
            ∧ console (_print_similar self command w).2 = console w ++ similar_lines matches).
  { unfold _print_similar. pose proof (_commands_world self w) as Hw.
    destruct (_commands self w) as [commands w1]; cbn [fst snd] in *. rewrite Hget.
    subst w1. clear.
    destruct matches as [|x [|y l]]; cbn [length Nat.eqb Nat.ltb Nat.leb fst snd fold_left].
    - split; [done|]. simpl. by rewrite app_nil_r.
    - split; [done|]. simpl. by rewrite <- !app_assoc.
    - split; [done|]. cbn [ConanOutput.info ConanOutput.write set_console console].
      rewrite console_info_lines. simpl. rewrite <- ?app_assoc. reflexivity. }
  destruct Hprint as [Hret Hcon].
  split; [done|]. split.
  { intros order Horder. by rewrite (get_close_matches_Permutation _ _ _ _ _ Horder). }
  split; [done|]. split.
  { intros x Hx. destruct (Hin x Hx) as [Hk Hratio]. split; [|done].
    unfold keys in Hk. apply list_elem_of_fmap in Hk as ([k m] & -> & Hk).
    apply elem_of_map_to_list in Hk. apply elem_of_dom. by exists m. }
  split.
  { intros x Hx Hratio.
    apply (get_close_matches_complete command (keys (_commands self w).1) 5 (3 # 4));
      [done| |done].
    apply elem_of_dom in Hx as [m Hm]. unfold keys.
    apply list_elem_of_fmap. exists (x, m). split; [done|]. by apply elem_of_map_to_list. }
  split; [done|]. split; [done|]. split; [done|].
  intros ->. rewrite Hcon. unfold similar_lines; simpl. by rewrite app_nil_r.
Qed.

(** ** The dispatcher *)

Section dispatcher_facts.
Context `{codes : exit_codes}.

Lemma run_try_resolved (self : Command) (args : list (list string)) (w : world)
    (exc : exn) (w' : world) :
  resolved_handler_raises self args w exc w' →
  run_try self args w = (Raise exc, w').
Proof.
  intros (argv & command & m & Hargs & Hargv & Hm & Hcall).
  unfold run_try. rewrite Hargs, Hargv.
  destruct (_commands self w) as [commands w1]; cbn [fst snd] in *. by rewrite Hm.
Qed.

Lemma run_try_unknown (self : Command) (argv : list string) (more : list (list string))
    (command : string) (w : world) :
  argv !! 0%nat = Some command →
  (_commands self w).1 !! command = None →
  run_try self (argv :: more) w
    = (Raise (mk_exn KeyError (PStr command)), (_commands self w).2).
Proof.
  intros Hargv Hm. unfold run_try.
  change ((argv :: more) !! 0%nat) with (Some argv). cbv beta iota. rewrite Hargv.
  destruct (_commands self w) as [commands w1]; cbn [fst snd] in *. by rewrite Hm.
Qed.
End dispatcher_facts.

(** C2: when the handler resolved for the command token raises
    [KeyboardInterrupt], [run] returns [SUCCESS], which is 0; the interrupt is
    passed to the logger and nothing is written to the output sink. *)
Theorem run_KeyboardInterrupt_returns_SUCCESS `{codes : exit_codes}
    (self : Command) (args : list (list string)) (w : world) (exc : exn) (w' : world) :
  resolved_handler_raises self args w exc w' →
  exn_class exc = KeyboardInterrupt →
  run self args w = (Ok (PInt SUCCESS), logger_error exc w')
  ∧ SUCCESS = 0
  ∧ console (run self args w).2 = console w'.
Proof.
  intros Hraise Hclass. unfold run. rewrite (run_try_resolved _ _ _ _ _ Hraise).
  unfold isinstance. rewrite Hclass. simpl. done.
Qed.

(** C1, as the code has it: when the handler resolved for the command token
    raises [SystemExit] with an integer code other than 0, [run] returns that
    very code, after passing the exception to the logger and writing
    [Exiting with code: <code>] to the output sink at the error level. *)
Theorem run_SystemExit_returns_its_code `{codes : exit_codes}
    (self : Command) (args : list (list string)) (w : world) (exc : exn) (w' : world)
    (c : Z) :
  resolved_handler_raises self args w exc w' →
  exn_class exc = SystemExit →
  code exc = PInt c →
  c ≠ 0 →
  run self args w
    = (Ok (PInt c),
       ConanOutput.error
         (Text ("Exiting with code: " +:+ NilZero.string_of_int (Z.to_int c)))
         (logger_error exc w')).
Proof.
  intros Hraise Hclass Hcode Hc. unfold run. rewrite (run_try_resolved _ _ _ _ _ Hraise).
  unfold isinstance. rewrite Hclass. simpl. rewrite Hcode. simpl.
  rewrite bool_decide_eq_false_2 by congruence. simpl. done.
Qed.

(** C3, as the code has it: for a command token that is not in the registry,
    [run] returns [ERROR_GENERAL]; the [KeyError] of the failed lookup falls
    to the last [except] clause, which prints the traceback and writes the
    sanitised message, the only line the output sink receives.  [run] does
    not call [_print_similar]. *)
Theorem run_unknown_command_is_ERROR_GENERAL `{codes : exit_codes}
    (self : Command) (argv : list string) (more : list (list string))
    (command : string) (w : world) :
  argv !! 0%nat = Some command →
  (_commands self w).1 !! command = None →
  let exc := mk_exn KeyError (PStr command) in
  run self (argv :: more) w
    = (Ok (PInt ERROR_GENERAL),
       ConanOutput.error (SafeMessageOf exc) (print (TracebackOf exc) (_commands self w).2))
  ∧ console (run self (argv :: more) w).2 = console w ++ [(LevelError, SafeMessageOf exc)].
Proof.
  intros Hargv Hm exc. unfold run. rewrite (run_try_unknown _ _ _ _ _ Hargv Hm).
  split; [done|]. by rewrite _commands_world.
Qed.

(** ** The JSON step of [inspect] *)

Lemma mapM_cons {A B : Type} (f : A → outcome B) (x : A) (l : list A) :
  mapM f (x :: l) = y ← f x; k ← mapM f l; Ok (y :: k).
Proof. reflexivity. Qed.

#[local] Arguments mapM : simpl never.

Lemma mapM_outcome_ext {A B : Type} (f g : A → outcome B) (l : list A) :
  (∀ x, x ∈ l → f x = g x) → mapM f l = mapM g l.
Proof.
  induction l as [|x l IH]; intros Hfg; [done|].
  rewrite !mapM_cons, Hfg by apply list_elem_of_here.
  rewrite IH; [done|]. intros y Hy. apply Hfg. by apply list_elem_of_further.
Qed.

Lemma mapM_outcome_Ok {A B : Type} (f : A → outcome B) (l : list A) :
  (∀ x, x ∈ l → ∃ y, f x = Ok y) → ∃ ys, mapM f l = Ok ys.
Proof.
  induction l as [|x l IH]; intros Hf; [by exists []|].
  destruct (Hf x) as [y Hy]; [apply list_elem_of_here|].
  destruct IH as [ys Hys]; [intros z Hz; apply Hf; by apply list_elem_of_further|].
  exists (y :: ys). by rewrite mapM_cons, Hy, Hys.
Qed.

(** Mapping a two-stage computation over a list is mapping the first stage
    and then the second, when the second stage cannot fail on what the first
    one produces. *)
Lemma mapM_outcome_stages {A B C : Type} (f : A → outcome B) (g : B → outcome C)
    (h : A → outcome C) (l : list A) :
  (∀ x, x ∈ l → match f x with
                 | Raise exc => h x = Raise exc
                 | Ok y => ∃ s, g y = Ok s ∧ h x = Ok s
                 end) →
  match mapM f l with
  | Raise exc => mapM h l = Raise exc
  | Ok l' => ∃ ss, mapM g l' = Ok ss ∧ mapM h l = Ok ss
  end.
Proof.
  induction l as [|x l IH]; intros Hst; [by exists []|].
  rewrite !mapM_cons.
  pose proof (Hst x (list_elem_of_here _ _)) as Hx.
  destruct (f x) as [y|exc]; simpl; [|by rewrite Hx].
  destruct Hx as (s & Hg & Hh). rewrite Hh; simpl.
  specialize (IH (fun z Hz => Hst z (list_elem_of_further _ _ _ Hz))).
  destruct (mapM f l) as [l'|exc]; simpl; [|by rewrite IH].
  destruct IH as (ss & Hgs & Hhs). exists (s :: ss).
  by rewrite mapM_cons, Hg, Hgs, Hhs.
Qed.

Lemma foldr_max_elem {A : Type} (f : A → nat) (l : list A) (x : A) :
  x ∈ l → (f x ≤ foldr (fun y n => f y `max` n) 0 l)%nat.
Proof.
  induction l as [|y l IH]; simpl; intros Hx; [by inversion Hx|].
  apply elem_of_cons in Hx as [->|Hx]; [lia|]. specialize (IH Hx). lia.
Qed.

Lemma forallb_elem {A : Type} (f : A → bool) (l : list A) (x : A) :
  forallb f l = true → x ∈ l → f x = true.
Proof.
  intros Hall Hx. rewrite forallb_forall in Hall. by apply Hall, list_elem_of_In.
Qed.

(** A hashable value is encoded without the hook, and the same at every
    depth that is enough for it. *)
Lemma hashable_iterencode_depth (d1 : nat) :
  ∀ (d2 : nat) (h1 h2 : pyval → outcome pyval) (y : pyval),
    hashable y = true → (nesting y ≤ d1)%nat → (nesting y ≤ d2)%nat →
    json.iterencode d1 h1 y = json.iterencode d2 h2 y.
Proof.
  induction d1 as [|d1 IH]; intros d2 h1 h2 y Hy H1 H2.
  - destruct y; simpl in H1; lia.
  - destruct d2 as [|d2]; [destruct y; simpl in H2; lia|].
    destruct y as [| | | |l|l|l|kvs]; try done; simpl in *.
    rewrite (mapM_outcome_ext (json.iterencode d1 h1) (json.iterencode d2 h2)); [done|].
    intros x Hx. pose proof (foldr_max_elem nesting l x Hx).
    apply IH; [by eapply forallb_elem|lia..].
Qed.

Lemma hashable_iterencode_Ok (d : nat) :
  ∀ (h : pyval → outcome pyval) (y : pyval),
    hashable y = true → (nesting y ≤ d)%nat → ∃ s, json.iterencode d h y = Ok s.
Proof.
  induction d as [|d IH]; intros h y Hy Hd.
  - destruct y; simpl in Hd; lia.
  - destruct y as [| |z|s|l|l|l|kvs]; try done; simpl in *; eauto.
    + destruct b; eauto.
    + destruct (mapM_outcome_Ok (json.iterencode d h) l) as [ss Hss].
      { intros x Hx. pose proof (foldr_max_elem nesting l x Hx).
        apply IH; [by eapply forallb_elem|lia]. }
      rewrite Hss; simpl. eauto.
Qed.

Lemma insert_sorted_raising_Permutation {A : Type} (lt : A → A → outcome bool)
    (x : A) (l s : list A) :
  insert_sorted_raising lt x l = Ok s → s ≡ₚ x :: l.
Proof.
  revert s. induction l as [|y l IH]; simpl; intros s Hs; [by inversion Hs|].
  destruct (lt y x) as [[|]|]; try done.
  - destruct (insert_sorted_raising lt x l) as [r|]; [|done].
    inversion Hs; subst. rewrite (IH r) by done. apply perm_swap.
  - by inversion Hs.
Qed.

Lemma isort_raising_Permutation {A : Type} (lt : A → A → outcome bool) (l s : list A) :
  isort_raising lt l = Ok s → s ≡ₚ l.
Proof.
  revert s. induction l as [|x l IH]; simpl; intros s Hs; [by inversion Hs|].
  destruct (isort_raising lt l) as [r|]; [|done].
  apply insert_sorted_raising_Permutation in Hs. rewrite Hs. by rewrite (IH r).
Qed.

(** With the hook of [inspect], the encoder returns what the plain encoder
    returns for the value whose sets were replaced by sorted lists, and fails
    where sorting a set fails. *)
Lemma iterencode_sets_sorted (d : nat) :
  ∀ o : pyval,
    well_formed o = true → (nesting o ≤ d)%nat →
    match sets_as_sorted_lists o with
    | Raise exc => json.iterencode d dump_custom_types o = Raise exc
    | Ok o' => ∃ s, json.iterencode d json.no_default o' = Ok s
                    ∧ json.iterencode d dump_custom_types o = Ok s
    end.
Proof.
  induction d as [|d IH]; intros o Hwf Hd.
  - destruct o; simpl in Hd; lia.
  - destruct o as [| |z|s|l|l|l|kvs]; simpl in Hwf, Hd.
    + simpl. eauto.
    + simpl. destruct b; eauto.
    + simpl. eauto.
    + simpl. eauto.
    + cbn [sets_as_sorted_lists json.iterencode].
      pose proof (mapM_outcome_stages sets_as_sorted_lists
                    (json.iterencode d json.no_default)
                    (json.iterencode d dump_custom_types) l) as Hst.
      destruct (mapM sets_as_sorted_lists l) as [l'|exc]; simpl.
      * destruct Hst as (ss & Hg & Hh).
        { intros x Hx. pose proof (foldr_max_elem nesting l x Hx).
          apply IH; [by eapply forallb_elem|lia]. }
        rewrite Hg, Hh; simpl. eauto.
      * rewrite Hst; [done|].
        intros x Hx. pose proof (foldr_max_elem nesting l x Hx).
        apply IH; [by eapply forallb_elem|lia].
    + cbn [sets_as_sorted_lists json.iterencode].
      pose proof (mapM_outcome_stages sets_as_sorted_lists
                    (json.iterencode d json.no_default)
                    (json.iterencode d dump_custom_types) l) as Hst.
      destruct (mapM sets_as_sorted_lists l) as [l'|exc]; simpl.
      * destruct Hst as (ss & Hg & Hh).
        { intros x Hx. pose proof (foldr_max_elem nesting l x Hx).
          apply IH; [by eapply forallb_elem|lia]. }
        rewrite Hg, Hh; simpl. eauto.
      * rewrite Hst; [done|].
        intros x Hx. pose proof (foldr_max_elem nesting l x Hx).
        apply IH; [by eapply forallb_elem|lia].
    + cbn [sets_as_sorted_lists json.iterencode dump_custom_types].
      destruct (sorted l) as [items|exc] eqn:Hsorted; simpl; [|done].
      apply isort_raising_Permutation in Hsorted.
      destruct d as [|d']; [lia|].
      assert (Hitems : ∀ x, x ∈ items → hashable x = true ∧ (nesting x ≤ d')%nat).
      { intros x Hx. rewrite Hsorted in Hx.
        pose proof (foldr_max_elem nesting l x Hx). split; [by eapply forallb_elem|lia]. }
      destruct (mapM_outcome_Ok (json.iterencode (S d') json.no_default) items) as [ss Hss].
      { intros x Hx. destruct (Hitems x Hx).
        apply hashable_iterencode_Ok; [done|lia]. }
      exists ("[" +:+ String.concat ", " ss +:+ "]").
      change (json.iterencode (S d') dump_custom_types (PList items))
        with (its ← mapM (json.iterencode d' dump_custom_types) items;
              Ok ("[" +:+ String.concat ", " its +:+ "]")).
      rewrite (mapM_outcome_ext (json.iterencode d' dump_custom_types)
                 (json.iterencode (S d') json.no_default)), Hss; [done|].
      intros x Hx. destruct (Hitems x Hx). apply hashable_iterencode_depth; [done|lia..].
    + cbn [sets_as_sorted_lists json.iterencode].
      pose proof (mapM_outcome_stages
                    (fun kv : string * pyval => v ← sets_as_sorted_lists kv.2; Ok (kv.1, v))
                    (fun kv : string * pyval =>
                       v ← json.iterencode d json.no_default kv.2;
                       Ok (json.encode_basestring_ascii kv.1 +:+ ": " +:+ v))
                    (fun kv : string * pyval =>
                       v ← json.iterencode d dump_custom_types kv.2;
                       Ok (json.encode_basestring_ascii kv.1 +:+ ": " +:+ v)) kvs) as Hst.
      assert (Hkv : ∀ x : string * pyval, x ∈ kvs →
                match v ← sets_as_sorted_lists x.2; Ok (x.1, v) with
                | Ok y => ∃ s, (v ← json.iterencode d json.no_default y.2;
                                Ok (json.encode_basestring_ascii y.1 +:+ ": " +:+ v)) = Ok s
                               ∧ (v ← json.iterencode d dump_custom_types x.2;
                                  Ok (json.encode_basestring_ascii x.1 +:+ ": " +:+ v)) = Ok s
                | Raise exc => (v ← json.iterencode d dump_custom_types x.2;
                                Ok (json.encode_basestring_ascii x.1 +:+ ": " +:+ v))
                               = Raise exc
                end).
      { intros [k v] Hx. cbn [fst snd].
        pose proof (foldr_max_elem (fun kv : string * pyval => nesting kv.2) kvs _ Hx) as Hn.
        pose proof (forallb_elem _ kvs _ Hwf Hx) as Hw. cbn [fst snd] in Hn, Hw.
        specialize (IH v Hw ltac:(lia)).
        destruct (sets_as_sorted_lists v) as [v'|exc]; simpl.
        - destruct IH as (s & Hg & Hh). rewrite Hg, Hh; simpl. eauto.
        - by rewrite IH. }
      specialize (Hst Hkv).
      destruct (mapM _ kvs) as [kvs'|exc]; simpl.
      * destruct Hst as (ss & Hg & Hh). rewrite Hg, Hh; simpl. eauto.
      * by rewrite Hst.
Qed.

Lemma insert_sorted_fmap {A B : Type} (f : A → B) (lt : A → A → bool) (lt' : B → B → bool)
    (x : A) (l : list A) :
  (∀ a b, lt' (f a) (f b) = lt a b) →
  insert_sorted lt' (f x) (f <$> l) = f <$> insert_sorted lt x l.
Proof.
  intros Hlt. induction l as [|y l IH]; csimpl; [done|].
  rewrite Hlt. destruct (lt y x); csimpl; [|done]. by rewrite IH.
Qed.

Lemma isort_fmap {A B : Type} (f : A → B) (lt : A → A → bool) (lt' : B → B → bool)
    (l : list A) :
  (∀ a b, lt' (f a) (f b) = lt a b) →
  isort lt' (f <$> l) = f <$> isort lt l.
Proof.
  intros Hlt. induction l as [|x l IH]; csimpl; [done|].
  rewrite IH. by apply insert_sorted_fmap.
Qed.

(** A set of strings is sorted into the ascending list of its elements. *)
Lemma sorted_strings (names : list string) :
  sorted (PStr <$> names) = Ok (PStr <$> isort String.ltb names)
  ∧ isort String.ltb names ≡ₚ names
  ∧ Sorted (fun s t => String.leb s t = true) (isort String.ltb names).
Proof.
  split; [|split].
  - set (ltb' := fun a b => match a, b with
                            | PStr s, PStr t => String.ltb s t
                            | _, _ => false
                            end).
    unfold sorted. rewrite (isort_raising_pure py_lt ltb').
    + f_equal. by apply isort_fmap.
    + intros x y (s & -> & _)%list_elem_of_fmap (t & -> & _)%list_elem_of_fmap. done.
  - apply isort_Permutation.
  - pose proof (isort_Sorted String.ltb string_ltb_asym names) as Hs.
    induction Hs as [|s l _ IH Hhd]; constructor; [done|].
    destruct Hhd as [|t l Hst]; constructor.
    unfold not_after, String.ltb in Hst. unfold String.leb.
    rewrite (String.compare_antisym s t). by destruct (String.compare t s).
Qed.

(** C8: when [inspect] runs with a non-empty [--json] path and the result of
    the API call is a Python value (the elements of its sets are hashable)
    that the interpreter's recursion limit lets the encoder traverse, the
    text [json.dumps] produces with the hook [dump_custom_types] is the plain
    JSON text of the value in which every set is replaced by the sorted list
    of its elements (a set of strings by their ascending list); the text is
    saved under the path itself when the path is absolute and under the
    current directory joined with the path otherwise; and when sorting a set
    fails nothing is written. *)
Theorem inspect_json_sorted_sets_and_path (path : string) (result : pyval) (w : world) :
  path ≠ "" →
  well_formed result = true →
  (nesting result ≤ recursion_limit w)%nat →
  let target := if posixpath.isabs path then path else posixpath.join (cwd w) path in
  json.dumps (recursion_limit w) result dump_custom_types
    = (o' ← sets_as_sorted_lists result; json.dumps (recursion_limit w) o' json.no_default)
  ∧ (∀ names, ∃ ascending,
       sets_as_sorted_lists (PSet (PStr <$> names)) = Ok (PList (PStr <$> ascending))
       ∧ ascending ≡ₚ names
       ∧ Sorted (fun s t => String.leb s t = true) ascending)
  ∧ (∀ text, json.dumps (recursion_limit w) result dump_custom_types = Ok text →
       inspect_json (PStr path) result w = (Ok PNone, save target text w)
       ∧ files (save target text w) !! target = Some text)
  ∧ (∀ exc, json.dumps (recursion_limit w) result dump_custom_types = Raise exc →
       inspect_json (PStr path) result w = (Raise exc, w)).
Proof.
  intros Hpath Hwf Hdepth target.
  assert (Htruthy : py_bool (PStr path) = true).
  { simpl. apply negb_true_iff. by apply String.eqb_neq. }
  split; [|split; [|split]].
  - unfold json.dumps.
    pose proof (iterencode_sets_sorted (recursion_limit w) result Hwf Hdepth) as Hagree.
    destruct (sets_as_sorted_lists result) as [o'|exc]; simpl; [|done].
    destruct Hagree as (s & Hplain & Hhook). by rewrite Hplain, Hhook.
  - intros names. exists (isort String.ltb names).
    destruct (sorted_strings names) as (Hsorted & Hperm & Hasc).
    split; [|done]. cbn [sets_as_sorted_lists]. by rewrite Hsorted.
  - intros text Htext. unfold inspect_json. rewrite Htruthy, Htext. split.
    + subst target. by destruct (posixpath.isabs path).
    + unfold save, set_files; simpl. apply lookup_insert_eq.
  - intros exc Hexc. unfold inspect_json. by rewrite Htruthy, Hexc.
Qed.

(** ** [get_matching_blocks] finishes *)

Lemma longest_match_row_in_window (alo ahi : nat) (js : list nat) (i blo bhi : nat) :
  (alo ≤ i < ahi)%nat →
  ∀ (j2len newj2len : gmap nat nat) (best : difflib.Match),
    runs_at_most (i - alo) j2len →
    runs_at_most (i + 1 - alo) newj2len →
    in_window alo ahi best →
    runs_at_most (i + 1 - alo) (difflib.longest_match_row js i blo bhi j2len newj2len best).1
    ∧ in_window alo ahi (difflib.longest_match_row js i blo bhi j2len newj2len best).2.
Proof.
  intros Hi. induction js as [|j js IH]; intros j2len newj2len best Hold Hnew Hbest; simpl.
  - done.
  - destruct (j <? blo)%nat; [by apply IH|].
    destruct (bhi <=? j)%nat; [done|].
    set (k := (match j with
               | O => 0
               | S j' => from_option id 0 (j2len !! j')
               end + 1)%nat).
    assert (Hk : (1 ≤ k ≤ i + 1 - alo)%nat).
    { subst k. destruct j as [|j']; [lia|].
      destruct (j2len !! j') as [v|] eqn:Hv; simpl; [|lia].
      apply Hold in Hv. lia. }
    apply IH; [done| |].
    + intros j0 k0. destruct (decide (j = j0)) as [->|Hne].
      * rewrite lookup_insert_eq. intros [= <-]. lia.
      * rewrite lookup_insert_ne by done. apply Hnew.
    + destruct (best.2 <? k)%nat; [|done].
      unfold in_window; simpl. lia.
Qed.

Lemma longest_match_rows_in_window (a b : list ascii) (alo ahi blo bhi : nat) (n : nat) :
  ∀ (i : nat) (j2len : gmap nat nat) (best : difflib.Match),
    (alo ≤ i)%nat → (i + n ≤ ahi)%nat →
    runs_at_most (i - alo) j2len →
    in_window alo ahi best →
    in_window alo ahi (difflib.longest_match_rows a b (seq i n) blo bhi j2len best).
Proof.
  induction n as [|n IH]; intros i j2len best Hlo Hhi Hruns Hbest; simpl; [done|].
  pose proof (longest_match_row_in_window alo ahi
                (match a !! i with Some elt => difflib.b2j_get b elt | None => [] end)
                i blo bhi ltac:(lia) j2len ∅ best Hruns) as Hrow.
  destruct (difflib.longest_match_row _ i blo bhi j2len ∅ best) as [newj2len best'].
  destruct Hrow as [Hnew Hbest']; [by intros j k; rewrite lookup_empty|done|].
  apply IH; [lia..| |done].
  simpl in Hnew. by replace (S i - alo)%nat with (i + 1 - alo)%nat by lia.
Qed.

Lemma extend_backwards_in_window (a b : list ascii) (alo ahi blo : nat) (n : nat) :
  ∀ best, in_window alo ahi best →
          in_window alo ahi (difflib.extend_backwards n a b alo blo best).
Proof.
  induction n as [|n IH]; intros [[besti bestj] bestsize] Hbest; simpl; [done|].
  destruct (_ && _ && _) eqn:Hcond; [|done].
  apply IH. apply andb_prop in Hcond as [[Hlo%Nat.ltb_lt _]%andb_prop _].
  unfold in_window in *; simpl in *. lia.
Qed.

Lemma extend_forwards_in_window (a b : list ascii) (alo ahi bhi : nat) (n : nat) :
  ∀ best, in_window alo ahi best →
          in_window alo ahi (difflib.extend_forwards n a b ahi bhi best).
Proof.
  induction n as [|n IH]; intros [[besti bestj] bestsize] Hbest; simpl; [done|].
  destruct (_ && _ && _) eqn:Hcond; [|done].
  apply IH. apply andb_prop in Hcond as [[Hhi%Nat.ltb_lt _]%andb_prop _].
  unfold in_window in *; simpl in *. lia.
Qed.

Lemma find_longest_match_in_window (a b : list ascii) (alo ahi blo bhi : nat) :
  (alo ≤ ahi)%nat →
  in_window alo ahi (difflib.find_longest_match a b alo ahi blo bhi).
Proof.
  intros Hle. unfold difflib.find_longest_match.
  apply extend_forwards_in_window, extend_backwards_in_window.
  apply longest_match_rows_in_window; [lia..| |].
  - by intros j k; rewrite lookup_empty.
  - unfold in_window; simpl. lia.
Qed.

Lemma matching_blocks_loop_finishes (a b : list ascii) (fuel : nat) :
  ∀ (queue : list (nat * nat * nat * nat)) (matching_blocks : list difflib.Match),
    Forall (fun w : nat * nat * nat * nat => w.1.1.1 ≤ w.1.1.2)%nat queue →
    (rounds queue ≤ fuel)%nat →
    is_Some (difflib.matching_blocks_loop fuel a b queue matching_blocks).
Proof.
  induction fuel as [|fuel IH]; intros queue blocks Hvalid Hfuel.
  - destruct queue as [|[[[alo ahi] blo] bhi] queue]; simpl in *; [eauto|lia].
  - destruct queue as [|[[[alo ahi] blo] bhi] queue]; [by eexists|].
    apply Forall_cons in Hvalid as [Hw Hvalid]. cbn [fst snd] in Hw.
    cbn [difflib.matching_blocks_loop].
    pose proof (find_longest_match_in_window a b alo ahi blo bhi Hw) as Hin.
    destruct (difflib.find_longest_match a b alo ahi blo bhi) as [[i j] k].
    unfold in_window in Hin; cbn [fst snd] in Hin.
    unfold rounds in Hfuel; cbn [sum_list_with fst snd] in Hfuel.
    fold (rounds queue) in Hfuel.
    destruct (k =? 0)%nat eqn:Hk.
    + apply IH; [done|lia].
    + apply Nat.eqb_neq in Hk.
      destruct ((alo <? i)%nat && (blo <? j)%nat) eqn:Hleft;
        destruct ((i + k <? ahi)%nat && (j + k <? bhi)%nat) eqn:Hright;
        (apply IH; [repeat (apply Forall_cons; split; [cbn [fst snd]; lia|]); done
                   |unfold rounds; cbn [sum_list_with fst snd]; fold (rounds queue); lia]).
Qed.

(** The loop of [get_matching_blocks] always runs to its end within the
    rounds the model allows it, so [ratio] counts the blocks of a finished
    search. *)
Lemma get_matching_blocks_is_Some (a b : list ascii) :
  is_Some (difflib.get_matching_blocks a b).
Proof.
  unfold difflib.get_matching_blocks. apply matching_blocks_loop_finishes.
  - repeat constructor. simpl. lia.
  - unfold rounds; simpl. lia.
Qed.

(** * The properties at concrete inputs *)

(** The command line [conan build .] reaches the handler of [build]. *)
Lemma build_handler_raises (exc : exn) :
  resolved_handler_raises (raising_command exc) [["build"; "."]] empty_world exc
    (set_allocated (fun n => n + 16)%nat empty_world).
Proof.
  exists ["build"; "."], "build".
  eexists. split; [reflexivity|]. split; [reflexivity|]. split; reflexivity.
Qed.

(** C2 at [conan build .] interrupted by the user: exit code 0. *)
Lemma run_KeyboardInterrupt_returns_SUCCESS_witness :
  run (codes := example_exit_codes)
      (raising_command (mk_exn KeyboardInterrupt PNone)) [["build"; "."]] empty_world
    = (Ok (PInt 0),
       mk_world [] [mk_exn KeyboardInterrupt PNone] [] ∅ "/home/user" 1000 17).
Proof.
  destruct (run_KeyboardInterrupt_returns_SUCCESS (codes := example_exit_codes)
              (raising_command (mk_exn KeyboardInterrupt PNone)) [["build"; "."]]
              empty_world (mk_exn KeyboardInterrupt PNone)
              (set_allocated (fun n => n + 16)%nat empty_world)
              (build_handler_raises _) eq_refl) as [Hrun _].
  exact Hrun.
Defined.

(** C1 at [conan build .] when the handler exits with code 2, the code
    argparse uses for a usage error: [run] returns 2. *)
Lemma run_SystemExit_returns_its_code_witness :
  run (codes := example_exit_codes)
      (raising_command (mk_exn SystemExit (PInt 2))) [["build"; "."]] empty_world
    = (Ok (PInt 2),
       mk_world [(LevelError, Text "Exiting with code: 2")] [mk_exn SystemExit (PInt 2)]
                [] ∅ "/home/user" 1000 17).
Proof.
  apply (run_SystemExit_returns_its_code (codes := example_exit_codes)
           (raising_command (mk_exn SystemExit (PInt 2))) [["build"; "."]]
           empty_world (mk_exn SystemExit (PInt 2))
           (set_allocated (fun n => n + 16)%nat empty_world) 2
           (build_handler_raises _) eq_refl eq_refl).
  discriminate.
Defined.

(** C1 as stated fails: no assignment of the failure codes makes [run] turn
    every non-zero exit code into [ERROR_GENERAL], since the exit codes 2 and
    3 are returned as 2 and 3. *)
Lemma run_SystemExit_not_always_ERROR_GENERAL :
  ¬ (∃ codes : exit_codes,
       ∀ (self : Command) (args : list (list string)) (w : world)
         (exc : exn) (w' : world) (c : Z),
         resolved_handler_raises self args w exc w' →
         exn_class exc = SystemExit → code exc = PInt c → c ≠ 0 →
         (run self args w).1 = Ok (PInt ERROR_GENERAL)).
Proof.
  intros [codes Hclaim].
  pose proof (Hclaim _ _ _ _ _ 2
                (build_handler_raises (mk_exn SystemExit (PInt 2))) eq_refl eq_refl
                ltac:(discriminate)) as H2.
  pose proof (Hclaim _ _ _ _ _ 3
                (build_handler_raises (mk_exn SystemExit (PInt 3))) eq_refl eq_refl
                ltac:(discriminate)) as H3.
  vm_compute in H2, H3. congruence.
Qed.

(** C3 at the mistyped command [biuld]. *)
Lemma run_unknown_command_is_ERROR_GENERAL_witness :
  run (codes := example_exit_codes) idle_command [["biuld"]] empty_world
    = (Ok (PInt 1),
       mk_world [(LevelError, SafeMessageOf (mk_exn KeyError (PStr "biuld")))] []
                [TracebackOf (mk_exn KeyError (PStr "biuld"))] ∅ "/home/user" 1000 17).
Proof.
  destruct (run_unknown_command_is_ERROR_GENERAL (codes := example_exit_codes)
              idle_command ["biuld"] [] "biuld" empty_world eq_refl eq_refl)
    as [Hrun _].
  exact Hrun.
Defined.

(** C3 as stated fails: for [biuld] the suggestion would name [build], and
    [run] writes no such line. *)
Lemma run_unknown_command_no_suggestion :
  ((LevelInfo, Text "    build")
     ∈ console (_print_similar idle_command "biuld" empty_world).2)
  ∧ ((LevelInfo, Text "    build")
       ∉ console (run (codes := example_exit_codes) idle_command [["biuld"]] empty_world).2)
  ∧ (run (codes := example_exit_codes) idle_command [["biuld"]] empty_world).1
      = Ok (PInt (@ERROR_GENERAL example_exit_codes)).
Proof.
  split; [|split].
  - vm_compute. apply list_elem_of_further, list_elem_of_here.
  - vm_compute. intros Hin. apply list_elem_of_singleton in Hin. discriminate Hin.
  - reflexivity.
Qed.

(** C4 at [-o a=1 -o:h b=2]: the shared destination holds both values in
    order. *)
Lemma Extender_collects_in_order_witness :
  ∃ namespace',
    parse_args install_parser
      [ mk_occurrence 2 "-o" (PList [PStr "a=1"]);
        mk_occurrence 3 "-o:h" (PList [PStr "b=2"]) ] = Ok namespace'
    ∧ namespace' !! "options_host" = Some (PList [PStr "a=1"; PStr "b=2"]).
Proof.
  destruct (Extender_collects_in_order install_parser (initial_namespace install_parser)
              "options_host"
              [ mk_occurrence 2 "-o" (PList [PStr "a=1"]);
                mk_occurrence 3 "-o:h" (PList [PStr "b=2"]) ]
              ltac:(discriminate) eq_refl eq_refl eq_refl)
    as (parser' & namespace' & collected & Hrun & Hlook & Hcollected & _).
  exists namespace'. unfold parse_args. rewrite Hrun. split; [reflexivity|].
  rewrite Hlook, Hcollected. reflexivity.
Defined.

(** C4 as stated fails: [--build --build missing] is two occurrences and
    leaves a list of one element; [-p a b] is one occurrence and leaves a
    list of two. *)
Lemma Extender_length_is_not_occurrences :
  (ns ← parse_args install_parser
          [ mk_occurrence 0 "--build" PNone;
            mk_occurrence 0 "--build" (PStr "missing") ];
   Ok (ns !! "build")) = Ok (Some (PList [PStr "missing"]))
  ∧ (ns ← parse_args remove_parser
            [ mk_occurrence 0 "-p" (PList [PStr "a"; PStr "b"]) ];
     Ok (ns !! "packages")) = Ok (Some (PList [PStr "a"; PStr "b"])).
Proof. split; reflexivity. Qed.

(** A value that is neither a string nor iterable escapes [Extender] as a
    [TypeError]: [list.extend] raises that class, and the [except] clause
    names [ValueError]. *)
Example Extender_type_mismatch_raises :
  Extender.__call__ (mk_Action ExtenderAction ["--jobs"] "jobs" PNone)
    (mk_ArgumentParser ∅ []) ∅ (PInt 4)
  = raise TypeError "'int' object is not iterable".
Proof. reflexivity. Qed.

(** C5 at [-r origin]: the single occurrence is stored; a further [-r other]
    is refused. *)
Lemma OnceArgument_second_occurrence_fails_witness :
  (∃ namespace',
     OnceArgument.__call__ (mk_Action OnceArgumentAction ["-r"; "--remote"] "remote" PNone)
       install_parser (initial_namespace install_parser) (PStr "origin") "-r"
       = Ok (install_parser, namespace')
     ∧ namespace' !! "remote" = Some (PStr "origin"))
  ∧ OnceArgument.__call__ (mk_Action OnceArgumentAction ["-r"; "--remote"] "remote" PNone)
      install_parser (<["remote" := PStr "origin"]> (initial_namespace install_parser))
      (PStr "other") "-r"
    = raise ArgumentError "-r can only be specified once".
Proof.
  split.
  - destruct (OnceArgument_second_occurrence_fails
                (mk_Action OnceArgumentAction ["-r"; "--remote"] "remote" PNone)
                install_parser (initial_namespace install_parser) PNone (PStr "origin") "-r"
                eq_refl) as [_ Hsingle].
    destruct (Hsingle eq_refl) as (namespace' & Hcall & Hlook & _). eauto.
  - destruct (OnceArgument_second_occurrence_fails
                (mk_Action OnceArgumentAction ["-r"; "--remote"] "remote" PNone)
                install_parser
                (<["remote" := PStr "origin"]> (initial_namespace install_parser))
                (PStr "origin") (PStr "other") "-r" ltac:(apply lookup_insert_eq))
      as [Hsecond _].
    apply Hsecond; [reflexivity|discriminate].
Defined.

(** C5 as stated fails: with the default ["auto"], [--mode fast --mode slow]
    is accepted, although the second occurrence finds ["fast"], which is
    neither the default nor [None], in the destination. *)
Lemma OnceArgument_non_None_default_accepts_second :
  (ns ← parse_args mode_parser [mk_occurrence 0 "--mode" (PStr "fast")];
   Ok (ns !! "mode")) = Ok (Some (PStr "fast"))
  ∧ (ns ← parse_args mode_parser
            [ mk_occurrence 0 "--mode" (PStr "fast");
              mk_occurrence 0 "--mode" (PStr "slow") ];
     Ok (ns !! "mode")) = Ok (Some (PStr "slow")).
Proof. split; reflexivity. Qed.

(** C10 at [--mode fast --mode slow] with the default ["auto"]. *)
Lemma OnceArgument_default_not_None_overwrites_witness :
  ∃ namespace1 namespace2,
    OnceArgument.__call__ mode_action mode_parser (initial_namespace mode_parser)
      (PStr "fast") "--mode" = Ok (mode_parser, namespace1)
    ∧ OnceArgument.__call__ mode_action mode_parser namespace1 (PStr "slow") "--mode"
      = Ok (mode_parser, namespace2)
    ∧ namespace2 !! "mode" = Some (PStr "slow").
Proof.
  destruct (OnceArgument_default_not_None_overwrites mode_action mode_parser
              (initial_namespace mode_parser) (PStr "auto") (PStr "fast") (PStr "slow")
              "--mode" eq_refl) as [Hoverwrite _].
  apply Hoverwrite. discriminate.
Defined.

(** C6 on the spec's example: [a] and [c] are registered, [b] is not. *)
Lemma _commands_registers_documented_public_witness :
  (∃ m, (_commands abc_command empty_world).1 !! "a" = Some m)
  ∧ (∃ m, (_commands abc_command empty_world).1 !! "c" = Some m)
  ∧ (_commands abc_command empty_world).1 !! "b" = None.
Proof.
  assert (Hnd : NoDup (methods abc_command).*1).
  { apply (bool_decide_unpack _). reflexivity. }
  assert (Hno : "export-pkg" ∉ (methods abc_command).*1).
  { apply (bool_decide_unpack _). reflexivity. }
  destruct (_commands_registers_documented_public abc_command empty_world Hnd Hno)
    as (Hiff & _ & _).
  split; [|split].
  - destruct (proj2 (Hiff "a" (mk_function (Some "docs") (fun _ w => (Ok PNone, w)))
                       ltac:(apply list_elem_of_here)) eq_refl) as (m & Hm & _).
    by exists m.
  - destruct (proj2 (Hiff "c" (mk_function (Some "more docs") (fun _ w => (Ok PNone, w)))
                       ltac:(do 2 apply list_elem_of_further; apply list_elem_of_here))
                    eq_refl) as (m & Hm & _).
    by exists m.
  - reflexivity.
Defined.

(** The registry of the spec's example has exactly the names [a] and [c],
    and the registry of the source's class its eleven public commands. *)
Example _commands_examples :
  dom (_commands abc_command empty_world).1 = {["a"; "c"]}
  ∧ dom (_commands idle_command empty_world).1
    = list_to_set ["build"; "create"; "download"; "editable"; "get"; "imports";
                   "inspect"; "remove"; "source"; "test"; "upload"].
Proof. split; by apply (bool_decide_unpack _). Qed.

(** The suggestion for [biuld] is [build], whose ratio is 4/5; a token that
    resembles nothing is answered with silence. *)
Example _print_similar_examples :
  difflib.ratio "build" "biuld" = (8 # 10)%Q
  ∧ difflib.get_close_matches "biuld" (keys (_commands idle_command empty_world).1) 5 (3 # 4)
    = Ok ["build"]
  ∧ console (_print_similar idle_command "biuld" empty_world).2
    = [ (LevelInfo, Text "The most similar command is");
        (LevelInfo, Text "    build");
        (LevelInfo, Text "") ]
  ∧ console (_print_similar idle_command "nonexistent-command" empty_world).2 = [].
Proof. repeat split; by vm_compute. Qed.

(** C8 at the attributes of a recipe and the relative path [out.json]: the
    file under the current directory receives the plain JSON text of the
    attributes with the settings as the list [arch], [compiler], [os]. *)
Lemma inspect_json_sorted_sets_and_path_witness :
  ∃ text,
    json.dumps 1000
      (PDict [ ("name", PStr "zlib");
               ("settings", PList [PStr "arch"; PStr "compiler"; PStr "os"]) ])
      json.no_default = Ok text
    ∧ inspect_json (PStr "out.json") zlib_attributes empty_world
      = (Ok PNone, save "/home/user/out.json" text empty_world).
Proof.
  destruct (inspect_json_sorted_sets_and_path "out.json" zlib_attributes empty_world
              ltac:(discriminate) eq_refl ltac:(vm_compute; lia))
    as (Hdumps & _ & Hsave & _).
  change (recursion_limit empty_world) with 1000%nat in Hdumps, Hsave.
  change (sets_as_sorted_lists zlib_attributes)
    with (Ok (PDict [ ("name", PStr "zlib");
                      ("settings", PList [PStr "arch"; PStr "compiler"; PStr "os"]) ]))
    in Hdumps.
  destruct (json.dumps 1000 zlib_attributes dump_custom_types) as [text|exc] eqn:Htext.
  - exists text. split; [by rewrite Hdumps|].
    by destruct (Hsave text eq_refl) as [-> _].
  - vm_compute in Htext. discriminate Htext.
Defined.

(** C7 at the mistyped command [biuld]: [build], whose ratio is 4/5, is
    selected and shown. *)
Lemma _print_similar_selects_close_matches_witness :
  ∃ matches,
    difflib.get_close_matches "biuld" (keys (_commands idle_command empty_world).1)
      5 (3 # 4) = Ok matches
    ∧ "build" ∈ matches
    ∧ console (_print_similar idle_command "biuld" empty_world).2 = similar_lines matches.
Proof.
  destruct (_print_similar_selects_close_matches idle_command "biuld" empty_world)
    as (matches & Hget & _ & Hlen & _ & Hcomplete & _ & _ & Hcon & _).
  exists matches. split; [exact Hget|]. split; [|exact Hcon].
  destruct (Hcomplete "build") as [Hin|[Hfive _]].
  - apply (bool_decide_unpack _). by vm_compute.
  - by vm_compute.
  - exact Hin.
  - vm_compute in Hget. injection Hget as <-. discriminate Hfive.
Defined.

(** * Further properties of the dispatcher *)

Section dispatcher_more.
Context `{codes : exit_codes}.

Lemma run_try_returns (self : Command) (args : list (list string)) (w : world)
    (v : pyval) (w' : world) :
  resolved_handler_returns self args w v w' →
  run_try self args w = (Ok v, w').
Proof.
  intros (argv & command & m & Hargs & Hargv & Hm & Hcall).
  unfold run_try. rewrite Hargs, Hargv.
  destruct (_commands self w) as [commands w1]; cbn [fst snd] in *. by rewrite Hm.
Qed.

(** What [run] does with the exception its [try] block ends in, by the class
    of the exception. *)
Lemma run_of_raised (self : Command) (args : list (list string)) (w : world)
    (exc : exn) (w' : world) :
  run_try self args w = (Raise exc, w') →
  run self args w =
    match exn_class exc with
    | KeyboardInterrupt => (Ok (PInt SUCCESS), logger_error exc w')
    | SystemExit =>
        if negb (py_eq (code exc) (PInt 0)) then
          match percent_d (code exc) with
          | Ok digits =>
              (Ok (code exc),
               ConanOutput.error (Text ("Exiting with code: " +:+ digits))
                 (logger_error exc w'))
          | Raise exc' => (Raise exc', logger_error exc w')
          end
        else (Ok (code exc), w')
    | ConanInvalidConfiguration =>
        (Ok (PInt ERROR_INVALID_CONFIGURATION), ConanOutput.error (StrOf exc) w')
    | ConanInvalidSystemRequirements =>
        (Ok (PInt ERROR_INVALID_SYSTEM_REQUIREMENTS), ConanOutput.error (StrOf exc) w')
    | ConanException => (Ok (PInt ERROR_GENERAL), ConanOutput.error (StrOf exc) w')
    | BaseException => (Raise exc, w')
    | _ =>
        (Ok (PInt ERROR_GENERAL),
         ConanOutput.error (SafeMessageOf exc) (print (TracebackOf exc) w'))
    end.
Proof.
  intros Htry. unfold run. rewrite Htry. unfold isinstance.
  destruct (exn_class exc); reflexivity.
Qed.

End dispatcher_more.

(** X2: when the resolved handler raises a Conan exception, [run] returns
    the code of its kind -- [ERROR_INVALID_CONFIGURATION] for
    [ConanInvalidConfiguration], [ERROR_INVALID_SYSTEM_REQUIREMENTS] for
    [ConanInvalidSystemRequirements], [ERROR_GENERAL] for any other
    [ConanException] -- and writes the exception's text once, at the error
    level, printing and logging nothing. *)
Theorem run_Conan_exceptions `{codes : exit_codes}
    (self : Command) (args : list (list string)) (w : world) (exc : exn) (w' : world) :
  resolved_handler_raises self args w exc w' →
  isinstance exc ConanException = true →
  run self args w
    = (Ok (PInt (match exn_class exc with
                 | ConanInvalidConfiguration => ERROR_INVALID_CONFIGURATION
                 | ConanInvalidSystemRequirements => ERROR_INVALID_SYSTEM_REQUIREMENTS
                 | _ => ERROR_GENERAL
                 end)),
       ConanOutput.error (StrOf exc) w')
  ∧ console (run self args w).2 = console w' ++ [(LevelError, StrOf exc)]
  ∧ printed (run self args w).2 = printed w'
  ∧ logged (run self args w).2 = logged w'.
Proof.
  intros Hraise Hclass.
  rewrite (run_of_raised _ _ _ _ _ (run_try_resolved _ _ _ _ _ Hraise)).
  unfold isinstance in Hclass.
  destruct (exn_class exc); try done.
Qed.

(** X3: when the resolved handler raises an exception that derives from
    [Exception] but is no Conan exception, [run] returns [ERROR_GENERAL],
    prints the traceback to standard output and writes the sanitised message
    at the error level. *)
Theorem run_unexpected_exception `{codes : exit_codes}
    (self : Command) (args : list (list string)) (w : world) (exc : exn) (w' : world) :
  resolved_handler_raises self args w exc w' →
  isinstance exc Exception = true →
  isinstance exc ConanException = false →
  run self args w
    = (Ok (PInt ERROR_GENERAL),
       ConanOutput.error (SafeMessageOf exc) (print (TracebackOf exc) w'))
  ∧ console (run self args w).2 = console w' ++ [(LevelError, SafeMessageOf exc)]
  ∧ printed (run self args w).2 = printed w' ++ [TracebackOf exc].
Proof.
  intros Hraise Hexc Hconan.
  rewrite (run_of_raised _ _ _ _ _ (run_try_resolved _ _ _ _ _ Hraise)).
  unfold isinstance in Hexc, Hconan.
  destruct (exn_class exc); try done.
Qed.

(** X4: when the resolved handler returns, [run] returns [SUCCESS] whatever
    the handler returned, and adds nothing to what the handler did. *)
Theorem run_handler_returns `{codes : exit_codes}
    (self : Command) (args : list (list string)) (w : world) (v : pyval) (w' : world) :
  resolved_handler_returns self args w v w' →
  run self args w = (Ok (PInt 0), w').
Proof.
  intros Hret. unfold run. by rewrite (run_try_returns _ _ _ _ _ Hret).
Qed.

(** X5: when the resolved handler raises [SystemExit] with a code equal to 0
    (the integer 0 or [False]), [run] returns that code and neither logs nor
    writes anything. *)
Theorem run_SystemExit_zero `{codes : exit_codes}
    (self : Command) (args : list (list string)) (w : world) (exc : exn) (w' : world) :
  resolved_handler_raises self args w exc w' →
  exn_class exc = SystemExit →
  as_int (code exc) = Some 0 →
  run self args w = (Ok (code exc), w').
Proof.
  intros Hraise Hclass Hcode.
  rewrite (run_of_raised _ _ _ _ _ (run_try_resolved _ _ _ _ _ Hraise)), Hclass.
  destruct (code exc) as [|[|]|z| | | | |]; try done; simpl in *.
  by injection Hcode as ->.
Qed.

(** What ["%d" % v] does: it formats exactly the numbers and the tuples of
    one number, and fails with [TypeError] otherwise. *)
Lemma percent_d_cases (v : pyval) :
  match percent_d_number v with
  | Some z => percent_d v = Ok (NilZero.string_of_int (Z.to_int z))
  | None => ∃ exc, percent_d v = Raise exc ∧ exn_class exc = TypeError
  end.
Proof.
  destruct v as [|b|z|s|l|l|l|kvs]; simpl; try (by eexists).
  destruct l as [|x [|y l]]; simpl; try (by eexists).
  - destruct (as_int x); [done|by eexists].
  - destruct (as_int x); by eexists.
Qed.

Lemma percent_d_number_None_neq_0 (v : pyval) :
  percent_d_number v = None → py_eq v (PInt 0) = false.
Proof. destruct v as [|[|]|z| | | | |]; simpl; try done. Qed.

(** X6: [run] does not always return a code.  It raises in exactly two
    cases: its [try] block ended in an exception that is a bare
    [BaseException], which passes through unchanged, or in a [SystemExit]
    whose code ["%d"] cannot format, that is, a code that is neither a number
    nor a tuple of one number ([sys.exit()] without argument, or with a
    message); then formatting the echo fails with [TypeError] after the exit
    has been logged. *)
Theorem run_raises_iff `{codes : exit_codes}
    (self : Command) (args : list (list string)) (w : world) (raised : exn) :
  (run self args w).1 = Raise raised
  ↔ ∃ exc w',
      run_try self args w = (Raise exc, w')
      ∧ ((exn_class exc = BaseException ∧ raised = exc ∧ (run self args w).2 = w')
         ∨ (exn_class exc = SystemExit ∧ percent_d_number (code exc) = None
            ∧ percent_d (code exc) = Raise raised ∧ exn_class raised = TypeError
            ∧ (run self args w).2 = logger_error exc w')).
Proof.
  split.
  - intros Hrun. unfold run in Hrun |- *.
    destruct (run_try self args w) as [[v|exc] w'] eqn:Htry; [done|].
    exists exc, w'. split; [done|]. revert Hrun. unfold isinstance.
    destruct (exn_class exc) eqn:Hclass; simpl; try done.
    + intros [= ->]. by left.
    + right. split; [done|].
      pose proof (percent_d_cases (code exc)) as Hcases.
      destruct (py_eq (code exc) (PInt 0)); simpl in *; [done|].
      destruct (percent_d_number (code exc)) as [z|].
      * rewrite Hcases in Hrun. done.
      * destruct Hcases as (exc' & Hraise & Hcls). rewrite Hraise in Hrun |- *.
        simpl in Hrun. injection Hrun as <-. done.
  - intros (exc & w' & Htry & [(Hclass & -> & _)|(Hclass & Hcode & Hraise & _ & _)]).
    + by rewrite (run_of_raised _ _ _ _ _ Htry), Hclass.
    + rewrite (run_of_raised _ _ _ _ _ Htry), Hclass.
      by rewrite (percent_d_number_None_neq_0 _ Hcode), Hraise.
Qed.

Lemma exit_codes_pairwise_distinct `{codes : exit_codes} :
  SUCCESS ≠ ERROR_GENERAL ∧ SUCCESS ≠ ERROR_INVALID_CONFIGURATION
  ∧ SUCCESS ≠ ERROR_INVALID_SYSTEM_REQUIREMENTS
  ∧ ERROR_GENERAL ≠ ERROR_INVALID_CONFIGURATION
  ∧ ERROR_GENERAL ≠ ERROR_INVALID_SYSTEM_REQUIREMENTS
  ∧ ERROR_INVALID_CONFIGURATION ≠ ERROR_INVALID_SYSTEM_REQUIREMENTS.
Proof.
  pose proof exit_codes_distinct as Hnd.
  apply NoDup_cons in Hnd as [H1 Hnd]. apply NoDup_cons in Hnd as [H2 Hnd].
  apply NoDup_cons in Hnd as [H3 _].
  apply not_elem_of_cons in H1 as [? H1]. apply not_elem_of_cons in H1 as [? H1].
  apply not_elem_of_cons in H1 as [? _].
  apply not_elem_of_cons in H2 as [? H2]. apply not_elem_of_cons in H2 as [? _].
  apply not_elem_of_cons in H3 as [? _].
  done.
Qed.

(** X7: the code [run] returns tells the kinds of failure apart.  When the
    resolved handler raises an exception other than [SystemExit] and a bare
    [BaseException], [run] returns [SUCCESS] only for [KeyboardInterrupt],
    [ERROR_INVALID_CONFIGURATION] only for [ConanInvalidConfiguration],
    [ERROR_INVALID_SYSTEM_REQUIREMENTS] only for
    [ConanInvalidSystemRequirements], and [ERROR_GENERAL] for everything
    else. *)
Theorem run_code_identifies_failure `{codes : exit_codes}
    (self : Command) (args : list (list string)) (w : world) (exc : exn) (w' : world) :
  resolved_handler_raises self args w exc w' →
  exn_class exc ≠ SystemExit →
  exn_class exc ≠ BaseException →
  ((run self args w).1 = Ok (PInt SUCCESS) ↔ exn_class exc = KeyboardInterrupt)
  ∧ ((run self args w).1 = Ok (PInt ERROR_INVALID_CONFIGURATION)
     ↔ exn_class exc = ConanInvalidConfiguration)
  ∧ ((run self args w).1 = Ok (PInt ERROR_INVALID_SYSTEM_REQUIREMENTS)
     ↔ exn_class exc = ConanInvalidSystemRequirements)
  ∧ ((run self args w).1 = Ok (PInt ERROR_GENERAL)
     ↔ exn_class exc ∉ [KeyboardInterrupt; ConanInvalidConfiguration;
                         ConanInvalidSystemRequirements]).
Proof.
  intros Hraise Hexit Hbase.
  rewrite (run_of_raised _ _ _ _ _ (run_try_resolved _ _ _ _ _ Hraise)).
  destruct exit_codes_pairwise_distinct as (H1 & H2 & H3 & H4 & H5 & H6).
  rewrite !elem_of_cons, elem_of_nil.
  destruct (exn_class exc); try done; cbn [fst];
    (repeat split; try (intros [= ?]); try done; try congruence; intuition congruence).
Qed.

(** X8: without a command token -- [run()] called with no argument vector,
    or with an empty one -- [run] returns [ERROR_GENERAL]: the [IndexError]
    of the failed subscript reaches the last [except] clause, and the
    registry is not built. *)
Theorem run_without_command `{codes : exit_codes}
    (self : Command) (more : list (list string)) (w : world) :
  (run self [] w).1 = Ok (PInt ERROR_GENERAL)
  ∧ (run self ([] :: more) w).1 = Ok (PInt ERROR_GENERAL)
  ∧ allocated (run self [] w).2 = allocated w
  ∧ allocated (run self ([] :: more) w).2 = allocated w
  ∧ console (run self ([] :: more) w).2
    = console w ++ [(LevelError,
                     SafeMessageOf (mk_exn IndexError (PStr "list index out of range")))].
Proof. repeat split. Qed.

(** No key of the registry begins with ['_'], and [export_pkg] is no key. *)
Lemma _commands_keys_public (self : Command) (w : world) (k : string) :
  is_Some ((_commands self w).1 !! k) → startswith k "_" = false ∧ k ≠ "export_pkg".
Proof.
  assert (Hfold : ∀ members (r : gmap string method),
            (∀ k, is_Some (r !! k) → startswith k "_" = false ∧ k ≠ "export_pkg") →
            ∀ k, is_Some (fold_left _commands_step members r !! k) →
                 startswith k "_" = false ∧ k ≠ "export_pkg").
  { induction members as [|[name m] members IH]; intros r Hr; simpl; [done|].
    apply IH. intros k'. rewrite _commands_step_eligible; simpl.
    destruct (eligible name (__func__ m)) eqn:Hel; [|apply Hr].
    destruct (decide (public_name name = k')) as [<-|Hne].
    - intros _. unfold eligible in Hel. apply andb_prop in Hel as [Hname _].
      apply negb_true_iff in Hname. unfold public_name.
      destruct (String.eqb_spec "export_pkg" name) as [<-|Hneq]; [done|].
      split; [done|]. by intros ->.
    - rewrite lookup_insert_ne by done. apply Hr. }
  unfold _commands. destruct (getmembers self w) as [members w1]; simpl.
  apply Hfold. intros k'. rewrite lookup_empty. by intros [? ?].
Qed.

(** X9: the underscore-prefixed methods of the class and the internal name
    [export_pkg] cannot be invoked from the command line: for such a token
    [run] calls no handler and returns [ERROR_GENERAL], whatever the class
    defines. *)
Theorem run_private_token `{codes : exit_codes}
    (self : Command) (argv : list string) (more : list (list string))
    (command : string) (w : world) :
  argv !! 0%nat = Some command →
  startswith command "_" = true ∨ command = "export_pkg" →
  (_commands self w).1 !! command = None
  ∧ run self (argv :: more) w
    = (Ok (PInt ERROR_GENERAL),
       ConanOutput.error (SafeMessageOf (mk_exn KeyError (PStr command)))
         (print (TracebackOf (mk_exn KeyError (PStr command))) (_commands self w).2)).
Proof.
  intros Hargv Hprivate.
  assert (Hnone : (_commands self w).1 !! command = None).
  { destruct ((_commands self w).1 !! command) as [m|] eqn:Hm; [|done].
    destruct (_commands_keys_public self w command) as [Hpub Hne]; [by rewrite Hm|].
    destruct Hprivate; congruence. }
  split; [done|]. unfold run. by rewrite (run_try_unknown _ _ _ _ _ Hargv Hnone).
Qed.

(** * Further properties of the two argparse actions *)

(** X1: [Extender] has no fallback for a number.  For an integer other than
    0 or for [True] (what a [type=] conversion can hand over) the call
    raises the [TypeError] of [list.extend]: the [except] clause names
    [ValueError], so the value is not appended as a single element. *)
Theorem Extender_number_raises_TypeError (self : Action) (parser : ArgumentParser)
    (namespace : Namespace) (values : pyval) (z : Z) :
  as_int values = Some z →
  z ≠ 0 →
  Extender.__call__ self parser namespace values
  = raise TypeError ("'" +:+ type_name values +:+ "' object is not iterable").
Proof.
  intros Hint Hz.
  assert (Hshape : isinstance_str values = false ∧ py_bool values = true
                   ∧ ∀ l, list_extend l values
                          = raise TypeError ("'" +:+ type_name values
                                             +:+ "' object is not iterable")).
  { destruct values as [|[|]|z'| | | | |]; simpl in Hint; try done.
    - by injection Hint as <-.
    - injection Hint as ->. simpl. by rewrite (proj2 (Z.eqb_neq z 0) Hz). }
  destruct Hshape as (Hstr & Htrue & Hext).
  unfold Extender.__call__.
  destruct (negb _ || _); rewrite Hstr, Htrue, Hext; reflexivity.
Qed.

Lemma py_eq_strings (l : list string) : py_eq (PList (PStr <$> l)) (PList (PStr <$> l)) = true.
Proof.
  simpl. induction l as [|s l IH]; csimpl; [done|].
  by rewrite String.eqb_refl, IH.
Qed.

(** X10: a list of strings declared as the default of an [Extender] flag is
    replaced, not extended, by the first occurrence: after a non-empty run of
    occurrences the destination holds the supplied values only, and the
    defaults of the destination have been reset to [None]. *)
Theorem Extender_default_list_replaced (parser : ArgumentParser) (namespace : Namespace)
    (d : string) (declared : list string) (first : occurrence) (rest : list occurrence)
    (a : Action) :
  _actions parser !! occ_action first = Some a →
  action a = ExtenderAction →
  dest a = d →
  default a = PList (PStr <$> declared) →
  namespace !! d = Some (default a) →
  forallb (extender_occurrence parser d) rest = true →
  forallb (fun o => argparse_values (occ_values o)) (first :: rest) = true →
  ∃ namespace',
    take_actions parser namespace (first :: rest)
      = Ok (set_defaults parser d PNone, namespace')
    ∧ namespace' !! d
      = Some (PList (concat (map (fun o => contribution (occ_values o)) (first :: rest)))).
Proof.
  intros Ha Hact Hd Hdef Hns Hrest Hshape. simpl in Hshape.
  apply andb_prop in Hshape as [Hv Hvs].
  assert (Hfirst : ∃ ns1, Extender.__call__ a parser namespace (occ_values first)
                          = Ok (set_defaults parser d PNone, ns1)
                          ∧ ns1 !! d = Some (PList (contribution (occ_values first)))).
  { unfold Extender.__call__, getattr. rewrite Hd, Hns, Hdef.
    cbn [hasattr_extend negb orb]. rewrite py_eq_strings.
    destruct (occ_values first) as [| | |s|l| | |]; try discriminate; simpl.
    - eexists; split; [reflexivity|]. apply lookup_insert_eq.
    - eexists; split; [reflexivity|]. apply lookup_insert_eq.
    - destruct l as [|x l]; simpl.
      + eexists; split; [reflexivity|]. apply lookup_insert_eq.
      + eexists; split; [reflexivity|]. apply lookup_insert_eq. }
  destruct Hfirst as (ns1 & Hcall & Hns1).
  destruct (Extender_take_actions_next parser d rest Hrest Hvs ns1 _ Hns1)
    as (ns2 & Hrun & Hns2).
  exists ns2. split; [|done].
  cbn [take_actions]. unfold take_action. by rewrite Ha, Hact, Hcall.
Qed.

(** The destinations a parser knows. *)
Lemma set_defaults_dests (parser : ArgumentParser) (d : string) (v : pyval) :
  dest <$> _actions (set_defaults parser d v) = dest <$> _actions parser.
Proof.
  unfold set_defaults; simpl. rewrite <- list_fmap_compose. apply list_fmap_ext.
  intros i a _; simpl. by destruct (String.eqb (dest a) d).
Qed.

Lemma take_action_frame (parser parser' : ArgumentParser) (namespace namespace' : Namespace)
    (o : occurrence) :
  take_action parser namespace o = Ok (parser', namespace') →
  dest <$> _actions parser' = dest <$> _actions parser
  ∧ ∀ name, name ∉ dest <$> _actions parser → namespace' !! name = namespace !! name.
Proof.
  unfold take_action.
  destruct (_actions parser !! occ_action o) as [self|] eqn:Hself; [|done].
  assert (Hin : dest self ∈ dest <$> _actions parser).
  { apply list_elem_of_fmap. exists self. split; [done|]. by eapply list_elem_of_lookup_2. }
  assert (Hset : ∀ (ns : Namespace) v name, name ∉ dest <$> _actions parser →
            setattr ns (dest self) v !! name = ns !! name).
  { intros ns v name Hname. unfold setattr. rewrite lookup_insert_ne; [done|].
    by intros <-. }
  destruct (action self).
  - unfold Extender.__call__.
    destruct (negb _ || _).
    + destruct (isinstance_str (occ_values o)).
      { intros [= <- <-]. split; [apply set_defaults_dests|].
        intros name Hname. by rewrite !Hset. }
      destruct (py_bool (occ_values o)).
      * destruct (list_extend [] (occ_values o)) as [l|exc].
        -- intros [= <- <-]. split; [apply set_defaults_dests|].
           intros name Hname. by rewrite !Hset.
        -- destruct (isinstance exc ValueError); [|done].
           intros [= <- <-]. split; [apply set_defaults_dests|].
           intros name Hname. by rewrite !Hset.
      * intros [= <- <-]. split; [apply set_defaults_dests|].
        intros name Hname. by rewrite !Hset.
    + destruct (isinstance_str (occ_values o)).
      { intros [= <- <-]. split; [done|]. intros name Hname. by rewrite !Hset. }
      destruct (py_bool (occ_values o)).
      * destruct (list_extend _ (occ_values o)) as [l|exc].
        -- intros [= <- <-]. split; [done|]. intros name Hname. by rewrite !Hset.
        -- destruct (isinstance exc ValueError); [|done].
           intros [= <- <-]. split; [done|]. intros name Hname. by rewrite !Hset.
      * intros [= <- <-]. done.
  - unfold OnceArgument.__call__.
    destruct (namespace !! dest self); [|done].
    destruct (negb _ && _); [done|].
    intros [= <- <-]. split; [done|]. intros name Hname. by rewrite Hset.
Qed.

(** X11: parsing touches only destinations.  Whatever occurrences are
    consumed, an attribute of the namespace that is the destination of no
    registered action keeps its value, and the parser keeps its actions'
    destinations. *)
Theorem take_actions_frame (occurrences : list occurrence) :
  ∀ (parser parser' : ArgumentParser) (namespace namespace' : Namespace),
    take_actions parser namespace occurrences = Ok (parser', namespace') →
    dest <$> _actions parser' = dest <$> _actions parser
    ∧ ∀ name, name ∉ dest <$> _actions parser → namespace' !! name = namespace !! name.
Proof.
  induction occurrences as [|o rest IH]; intros parser parser' ns ns'; simpl.
  - by intros [= <- <-].
  - destruct (take_action parser ns o) as [[p1 ns1]|exc] eqn:Hstep; [|done].
    intros Hrest. apply take_action_frame in Hstep as [Hd1 Hn1].
    apply IH in Hrest as [Hd2 Hn2]. split; [congruence|].
    intros name Hname. rewrite Hn2, Hn1; [done..|]. by rewrite Hd1.
Qed.


(** * The further properties at concrete command lines *)

(** [conan build .] with handlers that return: the [build] handler is the
    one called. *)
Lemma build_handler_returns :
  resolved_handler_returns idle_command [["build"; "."]] empty_world PNone
    (set_allocated (fun n => n + 16)%nat empty_world).
Proof.
  exists ["build"; "."], "build".
  eexists. split; [reflexivity|]. split; [reflexivity|]. split; reflexivity.
Qed.

(** X2 at [conan build .] failing with [ConanInvalidConfiguration]: exit
    code 6 of the example assignment. *)
Lemma run_Conan_exceptions_witness :
  run (codes := example_exit_codes)
      (raising_command (mk_exn ConanInvalidConfiguration (PStr "unsupported compiler")))
      [["build"; "."]] empty_world
    = (Ok (PInt 6),
       mk_world [(LevelError,
                  StrOf (mk_exn ConanInvalidConfiguration (PStr "unsupported compiler")))]
                [] [] ∅ "/home/user" 1000 17).
Proof.
  destruct (run_Conan_exceptions (codes := example_exit_codes) _ _ _ _ _
              (build_handler_raises
                 (mk_exn ConanInvalidConfiguration (PStr "unsupported compiler")))
              eq_refl) as [Hrun _].
  exact Hrun.
Defined.

(** X3 at [conan build .] failing with a [ValueError]. *)
Lemma run_unexpected_exception_witness :
  run (codes := example_exit_codes)
      (raising_command (mk_exn ValueError (PStr "bad value"))) [["build"; "."]] empty_world
    = (Ok (PInt 1),
       mk_world [(LevelError, SafeMessageOf (mk_exn ValueError (PStr "bad value")))]
                [] [TracebackOf (mk_exn ValueError (PStr "bad value"))]
                ∅ "/home/user" 1000 17).
Proof.
  destruct (run_unexpected_exception (codes := example_exit_codes) _ _ _ _ _
              (build_handler_raises (mk_exn ValueError (PStr "bad value")))
              eq_refl eq_refl) as [Hrun _].
  exact Hrun.
Defined.

(** X4 at [conan build .] with a handler that returns. *)
Lemma run_handler_returns_witness :
  run (codes := example_exit_codes) idle_command [["build"; "."]] empty_world
    = (Ok (PInt 0), mk_world [] [] [] ∅ "/home/user" 1000 17).
Proof.
  exact (run_handler_returns (codes := example_exit_codes) _ _ _ _ _ build_handler_returns).
Defined.

(** X5 at [sys.exit(False)]: [False] is returned, nothing is reported. *)
Lemma run_SystemExit_zero_witness :
  run (codes := example_exit_codes)
      (raising_command (mk_exn SystemExit (PBool false))) [["build"; "."]] empty_world
    = (Ok (PBool false), mk_world [] [] [] ∅ "/home/user" 1000 17).
Proof.
  exact (run_SystemExit_zero (codes := example_exit_codes) _ _ _ _ _
           (build_handler_raises (mk_exn SystemExit (PBool false))) eq_refl eq_refl).
Defined.

(** X7 at [conan build .] failing with [ConanInvalidSystemRequirements]: the
    code is 7, and is none of 0, 6 and 1. *)
Lemma run_code_identifies_failure_witness :
  (run (codes := example_exit_codes)
       (raising_command (mk_exn ConanInvalidSystemRequirements (PStr "apt failed")))
       [["build"; "."]] empty_world).1 = Ok (PInt 7)
  ∧ (run (codes := example_exit_codes)
         (raising_command (mk_exn ConanInvalidSystemRequirements (PStr "apt failed")))
         [["build"; "."]] empty_world).1 ≠ Ok (PInt 1).
Proof.
  destruct (run_code_identifies_failure (codes := example_exit_codes) _ _ _ _ _
              (build_handler_raises
                 (mk_exn ConanInvalidSystemRequirements (PStr "apt failed")))
              ltac:(discriminate) ltac:(discriminate)) as (_ & _ & Hsys & Hgeneral).
  split.
  - by apply Hsys.
  - intros H. apply Hgeneral in H. apply H.
    do 2 apply list_elem_of_further. apply list_elem_of_here.
Defined.

(** X9 at [conan _commands]: the helper of the class is no command. *)
Lemma run_private_token_witness :
  (_commands idle_command empty_world).1 !! "_commands" = None
  ∧ (run (codes := example_exit_codes) idle_command [["_commands"]] empty_world).1
    = Ok (PInt 1).
Proof.
  destruct (run_private_token (codes := example_exit_codes) idle_command ["_commands"] []
              "_commands" empty_world eq_refl (or_introl eq_refl)) as [Hnone Hrun].
  split; [exact Hnone|]. by rewrite Hrun.
Defined.

(** X1 at [--jobs 4] declared with [type=int]. *)
Lemma Extender_number_raises_TypeError_witness :
  Extender.__call__ (mk_Action ExtenderAction ["--jobs"] "jobs" PNone)
    (mk_ArgumentParser ∅ []) ∅ (PInt 4)
  = raise TypeError "'int' object is not iterable".
Proof.
  exact (Extender_number_raises_TypeError
           (mk_Action ExtenderAction ["--jobs"] "jobs" PNone)
           (mk_ArgumentParser ∅ []) ∅ (PInt 4) 4 eq_refl ltac:(discriminate)).
Defined.

(** X10 at [-g cmake] for a flag declared with [default=["txt"]]: the
    destination holds [cmake] alone. *)
Lemma Extender_default_list_replaced_witness :
  ∃ namespace',
    take_actions
      (mk_ArgumentParser ∅
         [mk_Action ExtenderAction ["-g"; "--generator"] "generator" (PList [PStr "txt"])])
      (<["generator" := PList [PStr "txt"]]> ∅)
      [mk_occurrence 0 "-g" (PList [PStr "cmake"])]
    = Ok (mk_ArgumentParser (<["generator" := PNone]> ∅)
            [mk_Action ExtenderAction ["-g"; "--generator"] "generator" PNone],
          namespace')
    ∧ namespace' !! "generator" = Some (PList [PStr "cmake"]).
Proof.
  exact (Extender_default_list_replaced
           (mk_ArgumentParser ∅
              [mk_Action ExtenderAction ["-g"; "--generator"] "generator"
                 (PList [PStr "txt"])])
           (<["generator" := PList [PStr "txt"]]> ∅) "generator" ["txt"]
           (mk_occurrence 0 "-g" (PList [PStr "cmake"])) []
           (mk_Action ExtenderAction ["-g"; "--generator"] "generator" (PList [PStr "txt"]))
           eq_refl eq_refl eq_refl eq_refl ltac:(apply lookup_insert_eq) eq_refl eq_refl).
Defined.

(** X11 at [-o a=1] on a namespace that also carries [verbose], which is no
    destination of the parser. *)
Lemma take_actions_frame_witness :
  ∃ parser' namespace',
    take_actions install_parser (<["verbose" := PBool true]> ∅)
      [mk_occurrence 2 "-o" (PList [PStr "a=1"])] = Ok (parser', namespace')
    ∧ namespace' !! "verbose" = Some (PBool true).
Proof.
  destruct (take_actions install_parser (<["verbose" := PBool true]> ∅)
              [mk_occurrence 2 "-o" (PList [PStr "a=1"])])
    as [[parser' namespace']|exc] eqn:Hrun.
  - destruct (take_actions_frame _ _ _ _ _ Hrun) as [_ Hframe].
    exists parser', namespace'. split; [reflexivity|].
    rewrite Hframe; [apply lookup_insert_eq|].
    apply (bool_decide_unpack _). reflexivity.
  - vm_compute in Hrun. discriminate Hrun.
Defined.


(** * Accumulating options with several destinations *)

Lemma extender_of_set_defaults (parser : ArgumentParser) (d : string) (v : pyval)
    (o : occurrence) :
  extender_of (set_defaults parser d v) o = extender_of parser o.
Proof.
  unfold extender_of. rewrite set_defaults_lookup.
  destruct (_actions parser !! occ_action o) as [a|]; simpl; [|done].
  by destruct (String.eqb (dest a) d).
Qed.

Lemma extender_occurrence_after_set_defaults (parser : ArgumentParser) (d0 d : string)
    (v : pyval) (o : occurrence) :
  extender_occurrence (set_defaults parser d0 v) d o = extender_occurrence parser d o.
Proof.
  unfold extender_occurrence. rewrite set_defaults_lookup.
  destruct (_actions parser !! occ_action o) as [a|]; simpl; [|done].
  by destruct (String.eqb (dest a) d0).
Qed.

Lemma extenders_default_None_set_defaults (parser : ArgumentParser) (d : string) :
  extenders_default_None parser → extenders_default_None (set_defaults parser d PNone).
Proof.
  intros Hnone a' Hin Hact. unfold set_defaults in Hin; simpl in Hin.
  apply list_elem_of_fmap in Hin as (a & -> & Hin).
  destruct (String.eqb (dest a) d); [done|]. by apply Hnone.
Qed.

(** One call of an [Extender] declared with the default [None]: the
    destination holds what it held as a list, followed by the contribution;
    every other attribute is as before. *)
Lemma Extender_call_frame (self : Action) (parser : ArgumentParser)
    (namespace : Namespace) (values : pyval) :
  default self = PNone →
  argparse_values values = true →
  ∃ parser' namespace',
    Extender.__call__ self parser namespace values = Ok (parser', namespace')
    ∧ (parser' = parser ∨ parser' = set_defaults parser (dest self) PNone)
    ∧ namespace' !! dest self
      = Some (PList (held namespace (dest self) ++ contribution values))
    ∧ ∀ d, d ≠ dest self → namespace' !! d = namespace !! d.
Proof.
  intros Hdef Hshape. unfold Extender.__call__, getattr, held, setattr. rewrite Hdef.
  assert (Hother : ∀ (ns : Namespace) v d, d ≠ dest self →
            <[dest self := v]> ns !! d = ns !! d).
  { intros ns v d Hd. by rewrite lookup_insert_ne. }
  destruct (namespace !! dest self) as [cur|] eqn:Hcur.
  - destruct (hasattr_extend cur) eqn:Hext.
    + destruct cur; try discriminate. cbn [negb orb py_eq].
      destruct values as [| | |s|l'| | |]; try discriminate; cbn.
      * do 2 eexists. split; [reflexivity|]. split; [by left|].
        split; [by rewrite app_nil_r|done].
      * do 2 eexists. split; [reflexivity|]. split; [by left|].
        split; [apply lookup_insert_eq|]. intros d Hd. by rewrite Hother.
      * destruct l' as [|x l']; cbn.
        -- do 2 eexists. split; [reflexivity|]. split; [by left|].
           split; [by rewrite app_nil_r|done].
        -- do 2 eexists. split; [reflexivity|]. split; [by left|].
           split; [apply lookup_insert_eq|]. intros d Hd. by rewrite Hother.
    + assert (Hheld : match cur with PList l => l | _ => [] end = []).
      { by destruct cur. }
      rewrite Hheld. cbn [negb orb].
      destruct values as [| | |s|l'| | |]; try discriminate; cbn.
      * do 2 eexists. split; [reflexivity|]. split; [by right|].
        split; [apply lookup_insert_eq|]. intros d Hd. by rewrite Hother.
      * do 2 eexists. split; [reflexivity|]. split; [by right|].
        split; [apply lookup_insert_eq|]. intros d Hd. by rewrite !Hother.
      * destruct l' as [|x l']; cbn.
        -- do 2 eexists. split; [reflexivity|]. split; [by right|].
           split; [apply lookup_insert_eq|]. intros d Hd. by rewrite Hother.
        -- do 2 eexists. split; [reflexivity|]. split; [by right|].
           split; [apply lookup_insert_eq|]. intros d Hd. by rewrite !Hother.
  - cbn [hasattr_extend negb orb].
    destruct values as [| | |s|l'| | |]; try discriminate; cbn.
    * do 2 eexists. split; [reflexivity|]. split; [by right|].
      split; [apply lookup_insert_eq|]. intros d Hd. by rewrite Hother.
    * do 2 eexists. split; [reflexivity|]. split; [by right|].
      split; [apply lookup_insert_eq|]. intros d Hd. by rewrite !Hother.
    * destruct l' as [|x l']; cbn.
      -- do 2 eexists. split; [reflexivity|]. split; [by right|].
         split; [apply lookup_insert_eq|]. intros d Hd. by rewrite Hother.
      -- do 2 eexists. split; [reflexivity|]. split; [by right|].
         split; [apply lookup_insert_eq|]. intros d Hd. by rewrite !Hother.
Qed.

(** The action loop over occurrences of [Extender] actions declared with
    the default [None]: every attribute is untouched if no occurrence has it
    as destination, and is otherwise the list it held before followed by
    the contributions of its own occurrences. *)
Lemma take_actions_extenders (occurrences : list occurrence) :
  ∀ (parser : ArgumentParser) (namespace : Namespace),
    extenders_default_None parser →
    forallb (fun o => extender_of parser o && argparse_values (occ_values o)) occurrences
      = true →
    ∃ parser' namespace',
      take_actions parser namespace occurrences = Ok (parser', namespace')
      ∧ ∀ d,
          namespace' !! d =
            match filter (fun o => extender_occurrence parser d o = true) occurrences with
            | [] => namespace !! d
            | mine =>
                Some (PList (held namespace d
                             ++ concat (map (fun o => contribution (occ_values o)) mine)))
            end.
Proof.
  induction occurrences as [|o rest IH]; intros parser namespace Hnone Hocc.
  - exists parser, namespace. split; [done|]. intros d. done.
  - simpl in Hocc. apply andb_prop in Hocc as [Ho Hrest].
    apply andb_prop in Ho as [Hext Hshape].
    unfold extender_of in Hext.
    destruct (_actions parser !! occ_action o) as [self|] eqn:Hself; [|done].
    destruct (action self) eqn:Hact; [|done].
    assert (Hdef : default self = PNone).
    { apply Hnone; [|done]. by eapply list_elem_of_lookup_2. }
    destruct (Extender_call_frame self parser namespace (occ_values o) Hdef Hshape)
      as (p1 & ns1 & Hcall & Hp1 & Hmine & Hframe).
    assert (Hnone1 : extenders_default_None p1).
    { destruct Hp1 as [->| ->]; [done|]. by apply extenders_default_None_set_defaults. }
    assert (Hsame : ∀ d o', extender_occurrence p1 d o' = extender_occurrence parser d o').
    { intros d o'. destruct Hp1 as [->| ->]; [done|].
      apply extender_occurrence_after_set_defaults. }
    assert (Hrest1 : forallb (fun o => extender_of p1 o && argparse_values (occ_values o))
                       rest = true).
    { destruct Hp1 as [->| ->]; [done|].
      apply forallb_forall. intros o' Hin. rewrite extender_of_set_defaults.
      by apply (proj1 (forallb_forall _ _) Hrest). }
    destruct (IH p1 ns1 Hnone1 Hrest1) as (p' & ns' & Hrun & Hfinal).
    exists p', ns'. split.
    { cbn [take_actions]. unfold take_action. by rewrite Hself, Hact, Hcall. }
    intros d. rewrite Hfinal.
    assert (Hfilter : filter (fun o' => extender_occurrence p1 d o' = true) rest
                      = filter (fun o' => extender_occurrence parser d o' = true) rest).
    { apply list_filter_iff. intros o'. by rewrite Hsame. }
    rewrite Hfilter.
    assert (Ho : extender_occurrence parser d o = String.eqb (dest self) d).
    { unfold extender_occurrence. by rewrite Hself, Hact. }
    destruct (String.eqb (dest self) d) eqn:Hd.
    + apply String.eqb_eq in Hd as <-.
      rewrite filter_cons_True by (by rewrite Ho).
      generalize (filter (fun o' => extender_occurrence parser (dest self) o' = true) rest).
      intros [|o1 mine].
      * rewrite Hmine.
        change (concat (map (fun o => contribution (occ_values o)) [o]))
          with (contribution (occ_values o) ++ []).
        by rewrite (app_nil_r (contribution (occ_values o))).
      * unfold held at 1. rewrite Hmine.
        change (concat (map (fun o => contribution (occ_values o)) (o :: o1 :: mine)))
          with (contribution (occ_values o)
                ++ concat (map (fun o => contribution (occ_values o)) (o1 :: mine))).
        by rewrite app_assoc.
    + apply String.eqb_neq in Hd.
      rewrite filter_cons_False by (rewrite Ho; done).
      unfold held. rewrite (Hframe d) by done. done.
Qed.

(** X13: accumulating options with different destinations do not interfere.
    When the [Extender] actions are declared with the default [None], the
    parse accepts any sequence of their occurrences, and every attribute of
    the result is as follows: what the initial namespace has if no
    occurrence has it as destination, and otherwise the list of the
    contributions of its own occurrences, in command-line order (after the
    elements of a list the initial namespace held there). *)
Theorem Extender_destinations_independent (parser : ArgumentParser)
    (occurrences : list occurrence) :
  extenders_default_None parser →
  forallb (fun o => extender_of parser o && argparse_values (occ_values o)) occurrences
    = true →
  ∃ namespace',
    parse_args parser occurrences = Ok namespace'
    ∧ ∀ d,
        namespace' !! d =
          match filter (fun o => extender_occurrence parser d o = true) occurrences with
          | [] => initial_namespace parser !! d
          | mine =>
              Some (PList (held (initial_namespace parser) d
                           ++ concat (map (fun o => contribution (occ_values o)) mine)))
          end.
Proof.
  intros Hnone Hocc.
  destruct (take_actions_extenders occurrences parser (initial_namespace parser) Hnone Hocc)
    as (parser' & namespace' & Hrun & Hfinal).
  exists namespace'. unfold parse_args. rewrite Hrun. by split.
Qed.

(** * [_add_profile_arguments] *)

Lemma _add_profile_arguments_declarations :
  _add_profile_arguments = add_arguments profile_declarations.
Proof. reflexivity. Qed.

Lemma filter_nil_existsb {A : Type} (P : A → Prop) `{∀ x, Decision (P x)} (l : list A) :
  filter P l = [] ↔ existsb (fun x => bool_decide (P x)) l = false.
Proof.
  induction l as [|x l IH]; [done|].
  simpl. destruct (decide (P x)) as [Hx|Hx].
  - rewrite filter_cons_True by done. rewrite bool_decide_eq_true_2 by done. done.
  - rewrite filter_cons_False by done. rewrite bool_decide_eq_false_2 by done. done.
Qed.

Lemma add_argument_free (flags : list string) (d : string) (default_kw : option pyval)
    (parser : ArgumentParser) :
  existsb (fun s => bool_decide (s ∈ _option_string_actions parser)) flags = false →
  add_argument flags ExtenderAction d default_kw parser
  = (Ok (), mk_ArgumentParser (_defaults parser)
              (_actions parser
               ++ [declared (_defaults parser) (mk_declaration flags d default_kw)])).
Proof.
  intros Hfree. unfold add_argument.
  by rewrite (proj2 (filter_nil_existsb _ flags) Hfree).
Qed.

Lemma add_argument_conflict (flags : list string) (d : string) (default_kw : option pyval)
    (parser : ArgumentParser) :
  existsb (fun s => bool_decide (s ∈ _option_string_actions parser)) flags = true →
  ∃ exc, exn_class exc = ArgumentError
         ∧ add_argument flags ExtenderAction d default_kw parser = (Raise exc, parser).
Proof.
  intros Hconflict. unfold add_argument.
  destruct (filter _ flags) as [|s1 [|s2 more]] eqn:Hfilter.
  - apply filter_nil_existsb in Hfilter. congruence.
  - eexists. split; [|reflexivity]. reflexivity.
  - eexists. split; [|reflexivity]. reflexivity.
Qed.

Lemma first_conflict_disjoint (declarations : list declaration) (strings added : list string) :
  (∀ s, s ∈ added → s ∉ flat_map decl_flags declarations) →
  first_conflict (strings ++ added) declarations = first_conflict strings declarations.
Proof.
  induction declarations as [|decl rest IH]; intros Hdisjoint; [done|].
  simpl.
  assert (Hsame : existsb (fun s => bool_decide (s ∈ strings ++ added)) (decl_flags decl)
                  = existsb (fun s => bool_decide (s ∈ strings)) (decl_flags decl)).
  { assert (Hin : ∀ s, s ∈ decl_flags decl → s ∉ added).
    { intros s Hs Hadded. apply (Hdisjoint s Hadded). simpl. apply elem_of_app. by left. }
    induction (decl_flags decl) as [|s flags IHf]; [done|].
    simpl. rewrite IHf by (intros s' Hs'; apply Hin; by apply list_elem_of_further).
    f_equal. apply bool_decide_ext. rewrite elem_of_app.
    specialize (Hin s ltac:(apply list_elem_of_here)). tauto. }
  rewrite Hsame, IH; [done|].
  intros s Hs Hrest. apply (Hdisjoint s Hs). simpl. apply elem_of_app. by right.
Qed.

Lemma add_arguments_cons (decl : declaration) (rest : list declaration)
    (parser : ArgumentParser) :
  add_arguments (decl :: rest) parser
  = match add_argument (decl_flags decl) ExtenderAction (decl_dest decl)
            (decl_default decl) parser with
    | (Ok _, parser') => add_arguments rest parser'
    | (Raise exc, parser') => (Raise exc, parser')
    end.
Proof. reflexivity. Qed.

(** A run of declarations with distinct flags: every declaration before the
    first one that conflicts with the parser is registered, and the run ends
    there. *)
Lemma add_arguments_run (declarations : list declaration) :
  ∀ parser,
    NoDup (flat_map decl_flags declarations) →
    match first_conflict (_option_string_actions parser) declarations with
    | None =>
        add_arguments declarations parser
        = (Ok (), mk_ArgumentParser (_defaults parser)
                    (_actions parser ++ map (declared (_defaults parser)) declarations))
    | Some k =>
        ∃ exc, exn_class exc = ArgumentError
               ∧ add_arguments declarations parser
                 = (Raise exc,
                    mk_ArgumentParser (_defaults parser)
                      (_actions parser
                       ++ map (declared (_defaults parser)) (take k declarations)))
    end.
Proof.
  induction declarations as [|decl rest IH]; intros parser Hdistinct.
  - simpl. destruct parser. by rewrite app_nil_r.
  - simpl in Hdistinct. apply NoDup_app in Hdistinct as (_ & Hdisjoint & Hrest).
    rewrite add_arguments_cons. cbn [first_conflict].
    destruct (existsb _ (decl_flags decl)) eqn:Hconflict.
    + destruct (add_argument_conflict _ (decl_dest decl) (decl_default decl) _ Hconflict)
        as (exc & Hclass & ->).
      exists exc. split; [done|]. simpl. destruct parser. by rewrite app_nil_r.
    + rewrite (add_argument_free _ (decl_dest decl) (decl_default decl) _ Hconflict).
      set (parser1 := mk_ArgumentParser _ _).
      specialize (IH parser1 Hrest).
      assert (Hstrings : _option_string_actions parser1
                         = _option_string_actions parser ++ decl_flags decl).
      { unfold _option_string_actions, parser1. cbn [_actions].
        rewrite flat_map_app. simpl. by rewrite app_nil_r. }
      rewrite Hstrings, first_conflict_disjoint in IH by done.
      destruct (first_conflict (_option_string_actions parser) rest) as [k|]; simpl.
      * destruct IH as (exc & Hclass & ->). exists exc. split; [done|].
        unfold parser1; cbn [_defaults _actions]. rewrite <- app_assoc.
        by destruct decl.
      * rewrite IH. unfold parser1; cbn [_defaults _actions]. rewrite <- app_assoc.
        by destruct decl.
Qed.

Lemma first_conflict_None (strings : list string) (declarations : list declaration) :
  first_conflict strings declarations = None
  ↔ ∀ s, s ∈ flat_map decl_flags declarations → s ∉ strings.
Proof.
  induction declarations as [|decl rest IH]; simpl.
  - split; [|done]. intros _ s Hs. by apply elem_of_nil in Hs.
  - destruct (existsb _ (decl_flags decl)) eqn:Hconflict.
    + split; [done|]. intros Hfree.
      apply existsb_exists in Hconflict as (s & Hs & Hin).
      apply bool_decide_eq_true in Hin. exfalso.
      apply (Hfree s); [|done]. apply elem_of_app. left. by apply list_elem_of_In.
    + rewrite fmap_None, IH. split.
      * intros Hfree s [Hs|Hs]%elem_of_app; [|by apply Hfree].
        intros Hin. apply not_true_iff_false in Hconflict. apply Hconflict.
        apply existsb_exists. exists s. split; [by apply list_elem_of_In|].
        by apply bool_decide_eq_true.
      * intros Hfree s Hs. apply Hfree. apply elem_of_app. by right.
Qed.

Lemma first_conflict_Some (strings : list string) (declarations : list declaration)
    (k : nat) :
  first_conflict strings declarations = Some k →
  (∃ decl s, declarations !! k = Some decl ∧ s ∈ decl_flags decl ∧ s ∈ strings)
  ∧ ∀ s, s ∈ flat_map decl_flags (take k declarations) → s ∉ strings.
Proof.
  revert k. induction declarations as [|decl rest IH]; intros k; simpl; [done|].
  destruct (existsb _ (decl_flags decl)) eqn:Hconflict.
  - intros [= <-]. split.
    + apply existsb_exists in Hconflict as (s & Hs & Hin).
      apply bool_decide_eq_true in Hin. exists decl, s.
      split; [done|]. split; [by apply list_elem_of_In|done].
    + intros s Hs. by apply elem_of_nil in Hs.
  - destruct (first_conflict strings rest) as [k'|] eqn:Hrest; [|done].
    intros [= <-]. destruct (IH k' eq_refl) as [Hthere Hbefore]. split; [done|].
    simpl. intros s [Hs|Hs]%elem_of_app; [|by apply Hbefore].
    intros Hin. apply not_true_iff_false in Hconflict. apply Hconflict.
    apply existsb_exists. exists s. split; [by apply list_elem_of_In|].
    by apply bool_decide_eq_true.
Qed.

Lemma profile_declarations_distinct : NoDup (flat_map decl_flags profile_declarations).
Proof. apply (bool_decide_unpack _). vm_compute. reflexivity. Qed.

(** X14: [_add_profile_arguments] succeeds exactly on a parser that declares
    none of its thirty option strings; it then appends its fifteen
    [Extender] actions, in call order, to the actions of the parser, and
    changes nothing else.  A destination without [default=] takes the
    parser-level default set before, if there is one. *)
Theorem _add_profile_arguments_succeeds_iff (parser : ArgumentParser) :
  ((_add_profile_arguments parser).1 = Ok ()
   ↔ ∀ s, s ∈ flat_map decl_flags profile_declarations
          → s ∉ _option_string_actions parser)
  ∧ ((_add_profile_arguments parser).1 = Ok () →
     (_add_profile_arguments parser).2
     = mk_ArgumentParser (_defaults parser)
         (_actions parser ++ map (declared (_defaults parser)) profile_declarations)).
Proof.
  rewrite _add_profile_arguments_declarations.
  pose proof (add_arguments_run profile_declarations parser profile_declarations_distinct)
    as Hrun.
  rewrite <- first_conflict_None.
  destruct (first_conflict (_option_string_actions parser) profile_declarations) as [k|].
  - destruct Hrun as (exc & _ & ->). split; [split|]; done.
  - rewrite Hrun. split; [split|]; done.
Qed.

(** X15: a conflict does not undo what was done.  When the call raises, the
    exception is an [ArgumentError], and the parser keeps the actions of the
    declarations made before the first one that names a flag the parser
    already had. *)
Theorem _add_profile_arguments_conflict_keeps_earlier (parser : ArgumentParser)
    (exc : exn) :
  (_add_profile_arguments parser).1 = Raise exc →
  exn_class exc = ArgumentError
  ∧ ∃ k decl s,
      profile_declarations !! k = Some decl
      ∧ s ∈ decl_flags decl ∧ s ∈ _option_string_actions parser
      ∧ (∀ s', s' ∈ flat_map decl_flags (take k profile_declarations)
               → s' ∉ _option_string_actions parser)
      ∧ (_add_profile_arguments parser).2
        = mk_ArgumentParser (_defaults parser)
            (_actions parser
             ++ map (declared (_defaults parser)) (take k profile_declarations)).
Proof.
  rewrite _add_profile_arguments_declarations.
  pose proof (add_arguments_run profile_declarations parser profile_declarations_distinct)
    as Hrun.
  destruct (first_conflict (_option_string_actions parser) profile_declarations)
    as [k|] eqn:Hfirst.
  - destruct Hrun as (exc' & Hclass & ->). intros [= <-]. split; [done|].
    destruct (first_conflict_Some _ _ _ Hfirst) as [(decl & s & Hk & Hs & Hin) Hbefore].
    exists k, decl, s. done.
  - by rewrite Hrun.
Qed.

(** * The options of [_add_profile_arguments] at parse time *)

Lemma filter_ext_Forall {A : Type} (P Q : A → Prop) `{∀ x, Decision (P x)}
    `{∀ x, Decision (Q x)} (l : list A) :
  Forall (fun x => P x ↔ Q x) l → filter P l = filter Q l.
Proof.
  induction 1 as [|x l Hx _ IH]; [done|].
  destruct (decide (P x)) as [HP|HP].
  - rewrite !filter_cons_True by tauto. by rewrite IH.
  - rewrite !filter_cons_False by tauto. done.
Qed.

Lemma profile_parser_extenders :
  Forall (fun a => action a = ExtenderAction ∧ default a = PNone) (_actions profile_parser).
Proof. vm_compute. repeat constructor. Qed.

(** Every flag of the parser belongs to the family and the machine its
    destination names. *)
Lemma profile_parser_route (a : Action) (s short long prefix : string)
    (default_kw : option pyval) :
  a ∈ _actions profile_parser →
  s ∈ option_strings a →
  (short, long, prefix, default_kw) ∈ profile_families →
  (dest a = prefix +:+ "host" ↔ s ∈ [short; long; short +:+ ":h"; long +:+ ":host"])
  ∧ (dest a = prefix +:+ "build" ↔ s ∈ [short +:+ ":b"; long +:+ ":build"]).
Proof.
  intros Ha Hs Hfamily.
  assert (Hcheck :
    forallb (fun a =>
      forallb (fun s =>
        forallb (fun family : string * string * string * option pyval =>
          let '(short, long, prefix, _) := family in
          Bool.eqb (String.eqb (dest a) (prefix +:+ "host"))
                   (bool_decide (s ∈ [short; long; short +:+ ":h"; long +:+ ":host"]))
          && Bool.eqb (String.eqb (dest a) (prefix +:+ "build"))
                      (bool_decide (s ∈ [short +:+ ":b"; long +:+ ":build"])))
          profile_families)
        (option_strings a))
      (_actions profile_parser) = true).
  { vm_compute. reflexivity. }
  rewrite forallb_forall in Hcheck.
  specialize (Hcheck a (proj1 (list_elem_of_In _ _) Ha)).
  rewrite forallb_forall in Hcheck.
  specialize (Hcheck s (proj1 (list_elem_of_In _ _) Hs)).
  rewrite forallb_forall in Hcheck.
  specialize (Hcheck _ (proj1 (list_elem_of_In _ _) Hfamily)). simpl in Hcheck.
  apply andb_prop in Hcheck as [Hhost Hbuild].
  apply Bool.eqb_prop in Hhost, Hbuild.
  split.
  - rewrite <- String.eqb_eq, Hhost. apply bool_decide_eq_true.
  - rewrite <- String.eqb_eq, Hbuild. apply bool_decide_eq_true.
Qed.

Lemma profile_parser_initially_None (short long prefix : string)
    (default_kw : option pyval) :
  (short, long, prefix, default_kw) ∈ profile_families →
  initial_namespace profile_parser !! (prefix +:+ "host") = Some PNone
  ∧ initial_namespace profile_parser !! (prefix +:+ "build") = Some PNone.
Proof.
  unfold profile_families. rewrite !elem_of_cons, elem_of_nil.
  intros [H|[H|[H|[H|[H|[]]]]]]; injection H as -> -> -> ->; split; by vm_compute.
Qed.

(** X16: on the parser built by [_add_profile_arguments], the flags of a
    family without suffix and with the host suffix are synonyms: their
    values are collected, in command-line order, in the destination of the
    host machine, and the values of the flags with the build suffix in the
    destination of the build machine.  A destination no occurrence names
    stays [None]. *)
Theorem profile_arguments_routing (occurrences : list occurrence)
    (short long prefix : string) (default_kw : option pyval) :
  (short, long, prefix, default_kw) ∈ profile_families →
  Forall (fun o => ∃ a, _actions profile_parser !! occ_action o = Some a
                        ∧ occ_option_string o ∈ option_strings a
                        ∧ argparse_values (occ_values o) = true) occurrences →
  ∃ namespace',
    parse_args profile_parser occurrences = Ok namespace'
    ∧ namespace' !! (prefix +:+ "host")
      = collected (filter (fun o => occ_option_string o
                                    ∈ [short; long; short +:+ ":h"; long +:+ ":host"])
                     occurrences)
    ∧ namespace' !! (prefix +:+ "build")
      = collected (filter (fun o => occ_option_string o
                                    ∈ [short +:+ ":b"; long +:+ ":build"])
                     occurrences).
Proof.
  intros Hfamily Hocc.
  assert (Hnone : extenders_default_None profile_parser).
  { intros a Ha _. by apply (proj1 (Forall_forall _ _) profile_parser_extenders a Ha). }
  assert (Hext : forallb (fun o => extender_of profile_parser o
                                   && argparse_values (occ_values o)) occurrences = true).
  { apply forallb_forall. intros o Ho%list_elem_of_In.
    destruct (proj1 (Forall_forall _ _) Hocc o Ho) as (a & Ha & _ & Hshape).
    unfold extender_of. rewrite Ha, Hshape.
    by rewrite (proj1 (proj1 (Forall_forall _ _) profile_parser_extenders a
                         ltac:(by eapply list_elem_of_lookup_2))). }
  destruct (take_actions_extenders occurrences profile_parser
              (initial_namespace profile_parser) Hnone Hext)
    as (parser' & namespace' & Hrun & Hfinal).
  exists namespace'. split; [unfold parse_args; by rewrite Hrun|].
  destruct (profile_parser_initially_None _ _ _ _ Hfamily) as [Hhost0 Hbuild0].
  assert (Hroute : ∀ d (flags : list string),
            (∀ a s, a ∈ _actions profile_parser → s ∈ option_strings a →
                    dest a = d ↔ s ∈ flags) →
            initial_namespace profile_parser !! d = Some PNone →
            namespace' !! d
            = collected (filter (fun o => occ_option_string o ∈ flags) occurrences)).
  { intros d flags Hd Hinit. rewrite Hfinal.
    rewrite (filter_ext_Forall _ (fun o => occ_option_string o ∈ flags)).
    - unfold collected, held. rewrite Hinit. by destruct (filter _ occurrences).
    - apply Forall_forall. intros o Ho.
      destruct (proj1 (Forall_forall _ _) Hocc o Ho) as (a & Ha & Hs & _).
      unfold extender_occurrence. rewrite Ha.
      rewrite (proj1 (proj1 (Forall_forall _ _) profile_parser_extenders a
                        ltac:(by eapply list_elem_of_lookup_2))).
      rewrite String.eqb_eq. apply Hd; [by eapply list_elem_of_lookup_2|done]. }
  split.
  - apply Hroute; [|done]. intros a s Ha Hs.
    by destruct (profile_parser_route a s _ _ _ _ Ha Hs Hfamily).
  - apply Hroute; [|done]. intros a s Ha Hs.
    by destruct (profile_parser_route a s _ _ _ _ Ha Hs Hfamily).
Qed.

(** * The properties of the accumulating options at concrete command lines *)

(** X13 at [-o a=1 --build missing -o:h b=2]: the options and the build
    policy are collected apart, and [remote] is left alone. *)
Lemma Extender_destinations_independent_witness :
  ∃ namespace',
    parse_args install_parser
      [ mk_occurrence 2 "-o" (PList [PStr "a=1"]);
        mk_occurrence 0 "--build" (PStr "missing");
        mk_occurrence 3 "-o:h" (PList [PStr "b=2"]) ] = Ok namespace'
    ∧ namespace' !! "options_host" = Some (PList [PStr "a=1"; PStr "b=2"])
    ∧ namespace' !! "build" = Some (PList [PStr "missing"])
    ∧ namespace' !! "remote" = Some PNone.
Proof.
  assert (Hnone : extenders_default_None install_parser).
  { intros a Ha _. unfold install_parser in Ha; simpl in Ha.
    rewrite !elem_of_cons, elem_of_nil in Ha.
    destruct Ha as [->|[->|[->|[->|[]]]]]; reflexivity. }
  destruct (Extender_destinations_independent install_parser
              [ mk_occurrence 2 "-o" (PList [PStr "a=1"]);
                mk_occurrence 0 "--build" (PStr "missing");
                mk_occurrence 3 "-o:h" (PList [PStr "b=2"]) ] Hnone eq_refl)
    as (namespace' & Hrun & Hfinal).
  exists namespace'. split; [exact Hrun|].
  rewrite !Hfinal. repeat split; by vm_compute.
Defined.

(** X15 on a parser that declares [-s/--src], as the parser of
    [conan remove] does: the call fails at the settings, after the nine
    declarations for the environment, the options and the profiles. *)
Lemma _add_profile_arguments_conflict_keeps_earlier_witness :
  (_add_profile_arguments
     (mk_ArgumentParser ∅ [mk_Action OnceArgumentAction ["-s"; "--src"] "src" PNone])).1
  = raise ArgumentError "conflicting option string: -s"
  ∧ ∃ k,
      (k < 15)%nat
      ∧ _actions
          (_add_profile_arguments
             (mk_ArgumentParser ∅
                [mk_Action OnceArgumentAction ["-s"; "--src"] "src" PNone])).2
        = mk_Action OnceArgumentAction ["-s"; "--src"] "src" PNone
          :: map (declared ∅) (take k profile_declarations).
Proof.
  assert (Hraise :
    (_add_profile_arguments
       (mk_ArgumentParser ∅ [mk_Action OnceArgumentAction ["-s"; "--src"] "src" PNone])).1
    = raise ArgumentError "conflicting option string: -s").
  { by vm_compute. }
  split; [exact Hraise|].
  destruct (_add_profile_arguments_conflict_keeps_earlier _ _ Hraise)
    as (_ & k & decl & s & Hk & _ & _ & _ & Hparser).
  exists k. split.
  - by apply lookup_lt_Some in Hk.
  - by rewrite Hparser.
Defined.

(** X16 at [-s os=Linux -s:b os=Windows --settings:host arch=x86]. *)
Lemma profile_arguments_routing_witness :
  ∃ namespace',
    parse_args profile_parser
      [ mk_occurrence 9 "-s" (PList [PStr "os=Linux"]);
        mk_occurrence 10 "-s:b" (PList [PStr "os=Windows"]);
        mk_occurrence 11 "--settings:host" (PList [PStr "arch=x86"]) ] = Ok namespace'
    ∧ namespace' !! "settings_host" = Some (PList [PStr "os=Linux"; PStr "arch=x86"])
    ∧ namespace' !! "settings_build" = Some (PList [PStr "os=Windows"]).
Proof.
  assert (Hfamily : ("-s", "--settings", "settings_", @None pyval) ∈ profile_families).
  { do 3 apply list_elem_of_further. apply list_elem_of_here. }
  assert (Hocc :
    Forall (fun o => ∃ a, _actions profile_parser !! occ_action o = Some a
                          ∧ occ_option_string o ∈ option_strings a
                          ∧ argparse_values (occ_values o) = true)
      [ mk_occurrence 9 "-s" (PList [PStr "os=Linux"]);
        mk_occurrence 10 "-s:b" (PList [PStr "os=Windows"]);
        mk_occurrence 11 "--settings:host" (PList [PStr "arch=x86"]) ]).
  { constructor; [|constructor; [|constructor; [|constructor]]].
    - exists (mk_Action ExtenderAction ["-s"; "--settings"] "settings_host" PNone).
      split; [reflexivity|]. split; [apply list_elem_of_here|reflexivity].
    - exists (mk_Action ExtenderAction ["-s:b"; "--settings:build"] "settings_build" PNone).
      split; [reflexivity|]. split; [apply list_elem_of_here|reflexivity].
    - exists (mk_Action ExtenderAction ["-s:h"; "--settings:host"] "settings_host" PNone).
      split; [reflexivity|].
      split; [apply list_elem_of_further; apply list_elem_of_here|reflexivity]. }
  destruct (profile_arguments_routing _ _ _ _ _ Hfamily Hocc)
    as (namespace' & Hrun & Hhost & Hbuild).
  exists namespace'. split; [exact Hrun|]. split; [exact Hhost|exact Hbuild].
Defined.

(** * The Meson helper *)

Lemma append_assoc (a b c : string) : (a +:+ b) +:+ c = a +:+ (b +:+ c).
Proof.
  induction a as [|x a IH]; [done|].
  change (String x ((a +:+ b) +:+ c) = String x (a +:+ (b +:+ c))). by rewrite IH.
Qed.

Lemma concat_space_merge (a b : string) (ws : list string) :
  String.concat " " ((a +:+ " " +:+ b) :: ws) = String.concat " " (a :: b :: ws).
Proof.
  destruct ws as [|w ws]; [done|].
  change (String.concat " " ((a +:+ " " +:+ b) :: w :: ws))
    with ((a +:+ " " +:+ b) +:+ " " +:+ String.concat " " (w :: ws)).
  change (String.concat " " (a :: b :: w :: ws))
    with (a +:+ " " +:+ (b +:+ " " +:+ String.concat " " (w :: ws))).
  by rewrite !append_assoc.
Qed.

Lemma fold_words (ws : list string) :
  ∀ init, fold_left (fun cmd w => cmd +:+ " " +:+ w) ws init
          = String.concat " " (init :: ws).
Proof.
  induction ws as [|w ws IH]; intros init; [done|].
  cbn [fold_left]. by rewrite IH, concat_space_merge.
Qed.

Lemma fold_options (options : list (string * Meson.scalar)) :
  ∀ init,
    fold_left (fun cmd (kv : string * Meson.scalar) =>
                 let '(k, v) := kv in
                 match v with
                 | Meson.SBool true => cmd +:+ " " +:+ k
                 | Meson.SBool false => cmd
                 | _ => cmd +:+ " " +:+ k +:+ " " +:+ Meson.str_format v
                 end) options init
    = fold_left (fun cmd w => cmd +:+ " " +:+ w) (flat_map Meson.option_words options) init.
Proof.
  induction options as [|[k v] options IH]; intros init; [done|].
  cbn [fold_left flat_map]. rewrite fold_left_app, IH.
  destruct v as [|[|]|z|s]; cbn; by rewrite ?append_assoc.
Qed.

(** The words of a [Meson.run] command line. *)
Lemma run_command_line (cmd : Meson.scalar) (options : list (string * Meson.scalar))
    (args : list Meson.scalar) :
  fold_left (fun cmd arg => cmd +:+ " " +:+ Meson.str_format arg) args
    (fold_left (fun cmd (kv : string * Meson.scalar) =>
                  let '(k, v) := kv in
                  match v with
                  | Meson.SBool true => cmd +:+ " " +:+ k
                  | Meson.SBool false => cmd
                  | _ => cmd +:+ " " +:+ k +:+ " " +:+ Meson.str_format v
                  end) options
       ("meson" +:+ match cmd with
                    | Meson.SNone => ""
                    | _ => " " +:+ Meson.str_format cmd
                    end))
  = String.concat " "
      ("meson" :: match cmd with Meson.SNone => [] | _ => [Meson.str_format cmd] end
               ++ flat_map Meson.option_words options ++ map Meson.str_format args).
Proof.
  rewrite fold_options.
  assert (Hargs : ∀ init, fold_left (fun cmd arg => cmd +:+ " " +:+ Meson.str_format arg)
                            args init
                          = fold_left (fun cmd w => cmd +:+ " " +:+ w)
                              (map Meson.str_format args) init).
  { induction args as [|arg args IHa]; intros init; [done|]. cbn. by rewrite IHa. }
  rewrite Hargs, <- fold_left_app, fold_words.
  destruct cmd; try (by rewrite concat_space_merge); done.
Qed.

(** [Meson.run] in closed form. *)
Lemma Meson_run_closed (conanfile : Meson.ConanFile) (cmd : Meson.scalar)
    (args : list Meson.scalar) (options : option nat) (cmd_info_name : Meson.scalar)
    (st : Meson.state) :
  let line :=
    String.concat " "
      ("meson" :: match cmd with Meson.SNone => [] | _ => [Meson.str_format cmd] end
               ++ flat_map Meson.option_words
                    match options with None => [] | Some ref => Meson.get_list ref st end
               ++ map Meson.str_format args) in
  Meson.run conanfile cmd args options cmd_info_name st
  = Meson.ConanFile_run conanfile line
      match cmd_info_name with
      | Meson.SBool false => st
      | Meson.SNone => Meson.output_info ("Meson cmd: " +:+ line) st
      | _ => Meson.output_info
               ("Meson " +:+ Meson.str_format cmd_info_name +:+ " cmd: " +:+ line) st
      end.
Proof.
  intros line. unfold Meson.run. rewrite run_command_line. fold line.
  destruct cmd_info_name as [|[|]|z|s]; try done.
Qed.

(** X17: the command [Meson.run] executes is the list of its words joined
    by single spaces: [meson], the sub-command unless it is [None], for
    every option its key if the value is [True], nothing if it is [False],
    and key and value otherwise, then the positional arguments.  The call
    executes this one command, changes no options list, and writes one line
    that shows the command unless [cmd_info_name] is [False]. *)
Theorem Meson_run_command_words (conanfile : Meson.ConanFile) (cmd : Meson.scalar)
    (args : list Meson.scalar) (options : option nat) (cmd_info_name : Meson.scalar)
    (st : Meson.state) :
  let line :=
    String.concat " "
      ("meson" :: match cmd with Meson.SNone => [] | _ => [Meson.str_format cmd] end
               ++ flat_map Meson.option_words
                    match options with None => [] | Some ref => Meson.get_list ref st end
               ++ map Meson.str_format args) in
  let after := (Meson.run conanfile cmd args options cmd_info_name st).2 in
  Meson.executed after = Meson.executed st ++ [line]
  ∧ Meson.lists after = Meson.lists st
  ∧ Meson.info after
    = Meson.info st
      ++ match cmd_info_name with
         | Meson.SBool false => []
         | Meson.SNone => ["Meson cmd: " +:+ line]
         | _ => ["Meson " +:+ Meson.str_format cmd_info_name +:+ " cmd: " +:+ line]
         end
  ∧ (Meson.run conanfile cmd args options cmd_info_name st).1
    = (Meson.conanfile_run conanfile line (Meson.path_exists st)).1.
Proof.
  intros line after. unfold after. rewrite Meson_run_closed. fold line.
  unfold Meson.ConanFile_run.
  destruct cmd_info_name as [|[|]|z|s]; cbn [Meson.path_exists Meson.output_info];
    destruct (Meson.conanfile_run conanfile line (Meson.path_exists st)) as [r e];
    cbn; by rewrite ?app_nil_r.
Qed.

(** ** [run_setup], [configure] and [install] *)

Lemma get_list_set_list (ref : nat) (l : list (string * Meson.scalar)) (st : Meson.state) :
  Meson.get_list ref (Meson.set_list ref l st) = l.
Proof. unfold Meson.get_list, Meson.set_list; simpl. by rewrite lookup_insert_eq. Qed.

Lemma get_list_ConanFile_run (conanfile : Meson.ConanFile) (cmd : string) (ref : nat)
    (st : Meson.state) :
  Meson.get_list ref (Meson.ConanFile_run conanfile cmd st).2 = Meson.get_list ref st.
Proof.
  unfold Meson.ConanFile_run.
  by destruct (Meson.conanfile_run conanfile cmd (Meson.path_exists st)).
Qed.

(** [run_setup] on the caller's list, in closed form. *)
Lemma Meson_run_setup_closed (conanfile : Meson.ConanFile) (args : list Meson.scalar)
    (ref : nat) (cmd_info_name reconfigure : Meson.scalar) (st : Meson.state) :
  let options :=
    (if Meson.reconfigures conanfile reconfigure st
     then [("--reconfigure", Meson.SBool true)] else [])
    ++ Meson.get_list ref st in
  let line :=
    String.concat " "
      (["meson"; "setup"] ++ flat_map Meson.option_words options
       ++ [Meson.quoted (Meson.build_folder conanfile);
           Meson.quoted (Meson.source_folder conanfile)]
       ++ map Meson.str_format args) in
  Meson.run_setup conanfile args (Some ref) cmd_info_name reconfigure st
  = Meson.ConanFile_run conanfile line
      (Meson.output_info
         ("Meson " +:+ match cmd_info_name with
                       | Meson.SNone => "setup"
                       | _ => Meson.str_format cmd_info_name
                       end +:+ " cmd: " +:+ line)
         (if Meson.reconfigures conanfile reconfigure st
          then Meson.set_list ref options st else st))
    ∨ cmd_info_name = Meson.SBool false
      ∧ Meson.run_setup conanfile args (Some ref) cmd_info_name reconfigure st
        = Meson.ConanFile_run conanfile line
            (if Meson.reconfigures conanfile reconfigure st
             then Meson.set_list ref options st else st).
Proof.
  intros options line. unfold Meson.run_setup.
  fold (Meson.reconfigures conanfile reconfigure st).
  rewrite Meson_run_closed. subst line options.
  destruct (Meson.reconfigures conanfile reconfigure st);
    rewrite ?get_list_set_list; cbn [app];
    destruct cmd_info_name as [|[|]|z|s]; (by left) || (by right).
Qed.

(** X18: [run_setup] puts [--reconfigure] in front of the options exactly
    when reconfiguring is not switched off and the build folder already has
    a [meson-private] directory; the option is inserted into the caller's
    list object, which is one element longer after the call.  On the command
    line the options come first, then the quoted build and source folders,
    then the positional arguments. *)
Theorem Meson_run_setup_reconfigure (conanfile : Meson.ConanFile)
    (args : list Meson.scalar) (ref : nat) (cmd_info_name reconfigure : Meson.scalar)
    (st : Meson.state) :
  let after := (Meson.run_setup conanfile args (Some ref) cmd_info_name reconfigure st).2 in
  let options :=
    (if Meson.reconfigures conanfile reconfigure st
     then [("--reconfigure", Meson.SBool true)] else [])
    ++ Meson.get_list ref st in
  Meson.get_list ref after = options
  ∧ Meson.executed after
    = Meson.executed st
      ++ [String.concat " "
            (["meson"; "setup"] ++ flat_map Meson.option_words options
             ++ [Meson.quoted (Meson.build_folder conanfile);
                 Meson.quoted (Meson.source_folder conanfile)]
             ++ map Meson.str_format args)].
Proof.
  intros after options. unfold after.
  assert (Hshape : ∃ line st',
            Meson.run_setup conanfile args (Some ref) cmd_info_name reconfigure st
            = Meson.ConanFile_run conanfile line st'
            ∧ line = String.concat " "
                       (["meson"; "setup"] ++ flat_map Meson.option_words options
                        ++ [Meson.quoted (Meson.build_folder conanfile);
                            Meson.quoted (Meson.source_folder conanfile)]
                        ++ map Meson.str_format args)
            ∧ Meson.get_list ref st' = options
            ∧ Meson.executed st' = Meson.executed st).
  { destruct (Meson_run_setup_closed conanfile args ref cmd_info_name reconfigure st)
      as [->|[_ ->]]; do 2 eexists; (split; [reflexivity|]); (split; [reflexivity|]);
      subst options; destruct (Meson.reconfigures conanfile reconfigure st);
      unfold Meson.get_list; cbn [Meson.output_info Meson.set_list Meson.lists
                                    Meson.executed app];
      rewrite ?lookup_insert_eq; done. }
  destruct Hshape as (line & st' & -> & -> & Hlist & Hexecuted).
  rewrite get_list_ConanFile_run. split; [done|].
  unfold Meson.ConanFile_run.
  destruct (Meson.conanfile_run conanfile _ _) as [r e]; cbn [snd Meson.executed].
  by rewrite Hexecuted.
Qed.

Section toolchain_facts.
Variables cross_filename native_filename : string.

(** The options [configure] appends. *)
Let appended (conanfile : Meson.ConanFile) (st : Meson.state)
  : list (string * Meson.scalar) :=
  (if Meson.path_exists st
        (posixpath.join (Meson.generators_folder conanfile) cross_filename)
   then ("--cross-file",
         Meson.SStr (Meson.quoted
                       (posixpath.join (Meson.generators_folder conanfile) cross_filename)))
   else ("--native-file",
         Meson.SStr (Meson.quoted
                       (posixpath.join (Meson.generators_folder conanfile)
                          native_filename))))
  :: (if Meson.truthy (Meson.package_folder conanfile)
      then [("-D", Meson.SStr ("prefix="
                               +:+ Meson.quoted
                                     (Meson.str_format (Meson.package_folder conanfile))))]
      else []).

Lemma Meson_configure_list (conanfile : Meson.ConanFile) (ref : nat)
    (cmd_info_name reconfigure : Meson.scalar) (st : Meson.state) :
  Meson.get_list ref
    (Meson.configure cross_filename native_filename conanfile (Some ref) cmd_info_name
       reconfigure st).2
  = (if Meson.reconfigures conanfile reconfigure st
     then [("--reconfigure", Meson.SBool true)] else [])
    ++ Meson.get_list ref st ++ appended conanfile st.
Proof.
  unfold Meson.configure.
  set (st1 := if Meson.path_exists st _ then _ else _).
  set (st2 := if Meson.truthy _ then _ else st1).
  assert (Hlist : Meson.get_list ref st2 = Meson.get_list ref st ++ appended conanfile st).
  { subst st2 st1. unfold appended.
    destruct (Meson.path_exists st _); destruct (Meson.truthy _);
      rewrite ?get_list_set_list, <- ?app_assoc; done. }
  assert (Hexists : Meson.reconfigures conanfile reconfigure st2
                    = Meson.reconfigures conanfile reconfigure st).
  { subst st2 st1. unfold Meson.reconfigures.
    destruct (Meson.path_exists st (posixpath.join _ cross_filename));
      destruct (Meson.truthy (Meson.package_folder conanfile)); done. }
  pose proof (Meson_run_setup_reconfigure conanfile [] ref
                match cmd_info_name with
                | Meson.SNone => Meson.SStr "configure"
                | _ => cmd_info_name
                end reconfigure st2) as [Hafter _].
  cbv zeta in Hafter. rewrite Hexists, Hlist in Hafter.
  destruct (Meson.run_setup conanfile [] (Some ref) _ reconfigure st2) as [[v|exc] st3];
    exact Hafter.
Qed.

(** X19: [configure] appends to the options list of its caller and so
    leaves it longer: after the call the list holds what it held before,
    followed by the option that names the toolchain file ([--cross-file] if
    the cross file exists, [--native-file] otherwise) and, if the recipe has
    a package folder, by the prefix definition.  The number of
    toolchain-file options in the list grows by one with every call, so a
    list object that is passed to [configure] twice names the toolchain file
    twice on the second command line. *)
Theorem Meson_configure_extends_caller_list (conanfile : Meson.ConanFile) (ref : nat)
    (cmd_info_name reconfigure : Meson.scalar) (st : Meson.state) :
  let after :=
    (Meson.configure cross_filename native_filename conanfile (Some ref) cmd_info_name
       reconfigure st).2 in
  Meson.get_list ref after
  = (if Meson.reconfigures conanfile reconfigure st
     then [("--reconfigure", Meson.SBool true)] else [])
    ++ Meson.get_list ref st
    ++ (if Meson.path_exists st
             (posixpath.join (Meson.generators_folder conanfile) cross_filename)
        then ("--cross-file",
              Meson.SStr (Meson.quoted
                            (posixpath.join (Meson.generators_folder conanfile)
                               cross_filename)))
        else ("--native-file",
              Meson.SStr (Meson.quoted
                            (posixpath.join (Meson.generators_folder conanfile)
                               native_filename))))
       :: (if Meson.truthy (Meson.package_folder conanfile)
           then [("-D", Meson.SStr ("prefix="
                                    +:+ Meson.quoted
                                          (Meson.str_format
                                             (Meson.package_folder conanfile))))]
           else [])
  ∧ length (filter (fun kv => Meson.toolchain_option kv = true) (Meson.get_list ref after))
    = S (length (filter (fun kv => Meson.toolchain_option kv = true)
                   (Meson.get_list ref st))).
Proof.
  intros after. unfold after. rewrite Meson_configure_list. split; [done|].
  rewrite !filter_app, !length_app. unfold appended.
  assert (Hyes : ∀ kv l, Meson.toolchain_option kv = true →
            filter (fun kv => Meson.toolchain_option kv = true) (kv :: l)
            = kv :: filter (fun kv => Meson.toolchain_option kv = true) l).
  { intros kv l Hkv. by rewrite filter_cons_True. }
  assert (Hno : ∀ kv l, Meson.toolchain_option kv = false →
            filter (fun kv => Meson.toolchain_option kv = true) (kv :: l)
            = filter (fun kv => Meson.toolchain_option kv = true) l).
  { intros kv l Hkv. rewrite filter_cons_False; [done|]. by rewrite Hkv. }
  destruct (Meson.reconfigures conanfile reconfigure st);
    destruct (Meson.path_exists st _);
    destruct (Meson.truthy (Meson.package_folder conanfile));
    rewrite ?(Hno ("--reconfigure", _)), ?(Hyes ("--cross-file", _)),
      ?(Hyes ("--native-file", _)), ?(Hno ("-D", _)) by reflexivity;
    rewrite ?filter_nil; cbn [length]; lia.
Qed.

End toolchain_facts.
